(** * TypewriterEffect: the staggered, visibility-gated, looping text animation

    A shallow embedding of the class [TypewriterEffect] (typewriter.js):
    constructor, [init], [setupIntersectionObserver], [typeText] and
    [destroy], together with the part of the browser the class talks to
    (timer table, clock, text sinks, console). The method [escapeHtml]
    of the class and [initSlideshow] of slideshow.js (module [Slideshow],
    with the layout readings and the events it depends on) are embedded
    as well.

    JavaScript objects that are shared by reference (the tracking objects
    pushed on [this.elements], captured by timer closures and collected in
    [slideItems]) are modelled by their index in [elements]: the array is
    filled once by [init] and never shrinks, so an index is an identity. *)

(** * Part I. The model and the notions the statements use *)

From Stdlib Require PrimFloat.
From stdpp Require Import base gmap sets list strings pretty.

Open Scope N_scope.

(** ** Data *)

(** A JavaScript string is a sequence of UTF-16 code units. *)
Abbreviation jsstring := (list N).

(** Code units of an ASCII literal, for examples. *)
Fixpoint js (s : string) : jsstring :=
  match s with
  | EmptyString => []
  | String c r => Ascii.N_of_ascii c :: js r
  end.

(** U+2588 FULL BLOCK, the default cursor. *)
Definition full_block : jsstring := [9608].

(** What [String(undefined)] appends when an index is out of range. *)
Definition str_undefined : jsstring := js "undefined".

(** Children of a text sink: text nodes and the cursor [span]. *)
Inductive Node :=
  | TextNode (data : jsstring)
  | SpanNode (className : string) (text : jsstring).

#[global] Instance Node_eq_dec : EqDecision Node.
Proof. solve_decision. Defined.

(** The [textContent] getter. *)
Definition node_text (n : Node) : jsstring :=
  match n with TextNode d => d | SpanNode _ t => t end.

Definition textContent (kids : list Node) : jsstring :=
  mjoin (node_text <$> kids).

(** The [textContent] setter replaces all children by one text node, or by
    nothing when the string is empty. *)
Definition text_children (text : jsstring) : list Node :=
  match text with [] => [] | _ => [TextNode text] end.

(** The tracking object [init] pushes on [this.elements]. *)
Record Item := mkItem {
  element : option positive;
  originalText : jsstring;
  fullText : jsstring;
  currentText : jsstring;
  isTyping : bool;
  isVisible : bool;
  slideElement : positive;
  staggerIndex : nat;
  loopTimeout : option positive;
}.

#[global] Instance Item_eq_dec : EqDecision Item.
Proof. solve_decision. Defined.

Definition with_currentText (t : jsstring) (it : Item) : Item :=
  mkItem (element it) (originalText it) (fullText it) t (isTyping it)
         (isVisible it) (slideElement it) (staggerIndex it) (loopTimeout it).

Definition with_isVisible (b : bool) (it : Item) : Item :=
  mkItem (element it) (originalText it) (fullText it) (currentText it)
         (isTyping it) b (slideElement it) (staggerIndex it) (loopTimeout it).

Definition with_loopTimeout (h : option positive) (it : Item) : Item :=
  mkItem (element it) (originalText it) (fullText it) (currentText it)
         (isTyping it) (isVisible it) (slideElement it) (staggerIndex it) h.

(** The two closures the class hands to [setTimeout]. [slideItems] is the
    array captured by the closure. *)
Inductive Callback :=
  | CbTypeText (item : nat) (slideItems : list nat)
  | CbLoopRestart (si : nat) (slideItems : list nat).

#[global] Instance Callback_eq_dec : EqDecision Callback.
Proof. solve_decision. Defined.

Record Timer := mkTimer { due : N; callback : Callback }.

#[global] Instance Timer_eq_dec : EqDecision Timer.
Proof. solve_decision. Defined.

Inductive Level := Warn | Error | Uncaught.

(** The browser as the class sees it. [broken] are sinks whose DOM setters
    throw; [observing] are the containers handed to [observer.observe]. *)
Record Host := mkHost {
  now : N;
  nextTimer : positive;
  timers : gmap positive Timer;
  sinks : gmap positive (list Node);
  broken : gset positive;
  observing : list positive;
  console : list (Level * string);
}.

Record TypewriterEffect := mkTW {
  typingSpeed : N;
  cursorChar : jsstring;
  pauseDuration : N;
  staggerDelay : N;
  loopDelay : N;
  autoStart : bool;
  elements : list Item;
  activeSlide : option positive;
  timeoutIds : gset positive;
}.

Record State := mkState { this : TypewriterEffect; host : Host }.

Definition upd_elements (f : list Item → list Item) (s : State) : State :=
  let t := this s in
  mkState (mkTW (typingSpeed t) (cursorChar t) (pauseDuration t) (staggerDelay t)
                (loopDelay t) (autoStart t) (f (elements t)) (activeSlide t)
                (timeoutIds t))
          (host s).

Definition upd_timeoutIds (f : gset positive → gset positive) (s : State) : State :=
  let t := this s in
  mkState (mkTW (typingSpeed t) (cursorChar t) (pauseDuration t) (staggerDelay t)
                (loopDelay t) (autoStart t) (elements t) (activeSlide t)
                (f (timeoutIds t)))
          (host s).

Definition upd_host (f : Host → Host) (s : State) : State :=
  mkState (this s) (f (host s)).

Definition host_with_timers (next : positive) (ts : gmap positive Timer) (h : Host) : Host :=
  mkHost (now h) next ts (sinks h) (broken h) (observing h) (console h).

Definition host_with_sinks (d : gmap positive (list Node)) (h : Host) : Host :=
  mkHost (now h) (nextTimer h) (timers h) d (broken h) (observing h) (console h).

Definition host_with_now (t : N) (h : Host) : Host :=
  mkHost t (nextTimer h) (timers h) (sinks h) (broken h) (observing h) (console h).

Definition host_with_observing (o : list positive) (h : Host) : Host :=
  mkHost (now h) (nextTimer h) (timers h) (sinks h) (broken h) o (console h).

Definition host_log (l : Level) (msg : string) (h : Host) : Host :=
  mkHost (now h) (nextTimer h) (timers h) (sinks h) (broken h) (observing h)
         (console h ++ [(l, msg)]).

(** ** Statements with exceptions

    A method body is a state transformer that either completes or throws;
    the state reached so far survives a throw, as in JavaScript. *)

Inductive Res (A : Type) := Ok (a : A) | Throw (e : string).

Arguments Ok {A} a.

Arguments Throw {A} e.

Definition M (A : Type) : Type := State → Res A * State.

Definition ret {A} (a : A) : M A := λ s, (Ok a, s).

Definition bind {A B} (m : M A) (k : A → M B) : M B :=
  λ s, match m s with
       | (Ok a, s') => k a s'
       | (Throw e, s') => (Throw e, s')
       end.

Definition throw {A} (e : string) : M A := λ s, (Throw e, s).

(** [try { body } catch (e) { handler(e) }] *)
Definition try_catch (body : M unit) (handler : string → M unit) : M unit :=
  λ s, match body s with
       | (Ok a, s') => (Ok a, s')
       | (Throw e, s') => handler e s'
       end.

Definition gets {A} (f : State → A) : M A := λ s, (Ok (f s), s).

Definition modify (f : State → State) : M unit := λ s, (Ok tt, f s).

Declare Scope js_scope.

Delimit Scope js_scope with js.

Notation "'let*' x := m 'in' k" := (bind m (λ x, k))
  (at level 10, x name, m at level 100, k at level 200) : js_scope.

Notation "m ;;; k" := (bind m (λ _, k))
  (at level 100, k at level 200, right associativity) : js_scope.

Open Scope js_scope.

(** [array.forEach(f)]: a throw inside [f] leaves the loop. *)
Fixpoint forEach {A} (l : list A) (f : A → M unit) : M unit :=
  match l with
  | [] => ret tt
  | x :: l' => f x ;;; forEach l' f
  end.

(** ** Host primitives *)

(** [setTimeout(cb, delay)]: a fresh handle, due [delay] ms from now. *)
Definition setTimeout (cb : Callback) (delay : N) : M positive :=
  λ s, let h := host s in
       let id := nextTimer h in
       (Ok id,
        upd_host (host_with_timers (Pos.succ id)
                    (<[id := mkTimer (now h + delay) cb]> (timers h))) s).

(** [clearTimeout(id)]: unknown and fired handles are ignored. *)
Definition clearTimeout (id : positive) : M unit :=
  modify (upd_host (λ h, host_with_timers (nextTimer h) (delete id (timers h)) h)).

Definition type_error : string := "TypeError".

Definition dom_error : string := "DOMException".

(** [el.textContent = text]; [el] may be [null]. *)
Definition set_textContent (el : option positive) (text : jsstring) : M unit :=
  match el with
  | None => throw type_error
  | Some e =>
      λ s, if decide (e ∈ broken (host s)) then (Throw dom_error, s)
           else (Ok tt, upd_host (λ h, host_with_sinks (<[e := text_children text]> (sinks h)) h) s)
  end.

(** [el.appendChild(node)] *)
Definition appendChild (el : option positive) (n : Node) : M unit :=
  match el with
  | None => throw type_error
  | Some e =>
      λ s, if decide (e ∈ broken (host s)) then (Throw dom_error, s)
           else (Ok tt,
                 upd_host (λ h, host_with_sinks
                            (<[e := default [] (sinks h !! e) ++ [n]]> (sinks h)) h) s)
  end.

Definition console_log (l : Level) (msg : string) : M unit :=
  modify (upd_host (host_log l msg)).

(** ** Access to [this] *)

(** Dereferencing a tracking object; a dangling reference behaves like
    [undefined.field]. *)
Definition getItem (i : nat) : M Item :=
  λ s, match elements (this s) !! i with
       | Some it => (Ok it, s)
       | None => (Throw type_error, s)
       end.

Definition setItem (i : nat) (f : Item → Item) : M unit :=
  modify (upd_elements (alter f i)).

Definition timeoutIds_add (id : positive) : M unit :=
  modify (upd_timeoutIds (λ ids, ids ∪ {[id]})).

Definition timeoutIds_delete (id : positive) : M unit :=
  modify (upd_timeoutIds (λ ids, ids ∖ {[id]})).

(** A timer handle is truthy when it is not [null]. *)
Definition truthy (h : option positive) : bool :=
  match h with Some _ => true | None => false end.

(** ** The class *)

(** The options object. The delays are taken to be non-negative integers
    (milliseconds) and the cursor a string; other values, which [||]
    would store as they are, are not covered. *)
Record Options := mkOptions {
  opt_typingSpeed : option N;
  opt_cursorChar : option jsstring;
  opt_pauseDuration : option N;
  opt_staggerDelay : option N;
  opt_loopDelay : option N;
  opt_autoStart : option bool;
}.

(** [options.field || fallback] on numbers: [undefined] and [0] are falsy. *)
Definition num_or (o : option N) (fallback : N) : N :=
  match o with
  | Some (N.pos p) => N.pos p
  | _ => fallback
  end.

(** [options.cursorChar || fallback]: the empty string is falsy. *)
Definition str_or (o : option jsstring) (fallback : jsstring) : jsstring :=
  match o with
  | Some (c :: r) => c :: r
  | _ => fallback
  end.

Definition constructor (options : Options) : TypewriterEffect :=
  mkTW (num_or (opt_typingSpeed options) 40)
       (str_or (opt_cursorChar options) full_block)
       (num_or (opt_pauseDuration options) 1500)
       (num_or (opt_staggerDelay options) 100)
       (num_or (opt_loopDelay options) 20000)
       (match opt_autoStart options with Some false => false | _ => true end)
       [] None ∅.

(** *** [typeText(item, slideItems)] *)

Definition cursor_class : string := "typewriter-cursor".

Definition all_done (slideItems : list nat) (els : list Item) : bool :=
  forallb (λ i, match els !! i with
                | Some si => bool_decide (length (currentText si) = length (fullText si))
                | None => false
                end) slideItems.

(** [slideItems.every(si => si.currentText.length === si.fullText.length)] *)
Definition every_done (slideItems : list nat) : M bool :=
  gets (λ s, all_done slideItems (elements (this s))).

Definition typeText_body (i : nat) (slideItems : list nat) : M unit :=
  let* item := getItem i in
  if negb (isVisible item) || negb (bool_decide (is_Some (element item))) then ret tt
  else if bool_decide (length (currentText item) < length (fullText item))%nat then
    let next := match fullText item !! length (currentText item) with
                | Some c => [c]
                | None => str_undefined
                end in
    setItem i (with_currentText (currentText item ++ next)) ;;;
    set_textContent (element item) (currentText item ++ next) ;;;
    let* cursor := gets (λ s, SpanNode cursor_class (cursorChar (this s))) in
    appendChild (element item) cursor ;;;
    let* speed := gets (λ s, typingSpeed (this s)) in
    let* timeoutId := setTimeout (CbTypeText i slideItems) speed in
    timeoutIds_add timeoutId
  else
    set_textContent (element item) (fullText item) ;;;
    let* allDone := every_done slideItems in
    if allDone && negb (truthy (loopTimeout item)) then
      forEach slideItems (λ si,
        let* delay := gets (λ s, loopDelay (this s)) in
        let* id := setTimeout (CbLoopRestart si slideItems) delay in
        setItem si (with_loopTimeout (Some id)) ;;;
        timeoutIds_add id)
    else ret tt.

Definition typeText (i : nat) (slideItems : list nat) : M unit :=
  try_catch (typeText_body i slideItems)
            (λ e, console_log Warn "Typewriter animation error:").

(** The closure armed with [loopDelay] in [typeText]; it runs outside any
    [try]. *)
Definition loopRestart (si : nat) (slideItems : list nat) : M unit :=
  let* item := getItem si in
  setItem si (with_currentText []) ;;;
  set_textContent (element item) [] ;;;
  setItem si (with_loopTimeout None) ;;;
  let* stagger := gets (λ s, staggerDelay (this s)) in
  let* timeoutId := setTimeout (CbTypeText si slideItems)
                               (N.of_nat (staggerIndex item) * stagger) in
  timeoutIds_add timeoutId.

(** *** The observer callback of [setupIntersectionObserver] *)

(** [this.elements.filter(item => item.slideElement === target)] *)
Definition slide_items (target : positive) (els : list Item) : list nat :=
  filter (λ i, slideElement <$> els !! i = Some target) (seq 0 (length els)).

(** One tracked item of the triggered slide: the inner [try] block. *)
Definition startItem (slideItems : list nat) (i : nat) : M unit :=
  try_catch
    (let* item := getItem i in
     (if negb (isVisible item) then setItem i (with_isVisible true) else ret tt) ;;;
     setItem i (with_currentText []) ;;;
     set_textContent (element item) [] ;;;
     let* stagger := gets (λ s, staggerDelay (this s)) in
     let* timeoutId := setTimeout (CbTypeText i slideItems)
                                  (N.of_nat (staggerIndex item) * stagger) in
     timeoutIds_add timeoutId)
    (λ e, console_log Warn "Error starting typewriter item:").

(** Clearing one pending loop: the handle stays in [item.loopTimeout]. *)
Definition clearLoop (i : nat) : M unit :=
  let* item := getItem i in
  match loopTimeout item with
  | Some id => clearTimeout id ;;; timeoutIds_delete id
  | None => ret tt
  end.

Definition onEntry (entry : positive * bool) : M unit :=
  try_catch
    (if entry.2 then
       let* slideItems := gets (λ s, slide_items entry.1 (elements (this s))) in
       forEach slideItems clearLoop ;;;
       forEach slideItems (startItem slideItems)
     else ret tt)
    (λ e, console_log Warn "Intersection observer error:").

Definition observerCallback (entries : list (positive * bool)) : M unit :=
  forEach entries onEntry.

(** *** [destroy()] *)

Definition destroy : M unit :=
  let* ids := gets (λ s, base.elements (timeoutIds (this s))) in
  forEach ids clearTimeout ;;;
  modify (upd_timeoutIds (λ _, ∅)).

(** *** [init()] *)

(** An element matched by [querySelectorAll('[data-typewriter]')], with the
    answers of [closest] and [getAttribute] and its children at load. *)
Record DomElement := mkDomElement {
  el_id : positive;
  data_typewriter : jsstring;
  closest_slide : option positive;
  closest_topic : option positive;
  el_children : list Node;
}.

(** [a || b] on element references. *)
Definition or_else (a b : option positive) : option positive :=
  match a with Some x => Some x | None => b end.

(** [slideGroups]: a [Map] keeps its keys in insertion order. *)
Fixpoint group_push (slide : positive) (el : DomElement)
    (groups : list (positive * list DomElement)) : list (positive * list DomElement) :=
  match groups with
  | [] => [(slide, [el])]
  | (k, els) :: rest =>
      if decide (k = slide) then (k, els ++ [el]) :: rest
      else (k, els) :: group_push slide el rest
  end.

Definition slideGroups (doc : list DomElement) : list (positive * list DomElement) :=
  foldl (λ groups el,
           match or_else (closest_slide el) (closest_topic el) with
           | Some slide => group_push slide el groups
           | None => groups
           end) [] doc.

(** [text && typeof text === 'string'] for an attribute value. *)
Definition track (slide : positive) (index : nat) (el : DomElement) : list Item :=
  match data_typewriter el with
  | [] => []
  | text => [mkItem (Some (el_id el)) text text [] false false slide index None]
  end.

Definition tracked (groups : list (positive * list DomElement)) : list Item :=
  mjoin ((λ g, mjoin (imap (track g.1) g.2)) <$> groups).

(** The slides handed to [observer.observe], each once. *)
Definition observed_slides (els : list Item) : list positive :=
  foldl (λ seen it, if decide (slideElement it ∈ seen) then seen
                    else seen ++ [slideElement it]) [] els.

Definition init (doc : list DomElement) : M unit :=
  try_catch
    (match doc with
     | [] => console_log Warn "No typewriter elements found"
     | _ =>
         modify (upd_elements (λ els, els ++ tracked (slideGroups doc))) ;;;
         modify (λ s, upd_host (host_with_observing
                                  (observed_slides (elements (this s)))) s)
     end)
    (λ e, console_log Error "Typewriter initialization failed:").

(** ** The page

    The host fires timers in order of due time, then of creation; the
    observer reports intersection changes; unloading the page calls
    [destroy]. *)

Definition page_host (doc : list DomElement) (faulty : gset positive) : Host :=
  mkHost 0 1 ∅ (list_to_map ((λ el, (el_id el, el_children el)) <$> doc))
         faulty [] [].

(** The wrapper [initTypewriter]: construct, then [init]. *)
Definition boot (options : Options) (doc : list DomElement) (faulty : gset positive) : State :=
  (init doc (mkState (constructor options) (page_host doc faulty))).2.

Definition earlier (a b : positive * Timer) : bool :=
  (due a.2 <? due b.2) || ((due a.2 =? due b.2) && (a.1 <? b.1)%positive).

Definition next_timer (ts : gmap positive Timer) : option (positive * Timer) :=
  foldr (λ x acc, match acc with
                  | Some y => if earlier y x then Some y else Some x
                  | None => Some x
                  end) None (map_to_list ts).

Definition run_callback (cb : Callback) : M unit :=
  match cb with
  | CbTypeText i sl => typeText i sl
  | CbLoopRestart si sl => loopRestart si sl
  end.

(** A handler that throws is reported by the host and the page goes on. *)
Definition host_run (m : M unit) (s : State) : State :=
  match m s with
  | (Ok _, s') => s'
  | (Throw e, s') => upd_host (host_log Uncaught e) s'
  end.

Inductive Event :=
  | EvTimer
  | EvIntersect (t : N) (entries : list (positive * bool))
  | EvUnload.

Definition advance (t : N) (s : State) : State :=
  upd_host (λ h, host_with_now (N.max (now h) t) h) s.

Definition fire (s : State) : State :=
  match next_timer (timers (host s)) with
  | None => s
  | Some (id, tm) =>
      host_run (run_callback (callback tm))
        (advance (due tm)
           (upd_host (λ h, host_with_timers (nextTimer h) (delete id (timers h)) h) s))
  end.

Definition dispatch (ev : Event) (s : State) : State :=
  match ev with
  | EvTimer => fire s
  | EvIntersect t entries => host_run (observerCallback entries) (advance t s)
  | EvUnload => host_run destroy s
  end.

Definition run (evs : list Event) (s : State) : State :=
  foldl (λ s ev, dispatch ev s) s evs.

Inductive reachable (options : Options) (doc : list DomElement) (faulty : gset positive)
    : State → Prop :=
  | reach_boot : reachable options doc faulty (boot options doc faulty)
  | reach_step s ev :
      reachable options doc faulty s →
      reachable options doc faulty (dispatch ev s).

(** ** Reasoning about method bodies *)

(** [wp m Q E s]: started in [s], the body [m] either completes with a
    value and a state satisfying [Q], or throws in a state satisfying [E]. *)
Definition wp {A} (m : M A) (Q : A → State → Prop) (E : State → Prop) (s : State) : Prop :=
  match m s with
  | (Ok a, s') => Q a s'
  | (Throw _, s') => E s'
  end.

(** ** Invariants of the timer bookkeeping *)

(** Every handle in the host's timer table is in [timeoutIds], and the
    handles the host will hand out next are not in the table. *)
Record TInv (s : State) : Prop := mkTInv {
  inv_tracked : dom (timers (host s)) ⊆ timeoutIds (this s);
  inv_fresh : ∀ id, (nextTimer (host s) ≤ id)%positive → timers (host s) !! id = None;
}.

(** [clearTimeout] on every handle of [ids]. *)
Definition cancel_all (ids : gset positive) (s : State) : State :=
  upd_host (λ h, host_with_timers (nextTimer h)
                   (filter (λ kv, kv.1 ∉ ids) (timers h)) h) s.

(** The state [destroy] leaves behind. *)
Definition destroyed (s : State) : State :=
  upd_timeoutIds (λ _, ∅) (cancel_all (timeoutIds (this s)) s).

(** ** What each handler does, case by case *)

(** The effects of the primitives as state transformers. *)
Definition st_setTimeout (cb : Callback) (delay : N) (s : State) : State :=
  upd_host (host_with_timers (Pos.succ (nextTimer (host s)))
              (<[nextTimer (host s) := mkTimer (now (host s) + delay) cb]>
                 (timers (host s)))) s.

Definition st_write (e : positive) (kids : list Node) (s : State) : State :=
  upd_host (λ h, host_with_sinks (<[e := kids]> (sinks h)) h) s.

Definition st_append (e : positive) (n : Node) (s : State) : State :=
  upd_host (λ h, host_with_sinks (<[e := default [] (sinks h !! e) ++ [n]]> (sinks h)) h) s.

Definition st_track (id : positive) (s : State) : State :=
  upd_timeoutIds (λ ids, ids ∪ {[id]}) s.

Definition st_warn (msg : string) (s : State) : State :=
  upd_host (host_log Warn msg) s.

(** One round of the loop that arms the restart timers. *)
Definition arm_one (sl : list nat) (s : State) (si : nat) : State :=
  st_track (nextTimer (host s))
    (upd_elements (alter (with_loopTimeout (Some (nextTimer (host s)))) si)
       (st_setTimeout (CbLoopRestart si sl) (loopDelay (this s)) s)).

(** The typing branch, one character further. *)
Definition typed (i : nat) (sl : list nat) (it : Item) (e : positive) (c : N)
    (s : State) : State :=
  st_track (nextTimer (host s))
    (st_setTimeout (CbTypeText i sl) (typingSpeed (this s))
       (st_append e (SpanNode cursor_class (cursorChar (this s)))
          (st_write e (text_children (currentText it ++ [c]))
             (upd_elements (alter (with_currentText (currentText it ++ [c])) i) s)))).

Definition typeText_msg : string := "Typewriter animation error:".

(** The seven ways a call of [typeText] can go, with the state each one
    leaves. *)
Inductive typeText_outcome (i : nat) (sl : list nat) (s : State) : State → Prop :=
  | tto_dangling :
      elements (this s) !! i = None →
      typeText_outcome i sl s (st_warn typeText_msg s)
  | tto_skip it :
      elements (this s) !! i = Some it →
      isVisible it = false ∨ element it = None →
      typeText_outcome i sl s s
  | tto_type it e c :
      elements (this s) !! i = Some it →
      isVisible it = true → element it = Some e →
      fullText it !! length (currentText it) = Some c →
      e ∉ broken (host s) →
      typeText_outcome i sl s (typed i sl it e c s)
  | tto_type_throw it e c :
      elements (this s) !! i = Some it →
      isVisible it = true → element it = Some e →
      fullText it !! length (currentText it) = Some c →
      e ∈ broken (host s) →
      typeText_outcome i sl s
        (st_warn typeText_msg
           (upd_elements (alter (with_currentText (currentText it ++ [c])) i) s))
  | tto_done it e :
      elements (this s) !! i = Some it →
      isVisible it = true → element it = Some e →
      (length (fullText it) ≤ length (currentText it))%nat →
      e ∉ broken (host s) →
      all_done sl (elements (this s)) && negb (truthy (loopTimeout it)) = false →
      typeText_outcome i sl s (st_write e (text_children (fullText it)) s)
  | tto_arm it e :
      elements (this s) !! i = Some it →
      isVisible it = true → element it = Some e →
      (length (fullText it) ≤ length (currentText it))%nat →
      e ∉ broken (host s) →
      all_done sl (elements (this s)) = true → loopTimeout it = None →
      typeText_outcome i sl s
        (foldl (arm_one sl) (st_write e (text_children (fullText it)) s) sl)
  | tto_done_throw it e :
      elements (this s) !! i = Some it →
      isVisible it = true → element it = Some e →
      (length (fullText it) ≤ length (currentText it))%nat →
      e ∈ broken (host s) →
      typeText_outcome i sl s (st_warn typeText_msg s).

(** The restart closure on a healthy sink. *)
Definition restarted (si : nat) (sl : list nat) (it : Item) (e : positive)
    (s : State) : State :=
  st_track (nextTimer (host s))
    (st_setTimeout (CbTypeText si sl) (N.of_nat (staggerIndex it) * staggerDelay (this s))
       (upd_elements (alter (with_loopTimeout None) si)
          (st_write e []
             (upd_elements (alter (with_currentText []) si) s)))).

Inductive loopRestart_outcome (si : nat) (sl : list nat) (s : State)
    : Res unit → State → Prop :=
  | lro_dangling :
      elements (this s) !! si = None →
      loopRestart_outcome si sl s (Throw type_error) s
  | lro_ok it e :
      elements (this s) !! si = Some it →
      element it = Some e → e ∉ broken (host s) →
      loopRestart_outcome si sl s (Ok tt) (restarted si sl it e s)
  | lro_throw it err :
      elements (this s) !! si = Some it →
      element it = None ∨ (∃ e, element it = Some e ∧ e ∈ broken (host s)) →
      loopRestart_outcome si sl s (Throw err)
        (upd_elements (alter (with_currentText []) si) s).

Definition start_msg : string := "Error starting typewriter item:".

(** [if (!item.isVisible) item.isVisible = true] *)
Definition shown (i : nat) (it : Item) (s : State) : State :=
  if negb (isVisible it) then upd_elements (alter (with_isVisible true) i) s else s.

(** One item of a triggered slide, on a healthy sink. *)
Definition reset_and_start (i : nat) (sl : list nat) (it : Item) (e : positive)
    (s : State) : State :=
  st_track (nextTimer (host s))
    (st_setTimeout (CbTypeText i sl) (N.of_nat (staggerIndex it) * staggerDelay (this s))
       (st_write e [] (upd_elements (alter (with_currentText []) i) s))).

Definition started (i : nat) (sl : list nat) (it : Item) (e : positive)
    (s : State) : State :=
  reset_and_start i sl it e (shown i it s).

Inductive startItem_outcome (sl : list nat) (i : nat) (s : State) : State → Prop :=
  | sio_dangling :
      elements (this s) !! i = None →
      startItem_outcome sl i s (st_warn start_msg s)
  | sio_ok it e :
      elements (this s) !! i = Some it →
      element it = Some e → e ∉ broken (host s) →
      startItem_outcome sl i s (started i sl it e s)
  | sio_throw it :
      elements (this s) !! i = Some it →
      element it = None ∨ (∃ e, element it = Some e ∧ e ∈ broken (host s)) →
      startItem_outcome sl i s
        (st_warn start_msg
           (upd_elements (alter (with_currentText []) i) (shown i it s))).

Inductive clearLoop_outcome (i : nat) (s : State) : Res unit → State → Prop :=
  | clo_dangling :
      elements (this s) !! i = None →
      clearLoop_outcome i s (Throw type_error) s
  | clo_clear it id :
      elements (this s) !! i = Some it → loopTimeout it = Some id →
      clearLoop_outcome i s (Ok tt)
        (upd_timeoutIds (λ ids, ids ∖ {[id]})
           (upd_host (λ h, host_with_timers (nextTimer h) (delete id (timers h)) h) s))
  | clo_none it :
      elements (this s) !! i = Some it → loopTimeout it = None →
      clearLoop_outcome i s (Ok tt) s.

(** ** The event loop, case by case *)

(** The state a timer callback starts from: its entry is gone from the
    table and the clock stands at its due time. *)
Definition untimed (id : positive) (s : State) : State :=
  upd_host (λ h, host_with_timers (nextTimer h) (delete id (timers h)) h) s.

Definition taken (id : positive) (tm : Timer) (s : State) : State :=
  advance (due tm) (untimed id s).

Definition settle (r : Res unit) (s : State) : State :=
  match r with
  | Ok _ => s
  | Throw e => upd_host (host_log Uncaught e) s
  end.

(** A loop body applied to the items of a list in turn. *)
Inductive chain {A} (R : A → State → State → Prop) : list A → State → State → Prop :=
  | chain_nil s : chain R [] s s
  | chain_cons x l s s1 s2 :
      R x s s1 → chain R l s1 s2 → chain R (x :: l) s s2.

(** Predicates kept by every handler. *)
Record stable (P : State → Prop) : Prop := mkStable {
  st_typeText : ∀ i sl s s', P s → typeText_outcome i sl s s' → P s';
  st_loopRestart : ∀ si sl s r s', P s → loopRestart_outcome si sl s r s' → P s';
  st_startItem : ∀ sl i s s', P s → startItem_outcome sl i s s' → P s';
  st_clearLoop : ∀ i s r s', P s → clearLoop_outcome i s r s' → P s';
  st_log : ∀ l msg s, P s → P (upd_host (host_log l msg) s);
  st_advance : ∀ t s, P s → P (advance t s);
  st_untimed : ∀ id s, P s → P (untimed id s);
  st_destroyed : ∀ s, P s → P (destroyed s);
}.

(** ** Invariants of the tracked items *)

(** A tracking object stems from an element of the page with a non-empty
    directive, and what it has revealed is a prefix of the full text. *)
Definition item_ok (doc : list DomElement) (it : Item) : Prop :=
  currentText it `prefix_of` fullText it ∧
  fullText it ≠ [] ∧
  ∃ el, el ∈ doc ∧ element it = Some (el_id el) ∧
        fullText it = data_typewriter el ∧
        or_else (closest_slide el) (closest_topic el) = Some (slideElement it).

Definition EInv (doc : list DomElement) (s : State) : Prop :=
  ∀ i it, elements (this s) !! i = Some it → item_ok doc it.

(** Every handle an item remembers has been handed out by the host. *)
Definition HInv (s : State) : Prop :=
  ∀ i it h, elements (this s) !! i = Some it → loopTimeout it = Some h →
            (h < nextTimer (host s))%positive.

(** ** Handlers that only schedule *)

(** [s'] differs from [s] on the timer side only by fresh handles. *)
Definition extends (s s' : State) : Prop :=
  (nextTimer (host s) ≤ nextTimer (host s'))%positive ∧
  ∀ h, (h < nextTimer (host s))%positive →
       timers (host s') !! h = timers (host s) !! h ∧
       (h ∈ timeoutIds (this s') ↔ h ∈ timeoutIds (this s)).

(** ** The scenario of the specification: one slide, "Hi" and "Yo" *)

Module Scenario.
Definition options : Options :=
  mkOptions (Some 10) None None (Some 5) (Some 100) None.

Definition slide : positive := 1.
Definition el0 : positive := 11.
Definition el1 : positive := 12.

Definition doc : list DomElement :=
  [ mkDomElement el0 (js "Hi") (Some slide) None [TextNode (js "Hi")];
    mkDomElement el1 (js "Yo") (Some slide) None [TextNode (js "Yo")] ].

Definition s0 : State := boot options doc ∅.

(** The slide enters the viewport at [t]. *)
Definition visible_at (t : N) : Event := EvIntersect t [(slide, true)].

End Scenario.

(** The bookkeeping the specification asks for: [timeoutIds] is exactly the
    set of pending handles. *)
Definition handles_exact (s : State) : Prop :=
  timeoutIds (this s) = dom (timers (host s)).

(** The sink a pending timer will write to. *)
Definition timer_sink (s : State) (tm : Timer) : option positive :=
  match callback tm with
  | CbTypeText i _ | CbLoopRestart i _ => elements (this s) !! i ≫= element
  end.

(** A sink no tracked item points to keeps its children. *)
Definition untouched (doc : list DomElement) (e0 : positive) (kids : list Node)
    (s : State) : Prop :=
  EInv doc s ∧ sinks (host s) !! e0 = Some kids.

Module EmptyDirective.
(** A slide with a blank directive between two real ones. *)
Definition blank : DomElement :=
  mkDomElement 12 [] (Some 1%positive) None [TextNode (js "...")].

Definition doc : list DomElement :=
  [ mkDomElement 11 (js "Hi") (Some 1%positive) None [];
    blank;
    mkDomElement 13 (js "Yo") (Some 1%positive) None [] ].

Definition s : State :=
  run [EvIntersect 0 [(1%positive, true)]; EvTimer; EvTimer]
      (boot Scenario.options doc ∅).
End EmptyDirective.

(** ** What the sinks show *)

(** While typing: the revealed prefix as text, then the cursor [span]. *)
Definition typing_write (s : State) (e : positive) (kids : list Node) : Prop :=
  ∃ i it, elements (this s) !! i = Some it ∧ element it = Some e ∧
    currentText it `prefix_of` fullText it ∧
    kids = [TextNode (currentText it); SpanNode cursor_class (cursorChar (this s))].

(** On completion: the full text as text, no cursor. *)
Definition final_write (s : State) (e : positive) (kids : list Node) : Prop :=
  ∃ i it, elements (this s) !! i = Some it ∧ element it = Some e ∧
    kids = [TextNode (fullText it)].

(** The output contract as the specification words it. *)
Definition write_contract (s' : State) (e : positive) (kids : list Node) : Prop :=
  typing_write s' e kids ∨ final_write s' e kids.

(** The restart closure and the observer only ever clear a sink. *)
Definition cleared_only (s s' : State) : Prop :=
  ∀ e kids, sinks (host s') !! e = Some kids →
            sinks (host s) !! e = Some kids ∨ kids = [].

(** ** A visibility trigger stays inside its slide *)

(** Items of other slides keep their state, and every timer that is new
    types an item of the triggered slide. *)
Definition within_slide (target : positive) (s a : State) : Prop :=
  (∀ j it, elements (this s) !! j = Some it → slideElement it ≠ target →
           elements (this a) !! j = Some it) ∧
  (∀ id tm, timers (host a) !! id = Some tm →
     timers (host s) !! id = Some tm ∨
     ∃ i it, callback tm = CbTypeText i (slide_items target (elements (this s))) ∧
             elements (this s) !! i = Some it ∧ slideElement it = target).

Module TwoSlides.
Definition doc : list DomElement :=
  [ mkDomElement 11 (js "Hi") (Some 1%positive) None [];
    mkDomElement 21 (js "Yo") None (Some 2%positive) [] ].

(** The second slide is in the middle of typing when the first enters. *)
Definition s : State :=
  run [EvIntersect 0 [(2%positive, true)]; EvTimer] (boot Scenario.options doc ∅).
End TwoSlides.

(** ** A visibility trigger, item by item *)

(** The item after the reset of [startItem]. *)
Definition restart_item (it : Item) : Item :=
  with_currentText [] (with_isVisible true it).

(** The item of the slide at index [i] has been reset, shown and given a
    start timer (if its sink takes writes). *)
Definition restarted_ok (sl : list nat) (now0 stagger : N) (faulty : gset positive)
    (it : Item) (i : nat) (a : State) : Prop :=
  ∃ it', elements (this a) !! i = Some it' ∧
    currentText it' = [] ∧ isVisible it' = true ∧
    ∀ e, element it = Some e → e ∉ faulty →
      sinks (host a) !! e = Some [] ∧
      ∃ id, (id < nextTimer (host a))%positive ∧
        timers (host a) !! id
          = Some (mkTimer (now0 + N.of_nat (staggerIndex it) * stagger) (CbTypeText i sl)) ∧
        id ∈ timeoutIds (this a).

(** What the start loop never changes. *)
Definition start_frame (s a : State) : Prop :=
  now (host a) = now (host s) ∧
  staggerDelay (this a) = staggerDelay (this s) ∧
  broken (host a) = broken (host s) ∧
  ∀ j it, elements (this s) !! j = Some it →
    ∃ it', elements (this a) !! j = Some it' ∧
           element it' = element it ∧ staggerIndex it' = staggerIndex it.

(** The clearing loop: what it keeps and what it cancels. *)
Definition cleared (s : State) (done : list nat) (a : State) : Prop :=
  elements (this a) = elements (this s) ∧
  nextTimer (host a) = nextTimer (host s) ∧
  now (host a) = now (host s) ∧
  staggerDelay (this a) = staggerDelay (this s) ∧
  broken (host a) = broken (host s) ∧
  ∀ i it h, i ∈ done → elements (this s) !! i = Some it → loopTimeout it = Some h →
            timers (host a) !! h = None ∧ h ∉ timeoutIds (this a).

(** ** The timeline of the scenario *)

(** The host fires pending timers one after the other; the clock reading
    at which a condition on the page first holds. *)
Fixpoint first_time (P : State → bool) (fuel : nat) (s : State) : option N :=
  if P s then Some (now (host s))
  else match fuel with
       | O => None
       | S n => first_time P n (fire s)
       end.

(** Due times of the pending restart timers of item [i]. *)
Definition loop_due (s : State) (i : nat) : list N :=
  omap (λ kv, match callback kv.2 with
              | CbLoopRestart j _ => if decide (j = i) then Some (due kv.2) else None
              | CbTypeText _ _ => None
              end) (map_to_list (timers (host s))).

(** Due times of the pending [typeText] timers of item [i]. *)
Definition type_due (s : State) (i : nat) : list N :=
  omap (λ kv, match callback kv.2 with
              | CbTypeText j _ => if decide (j = i) then Some (due kv.2) else None
              | CbLoopRestart _ _ => None
              end) (map_to_list (timers (host s))).

Definition sink_is (e : positive) (kids : list Node) (s : State) : bool :=
  bool_decide (sinks (host s) !! e = Some kids).

Definition typing (text : string) : list Node :=
  [TextNode (js text); SpanNode cursor_class full_block].

Definition complete (text : string) : list Node := [TextNode (js text)].

Definition loops_armed (s : State) : bool :=
  bool_decide (loop_due s 0 ≠ [] ∧ loop_due s 1 ≠ []).

Definition restarted_both (s : State) : bool :=
  bool_decide (loop_due s 0 = [] ∧ loop_due s 1 = [] ∧
               (120 ≤ now (host s)) ∧ type_due s 0 ≠ [] ∧ type_due s 1 ≠ []).

(** The first state along the run in which [P] holds. *)
Fixpoint first_state (P : State → bool) (fuel : nat) (s : State) : option State :=
  if P s then Some s
  else match fuel with
       | O => None
       | S n => first_state P n (fire s)
       end.

(** The timeline of the specification, read off the run that starts when
    the slide becomes visible at [t = 0]. *)
Definition spec_timeline (s : State) : Prop :=
  first_time (sink_is Scenario.el0 (typing "H")) 20 s = Some 5 ∧
  first_time (sink_is Scenario.el1 (typing "Y")) 20 s = Some 10 ∧
  first_time (sink_is Scenario.el0 (complete "Hi")) 20 s = Some 15 ∧
  first_time (sink_is Scenario.el1 (complete "Yo")) 20 s = Some 20 ∧
  (∃ a, first_state loops_armed 20 s = Some a ∧
        loop_due a 0 = [120] ∧ loop_due a 1 = [120]) ∧
  (∃ b, first_state restarted_both 20 s = Some b ∧
        type_due b 0 = [120] ∧ type_due b 1 = [125]).

(** The timeline the class produces. *)
Definition code_timeline (s : State) : Prop :=
  first_time (sink_is Scenario.el0 (typing "H")) 20 s = Some 0 ∧
  first_time (sink_is Scenario.el1 (typing "Y")) 20 s = Some 5 ∧
  first_time (sink_is Scenario.el0 (typing "Hi")) 20 s = Some 10 ∧
  first_time (sink_is Scenario.el1 (typing "Yo")) 20 s = Some 15 ∧
  first_time (sink_is Scenario.el0 (complete "Hi")) 20 s = Some 20 ∧
  first_time (sink_is Scenario.el1 (complete "Yo")) 20 s = Some 25 ∧
  (∃ a, first_state loops_armed 20 s = Some a ∧ now (host a) = 20 ∧
        loop_due a 0 = [120] ∧ loop_due a 1 = [120]) ∧
  (∃ b, first_state restarted_both 20 s = Some b ∧ now (host b) = 120 ∧
        type_due b 0 = [120] ∧ type_due b 1 = [125]).

(** ** Re-entering visibility while a restart is pending *)

Module Reentry.
(** The slide is typed in full, its restart timers are armed (due at 120);
    at [t = 50] the slide is reported as intersecting again. *)
Definition armed : State :=
  run [Scenario.visible_at 0; EvTimer; EvTimer; EvTimer; EvTimer; EvTimer; EvTimer]
      Scenario.s0.

Definition retriggered : State := dispatch (Scenario.visible_at 50) armed.

(** The second cycle runs until the host has no timer left. *)
Definition finished : State :=
  run [EvTimer; EvTimer; EvTimer; EvTimer; EvTimer; EvTimer] retriggered.
End Reentry.

(** ** Restart timers and the handles the items remember *)

(** One step of the scan of [next_timer]: the earlier of the candidate and
    the best so far. *)
Definition pick (x : positive * Timer) (acc : option (positive * Timer)) :=
  match acc with
  | Some y => if earlier y x then Some y else Some x
  | None => Some x
  end.

(** The items of a slide, from the list of the items' slides. *)
Definition grp (sk : list positive) (target : positive) : list nat :=
  filter (λ i, sk !! i = Some target) (seq 0 (length sk)).

(** A callback closes over an item and the [slideItems] of that item's
    slide. *)
Definition wf_cb (sk : list positive) (cb : Callback) : Prop :=
  match cb with
  | CbTypeText i sl | CbLoopRestart i sl =>
      ∃ target, sk !! i = Some target ∧ sl = grp sk target
  end.

(** The invariant on the pending timers [ts], the clock, the items'
    [loopTimeout] fields [hs] and the items' slides [sk]:
    - every callback is well formed;
    - a pending restart timer is the one its item remembers;
    - if an item of a slide has already been restarted (its field is
      [null]) while a restart timer of the same round is pending, that
      timer is due and runs before any [typeText] step of the item;
    - the restart timers of one round have one due time and nothing but
      restart timers was created between them. *)
Record LInvV (ts : gmap positive Timer) (now : N) (hs : list (option positive))
    (sk : list positive) : Prop := mkLInvV {
  lv_wf : ∀ id tm, ts !! id = Some tm → wf_cb sk (callback tm);
  lv_tracked : ∀ id tm si sl,
    ts !! id = Some tm → callback tm = CbLoopRestart si sl → hs !! si = Some (Some id);
  lv_fired : ∀ id tm si sl j,
    ts !! id = Some tm → callback tm = CbLoopRestart si sl →
    j ∈ sl → hs !! j = Some None →
    due tm ≤ now ∧
    ∀ id' tm' sl', ts !! id' = Some tm' → callback tm' = CbTypeText j sl' →
                   earlier (id, tm) (id', tm') = true;
  lv_batch : ∀ id1 tm1 s1 id2 tm2 s2 sl,
    ts !! id1 = Some tm1 → ts !! id2 = Some tm2 →
    callback tm1 = CbLoopRestart s1 sl → callback tm2 = CbLoopRestart s2 sl →
    due tm1 = due tm2 ∧
    ∀ id' tm', (id1 < id')%positive → (id' < id2)%positive → ts !! id' = Some tm' →
               ∃ s' sl', callback tm' = CbLoopRestart s' sl';
}.

(** The timers and handles after arming the items of [l] one by one. *)
Record armed_batch (sl : list nat) (D : N) (ts : gmap positive Timer) (n : positive)
    (hs : list (option positive)) (l : list nat)
    (ts' : gmap positive Timer) (n' : positive) (hs' : list (option positive)) : Prop := {
  ab_next : (n ≤ n')%positive;
  ab_fresh : ∀ id tm, ts' !! id = Some tm → (id < n')%positive;
  ab_old : ∀ id tm, ts !! id = Some tm → ts' !! id = Some tm;
  ab_timers : ∀ id tm, ts' !! id = Some tm →
    ts !! id = Some tm ∨
    ((n ≤ id)%positive ∧ ∃ si, si ∈ l ∧ tm = mkTimer D (CbLoopRestart si sl) ∧
                                hs' !! si = Some (Some id));
  ab_other : ∀ j, j ∉ l → hs' !! j = hs !! j;
  ab_set : ∀ j, j ∈ l → ∃ h, hs' !! j = Some (Some h);
  ab_length : length hs' = length hs;
}.

(** The [loopTimeout] fields and the slides of the items, in order. *)
Definition handles (s : State) : list (option positive) :=
  loopTimeout <$> elements (this s).

Definition slides (s : State) : list positive :=
  slideElement <$> elements (this s).

(** Every pending handle was handed out before the next one. *)
Definition fresh (s : State) : Prop :=
  ∀ id tm, timers (host s) !! id = Some tm → (id < nextTimer (host s))%positive.

Definition LInv (s : State) : Prop :=
  LInvV (timers (host s)) (now (host s)) (handles s) (slides s).

(** No restart timer of the slide [target] is pending. *)
Definition no_loop (target : positive) (s : State) : Prop :=
  ∀ id tm si slL, timers (host s) !! id = Some tm →
    callback tm = CbLoopRestart si slL → slides s !! si ≠ Some target.

(** The clearing loop of the observer, as far as the restart timers go. *)
Definition loops_cleared (s : State) (done : list nat) (a : State) : Prop :=
  LInv a ∧ fresh a ∧ handles a = handles s ∧ slides a = slides s ∧
  ∀ i h, i ∈ done → handles s !! i = Some (Some h) → timers (host a) !! h = None.

(** The start loop keeps the invariant as long as no restart timer of the
    slide is pending. *)
Definition starting (target : positive) (s a : State) : Prop :=
  LInv a ∧ fresh a ∧ no_loop target a ∧ slides a = slides s.

(** ** [escapeHtml(text)] *)

(** The code units of [&], [<], [>], the double and the single quote. *)
Definition ch_amp : N := 38.

Definition ch_lt : N := 60.

Definition ch_gt : N := 62.

Definition ch_quot : N := 34.

Definition ch_apos : N := 39.

(** The object literal [map], keyed by one-character strings. *)
Definition escape_map : list (N * jsstring) :=
  [ (ch_amp, js "&amp;"); (ch_lt, js "&lt;"); (ch_gt, js "&gt;");
    (ch_quot, js "&quot;"); (ch_apos, js "&#039;") ].

(** [map[m]]; a key the object lacks gives [undefined], which [replace]
    turns into a string. *)
Definition map_get (m : list (N * jsstring)) (k : N) : jsstring :=
  match list_find (λ kv, kv.1 = k) m with
  | Some (_, kv) => kv.2
  | None => str_undefined
  end.

(** The character class of the regular expression. *)
Definition special (c : N) : bool :=
  bool_decide (c ∈ [ch_amp; ch_lt; ch_gt; ch_quot; ch_apos]).

(** [text.replace(re, f)] for a global pattern that is one character
    class: every match is replaced by what [f] returns for it. *)
Definition replace_class (cls : N → bool) (f : N → jsstring) (text : jsstring) : jsstring :=
  c ← text; if cls c then f c else [c].

Definition escapeHtml (text : jsstring) : jsstring :=
  replace_class special (map_get escape_map) text.

(** A text without any of the five characters. *)
Definition plain (text : jsstring) : Prop := ∀ c, c ∈ text → special c = false.

(** The five replacement strings. *)
Definition entities : list jsstring := escape_map.*2.

(** ** What no handler changes *)

(** What an event may do to a tracking object: only [currentText] and
    [loopTimeout] move freely, and [isVisible] is never taken back. *)
Definition keeps (a b : Item) : Prop :=
  element b = element a ∧ originalText b = originalText a ∧
  fullText b = fullText a ∧ isTyping b = isTyping a ∧
  slideElement b = slideElement a ∧ staggerIndex b = staggerIndex a ∧
  (isVisible a = true → isVisible b = true).

Definition items_kept (s0 s : State) : Prop :=
  Forall2 keeps (elements (this s0)) (elements (this s)).

(** The configuration of the instance and the parts of the host no handler
    writes. *)
Definition same_config (s0 s : State) : Prop :=
  typingSpeed (this s) = typingSpeed (this s0) ∧
  cursorChar (this s) = cursorChar (this s0) ∧
  pauseDuration (this s) = pauseDuration (this s0) ∧
  staggerDelay (this s) = staggerDelay (this s0) ∧
  loopDelay (this s) = loopDelay (this s0) ∧
  autoStart (this s) = autoStart (this s0) ∧
  activeSlide (this s) = activeSlide (this s0) ∧
  observing (host s) = observing (host s0) ∧
  broken (host s) = broken (host s0).

(** An event without an intersecting entry. *)
Definition quiet (ev : Event) : bool :=
  match ev with
  | EvIntersect _ entries => forallb (λ entry, negb entry.2) entries
  | _ => true
  end.

(** The sink of item [si] takes writes. *)
Definition healthy (si : nat) (s : State) : Prop :=
  ∃ it e, elements (this s) !! si = Some it ∧ element it = Some e ∧
          e ∉ broken (host s).

(** ** Typing timers survive a trigger *)

(** A handle an item remembers never names a pending [typeText] timer. *)
Definition KInv (s : State) : Prop :=
  ∀ i h tm, handles s !! i = Some (Some h) → timers (host s) !! h = Some tm →
            ∃ si sl, callback tm = CbLoopRestart si sl.

(** The three invariants on handles, kept together. *)
Definition K (s : State) : Prop := HInv s ∧ fresh s ∧ KInv s.

(** ** Registration, in document order *)

(** The container [init] groups an element by. *)
Definition container (el : DomElement) : option positive :=
  or_else (closest_slide el) (closest_topic el).

(** The matched elements of container [slide], in document order. *)
Definition members (slide : positive) (doc : list DomElement) : list DomElement :=
  filter (λ el, container el = Some slide) doc.

(** What [init] has grouped after the elements of [seen]. *)
Record grouped (seen : list DomElement) (groups : list (positive * list DomElement))
    : Prop := mkGrouped {
  gr_keys : NoDup groups.*1;
  gr_members : Forall (λ g, g.2 = members g.1 seen) groups;
  gr_all : ∀ el slide, el ∈ seen → container el = Some slide → slide ∈ groups.*1;
}.

(** ** What a sink shows *)

(** The sink of a tracked item holds the children the page delivered, or
    the revealed text, alone or followed by the cursor. *)
Definition shows (doc : list DomElement) (s : State) (it : Item) : Prop :=
  ∃ el, el ∈ doc ∧ element it = Some (el_id el) ∧
    (sinks (host s) !! el_id el = Some (el_children el) ∨
     sinks (host s) !! el_id el = Some (text_children (currentText it)) ∨
     sinks (host s) !! el_id el
       = Some (text_children (currentText it) ++
               [SpanNode cursor_class (cursorChar (this s))])).

(** A sink that rejects writes keeps what the page delivered, and every
    item's sink shows the item's state. *)
Definition DInv (doc : list DomElement) (s : State) : Prop :=
  (∀ el, el ∈ doc → el_id el ∈ broken (host s) →
         sinks (host s) !! el_id el = Some (el_children el)) ∧
  (∀ i it, elements (this s) !! i = Some it → shows doc s it).

(** No two items share a sink. *)
Definition distinct_sinks (s : State) : Prop :=
  ∀ i j it it', elements (this s) !! i = Some it → elements (this s) !! j = Some it' →
                element it = element it' → i = j.

Definition PInv (doc : list DomElement) (s0 s : State) : Prop :=
  items_kept s0 s ∧ EInv doc s ∧ DInv doc s.

(** ** The handle set, event by event *)

(** An event that can take handles out of [timeoutIds]: the page is
    unloaded, or the observer reports an intersecting slide. *)
Definition cancels (ev : Event) : bool :=
  match ev with
  | EvTimer => false
  | EvIntersect _ entries => existsb (λ entry, entry.2) entries
  | EvUnload => true
  end.

(** The handle [h] is the one an item of a slide reported as intersecting
    remembers in [loopTimeout]. *)
Definition remembered (entries : list (positive * bool)) (h : positive) (s : State) : Prop :=
  ∃ i it, elements (this s) !! i = Some it ∧ loopTimeout it = Some h ∧
          (slideElement it, true) ∈ entries.

(** The handle [h] was handed out and is neither pending nor in
    [timeoutIds]. *)
Definition gone (h : positive) (a : State) : Prop :=
  (h < nextTimer (host a))%positive ∧ (h ∉ timeoutIds (this a)) ∧
  timers (host a) !! h = None.

(** Every handle in [timeoutIds] has been handed out by the host. *)
Definition UInv (s : State) : Prop :=
  ∀ h, h ∈ timeoutIds (this s) → (h < nextTimer (host s))%positive.

(** The timers of [a] with a handle handed out before [s] are timers of
    [s]. *)
Definition older (s a : State) : Prop :=
  (nextTimer (host s) ≤ nextTimer (host a))%positive ∧
  ∀ h tm, (h < nextTimer (host s))%positive →
          timers (host a) !! h = Some tm → timers (host s) !! h = Some tm.

(** ** The revealed length, event by event *)

(** What an event does to the revealed text of one item. *)
Inductive Effect := EffReveal | EffReset | EffKeep.

#[global] Instance Effect_eq_dec : EqDecision Effect.
Proof. solve_decision. Defined.

(** The effect of [ev], arriving in state [s], on item [j]: a [typeText]
    timer of a visible item short of its full text reveals one code unit;
    the item's loop restart and a report of its slide as intersecting
    reset it; nothing else touches its text. *)
Definition effect (ev : Event) (s : State) (j : nat) : Effect :=
  match ev with
  | EvTimer =>
      match next_timer (timers (host s)) with
      | Some (_, tm) =>
          match callback tm with
          | CbTypeText i _ =>
              match elements (this s) !! j with
              | Some it =>
                  if bool_decide (i = j) && isVisible it
                     && bool_decide (length (currentText it) < length (fullText it))%nat
                  then EffReveal else EffKeep
              | None => EffKeep
              end
          | CbLoopRestart si _ => if bool_decide (si = j) then EffReset else EffKeep
          end
      | None => EffKeep
      end
  | EvIntersect _ entries =>
      match elements (this s) !! j with
      | Some it => if bool_decide ((slideElement it, true) ∈ entries) then EffReset else EffKeep
      | None => EffKeep
      end
  | EvUnload => EffKeep
  end.

(** The revealed length of item [j] after [ev], from the length before. *)
Definition apply_effect (e : Effect) (n : nat) : nat :=
  match e with EffReveal => S n | EffReset => 0 | EffKeep => n end.

(** The revealed length of item [j] along a run. *)
Fixpoint track_length (evs : list Event) (s : State) (j : nat) (n : nat) : nat :=
  match evs with
  | [] => n
  | ev :: evs' => track_length evs' (dispatch ev s) j (apply_effect (effect ev s j) n)
  end.

(** No event of the run resets item [j]. *)
Fixpoint no_reset (evs : list Event) (s : State) (j : nat) : bool :=
  match evs with
  | [] => true
  | ev :: evs' =>
      negb (bool_decide (effect ev s j = EffReset)) && no_reset evs' (dispatch ev s) j
  end.

(** The typing steps of item [j] in the run. *)
Fixpoint typing_steps (evs : list Event) (s : State) (j : nat) : nat :=
  match evs with
  | [] => 0
  | ev :: evs' =>
      (if bool_decide (effect ev s j = EffReveal) then 1 else 0)
      + typing_steps evs' (dispatch ev s) j
  end.

(** The revealed text of item [j], if there is such an item. *)
Definition revealed (s : State) (j : nat) : option jsstring :=
  currentText <$> elements (this s) !! j.

(** Item [j] after an event, given the item before. *)
Definition moved (e : Effect) (it it' : Item) : Prop :=
  fullText it' = fullText it ∧
  currentText it' = match e with
                    | EffReveal => take (S (length (currentText it))) (fullText it)
                    | EffReset => []
                    | EffKeep => currentText it
                    end.

(** ** The guard of a step, and a step that throws *)





(** A pending restart timer of [s'] that was not pending in [s]. *)
Definition armed (s s' : State) (si : nat) (sl : list nat) : Prop :=
  ∃ id tm, timers (host s') !! id = Some tm ∧ callback tm = CbLoopRestart si sl ∧
           timers (host s) !! id ≠ Some tm.




(** ** Sink writes, by occasion *)

(** What the event [ev], arriving in state [s], writes to the sink [e]:
    - a typing step of a visible item short of its full text writes the
      revealed text, one character longer, and the cursor;
    - a step of a visible item that has all its text writes the full text
      alone;
    - a loop restart empties the sink of its item;
    - a visibility report empties the sinks of the items of the slides
      reported as intersecting. *)
Inductive written (s : State) : Event → positive → list Node → Prop :=
  | w_typing id tm i sl it e c :
      next_timer (timers (host s)) = Some (id, tm) →
      callback tm = CbTypeText i sl →
      elements (this s) !! i = Some it →
      isVisible it = true → element it = Some e →
      fullText it !! length (currentText it) = Some c →
      written s EvTimer e
        [TextNode (currentText it ++ [c]); SpanNode cursor_class (cursorChar (this s))]
  | w_final id tm i sl it e :
      next_timer (timers (host s)) = Some (id, tm) →
      callback tm = CbTypeText i sl →
      elements (this s) !! i = Some it →
      isVisible it = true → element it = Some e →
      (length (fullText it) ≤ length (currentText it))%nat →
      written s EvTimer e [TextNode (fullText it)]
  | w_restart id tm si sl it e :
      next_timer (timers (host s)) = Some (id, tm) →
      callback tm = CbLoopRestart si sl →
      elements (this s) !! si = Some it → element it = Some e →
      written s EvTimer e []
  | w_trigger t entries i it e :
      elements (this s) !! i = Some it → element it = Some e →
      (slideElement it, true) ∈ entries →
      written s (EvIntersect t entries) e [].

(** The sinks of [a] are those of [s] but for emptied sinks of items of
    the slides in [T]. *)
Definition emptied (T : positive → Prop) (s a : State) : Prop :=
  items_kept s a ∧
  ∀ e kids, sinks (host a) !! e = Some kids →
    sinks (host s) !! e = Some kids ∨
    (kids = [] ∧ ∃ i it, elements (this s) !! i = Some it ∧ element it = Some e ∧
                         T (slideElement it)).

(** ** The slideshow: dots and arrows

    [initSlideshow] of slideshow.js. JavaScript numbers are IEEE 754
    doubles. What layout reports (rectangles, scroll offsets) is an input:
    the readings of one handler run are those of one frame. *)
Module Slideshow.
Import PrimFloat.

(** [Math.min] and [Math.max] of two numbers: [NaN] is contagious, and
    [-0] counts as smaller than [+0]. *)
Definition js_min (a b : float) : float :=
  if is_nan a || is_nan b then nan
  else if (a <? b)%float then a
  else if (b <? a)%float then b
  else if get_sign a then a else b.

Definition js_max (a b : float) : float :=
  if is_nan a || is_nan b then nan
  else if (a <? b)%float then b
  else if (b <? a)%float then a
  else if get_sign a then b else a.

(** The fields of a [DOMRect] the code reads. *)
Record Rect := mkRect { left : float; right : float; width : float }.

Record Layout := mkLayout {
  getBoundingClientRect : positive → Rect;
  scrollLeft : positive → float;
  scrollWidth : positive → float;
  clientWidth : positive → float;
}.

(** A dot button; [scrollsTo] is the slide its click listener scrolls
    into view. *)
Record Dot := mkDot {
  type : string;
  classList : list string;
  ariaLabel : string;
  scrollsTo : positive;
}.

(** The constants the inner functions close over. *)
Record Closure := mkClosure {
  slider : positive;
  dotsContainer : positive;
  prevBtn : positive;
  nextBtn : positive;
  slides : list positive;
}.

Inductive ScrollRequest :=
  | ScrollBy (el : positive) (by_left : float)
  | ScrollIntoView (el : positive).

Inductive Handler :=
  | ScrollByPage (c : Closure) (direction : float)
  | RequestFrame (c : Closure)
  | UpdateDots (c : Closure).

(** A registered listener; the target [None] is [window]. *)
Record Listener := mkListener {
  target : option positive;
  event : string;
  handler : Handler;
}.

Record Page := mkPage {
  byId : gmap string positive;
  slidesIn : gmap positive (list positive);
  dotsIn : gmap positive (list Dot);
  disabled : gmap positive bool;
  listeners : list Listener;
  frames : list Closure;
  scrolls : list ScrollRequest;
  layout : Layout;
}.

Definition with_dots (el : positive) (dots : list Dot) (p : Page) : Page :=
  mkPage (byId p) (slidesIn p) (<[el := dots]> (dotsIn p)) (disabled p)
         (listeners p) (frames p) (scrolls p) (layout p).

Definition set_disabled (el : positive) (v : bool) (p : Page) : Page :=
  mkPage (byId p) (slidesIn p) (dotsIn p) (<[el := v]> (disabled p))
         (listeners p) (frames p) (scrolls p) (layout p).

Definition add_listeners (ls : list Listener) (p : Page) : Page :=
  mkPage (byId p) (slidesIn p) (dotsIn p) (disabled p)
         (listeners p ++ ls) (frames p) (scrolls p) (layout p).

Definition add_frame (c : Closure) (p : Page) : Page :=
  mkPage (byId p) (slidesIn p) (dotsIn p) (disabled p)
         (listeners p) (frames p ++ [c]) (scrolls p) (layout p).

Definition add_scroll (r : ScrollRequest) (p : Page) : Page :=
  mkPage (byId p) (slidesIn p) (dotsIn p) (disabled p)
         (listeners p) (frames p) (scrolls p ++ [r]) (layout p).

(** [classList.toggle(token, force)] *)
Definition toggle (token : string) (force : bool) (d : Dot) : Dot :=
  mkDot (type d)
        (if force then
           if decide (token ∈ classList d) then classList d else classList d ++ [token]
         else filter (λ t, t ≠ token) (classList d))
        (ariaLabel d) (scrollsTo d).

(** At least half of the slide's width lies inside the slider. *)
Definition isVisible (sliderRect rect : Rect) : bool :=
  let visibleWidth :=
    (js_min (right rect) (right sliderRect) - js_max (left rect) (left sliderRect))%float in
  let ratio := (visibleWidth / width rect)%float in
  (0.5 <=? ratio)%float.

(** The first loop of [updateDots]; [dots[index]] may be [undefined]. *)
Fixpoint markVisible (lay : Layout) (sliderRect : Rect) (slides : list positive)
    (index : nat) (dots : list Dot) (anyActive : bool) : Res bool * list Dot :=
  match slides with
  | [] => (Ok anyActive, dots)
  | slide :: rest =>
      let v := isVisible sliderRect (getBoundingClientRect lay slide) in
      match dots !! index with
      | None => (Throw type_error, dots)
      | Some dot =>
          markVisible lay sliderRect rest (S index)
            (<[index := toggle "active" v dot]> dots) (anyActive || v)
      end
  end.

Definition distance (sliderCenter : float) (rect : Rect) : float :=
  abs (sliderCenter - (left rect + width rect / 2))%float.

(** The fallback loop: the slide whose centre is nearest to the slider's. *)
Fixpoint closest (lay : Layout) (sliderCenter : float) (slides : list positive)
    (index closestIndex : nat) (smallestDistance : float) : nat :=
  match slides with
  | [] => closestIndex
  | slide :: rest =>
      let d := distance sliderCenter (getBoundingClientRect lay slide) in
      if (d <? smallestDistance)%float
      then closest lay sliderCenter rest (S index) index d
      else closest lay sliderCenter rest (S index) closestIndex smallestDistance
  end.

(** The last three statements of [updateDots]: the arrows. *)
Definition arrows (c : Closure) (p : Page) : Page :=
  let lay := layout p in
  let maxScrollLeft :=
    js_max 0 (scrollWidth lay (slider c) - clientWidth lay (slider c) - 4)%float in
  set_disabled (nextBtn c) (maxScrollLeft <=? scrollLeft lay (slider c))%float
    (set_disabled (prevBtn c) (scrollLeft lay (slider c) <=? 4)%float p).

Definition updateDots (c : Closure) (p : Page) : Res unit * Page :=
  let lay := layout p in
  let sliderRect := getBoundingClientRect lay (slider c) in
  let dots := default [] (dotsIn p !! dotsContainer c) in
  match markVisible lay sliderRect (slides c) 0 dots false with
  | (Throw e, dots1) => (Throw e, with_dots (dotsContainer c) dots1 p)
  | (Ok anyActive, dots1) =>
      let dots2 :=
        if anyActive then dots1
        else
          let sliderCenter := (left sliderRect + width sliderRect / 2)%float in
          let closestIndex := closest lay sliderCenter (slides c) 0 0 infinity in
          imap (λ index dot, toggle "active" (bool_decide (index = closestIndex)) dot)
               dots1 in
      (Ok tt, arrows c (with_dots (dotsContainer c) dots2 p))
  end.

Definition scrollByPage (c : Closure) (direction : float) (p : Page) : Page :=
  let distance := (clientWidth (layout p) (slider c) * 0.9)%float in
  add_scroll (ScrollBy (slider c) (direction * distance)%float) p.

Definition run_handler (h : Handler) (p : Page) : Res unit * Page :=
  match h with
  | ScrollByPage c direction => (Ok tt, scrollByPage c direction p)
  | RequestFrame c => (Ok tt, add_frame c p)
  | UpdateDots c => updateDots c p
  end.

(** The argument object of [initSlideshow]. *)
Record Ids := mkIds {
  sliderId : string;
  dotsId : string;
  prevId : string;
  nextId : string;
}.

Definition label (index : nat) : string :=
  "Karte " +:+ pretty (index + 1)%nat +:+ " anzeigen".

Definition newDot (index : nat) (slide : positive) : Dot :=
  mkDot "button" ["slideshow__dot"] (label index) slide.

(** The four [addEventListener] calls on the arrows, the slider and the
    window. *)
Definition wiring (c : Closure) : list Listener :=
  [ mkListener (Some (prevBtn c)) "click" (ScrollByPage c (-1));
    mkListener (Some (nextBtn c)) "click" (ScrollByPage c 1);
    mkListener (Some (slider c)) "scroll" (RequestFrame c);
    mkListener None "resize" (UpdateDots c) ].

Definition initSlideshow (ids : Ids) (p : Page) : Res unit * Page :=
  match byId p !! sliderId ids, byId p !! dotsId ids,
        byId p !! prevId ids, byId p !! nextId ids with
  | Some slider, Some dotsContainer, Some prevBtn, Some nextBtn =>
      match default [] (slidesIn p !! slider) with
      | [] => (Ok tt, p)
      | slides =>
          let c := mkClosure slider dotsContainer prevBtn nextBtn slides in
          updateDots c
            (add_listeners (wiring c) (with_dots dotsContainer (imap newDot slides) p))
      end
  | _, _, _, _ => (Ok tt, p)
  end.

(** The dot carries the class [active]. *)
Definition active (d : Dot) : Prop := "active"%string ∈ classList d.

(** Slide [slide] as [updateDots] sees it in the layout of [p]. *)
Definition halfVisible (c : Closure) (p : Page) (slide : positive) : bool :=
  isVisible (getBoundingClientRect (layout p) (slider c))
            (getBoundingClientRect (layout p) slide).

(** The dots after the first loop, one by one. *)
Definition marked_at (lay : Layout) (sliderRect : Rect) (sl : list positive)
    (index : nat) (dots : list Dot) (k : nat) : option Dot :=
  if decide (index ≤ k)%nat then
    match sl !! (k - index)%nat with
    | Some slide =>
        toggle "active" (isVisible sliderRect (getBoundingClientRect lay slide)) <$> dots !! k
    | None => dots !! k
    end
  else dots !! k.

(** The dots [updateDots] finds in the container. *)
Definition dotsOf (c : Closure) (p : Page) : list Dot :=
  default [] (dotsIn p !! dotsContainer c).

(** The index the fallback loop of [updateDots] settles on. *)
Definition nearest (c : Closure) (p : Page) : nat :=
  let sliderRect := getBoundingClientRect (layout p) (slider c) in
  closest (layout p) (left sliderRect + width sliderRect / 2)%float (slides c) 0 0 infinity.

(** Dot [k] when [updateDots] is through. *)
Definition final_at (c : Closure) (p : Page) (k : nat) : option Dot :=
  (if existsb (halfVisible c p) (slides c) then id
   else toggle "active" (bool_decide (k = nearest c p)))
  <$> marked_at (layout p) (getBoundingClientRect (layout p) (slider c)) (slides c) 0
                (dotsOf c p) k.

(** *** The page at work

    What the host delivers: clicks, scroll and resize events, animation
    frames, and new layout readings. *)
Inductive PageEvent :=
  | Click (el : positive)
  | ClickDot (container : positive) (index : nat)
  | Scroll (el : positive)
  | Resize
  | Frame
  | Relayout (lay : Layout).

Definition with_layout (lay : Layout) (p : Page) : Page :=
  mkPage (byId p) (slidesIn p) (dotsIn p) (disabled p)
         (listeners p) (frames p) (scrolls p) lay.

Definition clear_frames (p : Page) : Page :=
  mkPage (byId p) (slidesIn p) (dotsIn p) (disabled p)
         (listeners p) [] (scrolls p) (layout p).

(** The listeners registered for [ev] on [tg] run in registration order;
    one that throws is reported by the host and the next one runs. *)
Definition deliver (tg : option positive) (ev : string) (p : Page) : Page :=
  foldl (λ q l, (run_handler (handler l) q).2) p
        (filter (λ l, target l = tg ∧ event l = ev) (listeners p)).

Definition handle (ev : PageEvent) (p : Page) : Page :=
  match ev with
  | Click el => deliver (Some el) "click" p
  | ClickDot container index =>
      match dotsIn p !! container ≫= (λ dots, dots !! index) with
      | Some dot => add_scroll (ScrollIntoView (scrollsTo dot)) p
      | None => p
      end
  | Scroll el => deliver (Some el) "scroll" p
  | Resize => deliver None "resize" p
  | Frame => foldl (λ q c, (updateDots c q).2) (clear_frames p) (frames p)
  | Relayout lay => with_layout lay p
  end.

(** The slideshow of closure [c] is wired up and intact: one dot per
    slide, as [initSlideshow] made it, and at least one of them marked. *)
Record intact (c : Closure) (q : Page) : Prop := mkIntact {
  in_listeners : listeners q = wiring c;
  in_frames : Forall (λ c', c' = c) (frames q);
  in_length : length (dotsOf c q) = length (slides c);
  in_dots : ∀ k slide, slides c !! k = Some slide →
    ∃ d, dotsOf c q !! k = Some d ∧ type d = "button"%string ∧
         "slideshow__dot"%string ∈ classList d ∧
         ariaLabel d = label k ∧ scrollsTo d = slide;
  in_active : ∃ k d, dotsOf c q !! k = Some d ∧ active d;
}.

(** Scrolling by 100 to the right, as layout reports it afterwards. *)
Definition scrolled_layout : Layout :=
  mkLayout (λ el, if decide (el = 1%positive) then mkRect 0 300 300
                  else if decide (el = 11%positive) then mkRect (-100) 100 200
                  else if decide (el = 12%positive) then mkRect 100 300 200
                  else if decide (el = 13%positive) then mkRect 300 500 200
                  else mkRect 0 0 0)
           (λ _, 100%float) (λ _, 600%float) (λ _, 300%float).

(** A page with a slider of three cards, 200 wide each, scrolled to the
    start; the slider is [w] wide. *)
Definition deck_layout (w : float) : Layout :=
  mkLayout (λ el, if decide (el = 1%positive) then mkRect 0 w w
                  else if decide (el = 11%positive) then mkRect 0 200 200
                  else if decide (el = 12%positive) then mkRect 200 400 200
                  else if decide (el = 13%positive) then mkRect 400 600 200
                  else mkRect 0 0 0)
           (λ _, 0%float) (λ _, 600%float) (λ _, w).

Definition deck (w : float) : Page :=
  mkPage (list_to_map [("KernwerkSlider"%string, 1%positive); ("kernwerkDots"%string, 2%positive);
                       ("kernwerkPrev"%string, 3%positive); ("kernwerkNext"%string, 4%positive)])
         {[ 1%positive := [11%positive; 12%positive; 13%positive] ]}
         ∅ ∅ [] [] [] (deck_layout w).

(** The call at the end of slideshow.js. *)
Definition kernwerk : Ids :=
  mkIds "KernwerkSlider" "kernwerkDots" "kernwerkPrev" "kernwerkNext".

Definition deck_closure : Closure :=
  mkClosure 1 2 3 4 [11%positive; 12%positive; 13%positive].

(** A slider 300 wide shows the first card and half of the second; one
    80 wide shows less than half of any card. *)
Definition wide_deck : Page := deck 300.

Definition narrow_deck : Page := deck 80.

(** The four elements are found and the slider has slides; [c] is what
    the inner functions then close over. *)
Definition resolves (ids : Ids) (p : Page) (c : Closure) : Prop :=
  byId p !! sliderId ids = Some (slider c) ∧
  byId p !! dotsId ids = Some (dotsContainer c) ∧
  byId p !! prevId ids = Some (prevBtn c) ∧
  byId p !! nextId ids = Some (nextBtn c) ∧
  slides c = default [] (slidesIn p !! slider c) ∧
  slides c ≠ [].

End Slideshow.

(** * Part II. Lemmas and theorems *)

(** ** Reasoning about method bodies

    [wp m Q E s]: started in [s], the body [m] either completes with a
    value and a state satisfying [Q], or throws in a state satisfying [E]. *)

Section wp_rules.
Context {A B : Type}.
Implicit Types (Q : A → State → Prop) (E : State → Prop) (s : State).

Lemma wp_ret (a : A) Q E s : Q a s → wp (ret a) Q E s.
Proof. done. Qed.

Lemma wp_throw e Q E s : E s → wp (throw e) Q E s.
Proof. done. Qed.

Lemma wp_gets (f : State → A) Q E s : Q (f s) s → wp (gets f) Q E s.
Proof. done. Qed.

Lemma wp_bind (m : M A) (k : A → M B) (R : B → State → Prop) E s :
  wp m (λ a s', wp (k a) R E s') E s → wp (bind m k) R E s.
Proof. unfold wp, bind. by destruct (m s) as [[a|e] s']. Qed.

Lemma wp_mono (m : M A) Q Q' E E' s :
  wp m Q E s → (∀ a s', Q a s' → Q' a s') → (∀ s', E s' → E' s') → wp m Q' E' s.
Proof. unfold wp. destruct (m s) as [[a|e] s']; eauto. Qed.

Lemma wp_run (m : M A) Q E s :
  wp m Q E s → ∃ r s', m s = (r, s') ∧
    match r with Ok a => Q a s' | Throw _ => E s' end.
Proof. unfold wp. destruct (m s) as [r s']. destruct r; eauto. Qed.
End wp_rules.

Lemma wp_modify (f : State → State) Q E s : Q tt (f s) → wp (modify f) Q E s.
Proof. done. Qed.

Lemma wp_try_catch body handler (Q : unit → State → Prop) E s :
  wp body Q (λ s', ∀ e, wp (handler e) Q E s') s → wp (try_catch body handler) Q E s.
Proof.
  unfold wp, try_catch. destruct (body s) as [[a|e] s']; first done.
  intros H. apply H.
Qed.

Lemma wp_forEach {A} (I : State → Prop) (l : list A) (f : A → M unit) Q E s :
  I s →
  (∀ x s', x ∈ l → I s' → wp (f x) (λ _, I) E s') →
  (∀ s', I s' → Q tt s') →
  wp (forEach l f) Q E s.
Proof.
  intros HI Hf HQ. revert s HI. induction l as [|x l IH]; intros s HI; simpl.
  - apply wp_ret. auto.
  - apply wp_bind. eapply wp_mono; [apply Hf; [left|done] | | done].
    intros [] s' HI'. apply IH; [|done].
    intros y s'' Hy. apply Hf. by right.
Qed.

(** The loop with an invariant that tracks the part already visited. *)
Lemma wp_forEach_prefix {A} (I : list A → State → Prop) (l : list A)
    (f : A → M unit) Q E s :
  I [] s →
  (∀ done x rest s', l = done ++ x :: rest → I done s' →
     wp (f x) (λ _, I (done ++ [x])) E s') →
  (∀ s', I l s' → Q tt s') →
  wp (forEach l f) Q E s.
Proof.
  intros HI Hf HQ.
  cut (∀ done rest s', l = done ++ rest → I done s' → wp (forEach rest f) Q E s').
  { intros H. by apply (H [] l). }
  intros done rest. revert done.
  induction rest as [|x rest IH]; intros done s' Hl HI'; simpl.
  - apply wp_ret, HQ. subst l. by rewrite app_nil_r.
  - apply wp_bind. eapply wp_mono; [by apply (Hf done x rest) | | done].
    intros [] s'' HI''. apply (IH (done ++ [x])); [|done].
    by rewrite <- app_assoc.
Qed.

Lemma wp_getItem i (Q : Item → State → Prop) E s :
  (∀ it, elements (this s) !! i = Some it → Q it s) →
  (elements (this s) !! i = None → E s) →
  wp (getItem i) Q E s.
Proof. unfold wp, getItem. destruct (elements (this s) !! i); eauto. Qed.

Lemma wp_setItem i f (Q : unit → State → Prop) E s :
  Q tt (upd_elements (alter f i) s) → wp (setItem i f) Q E s.
Proof. done. Qed.

Lemma wp_setTimeout cb delay (Q : positive → State → Prop) E s :
  Q (nextTimer (host s))
    (upd_host (host_with_timers (Pos.succ (nextTimer (host s)))
       (<[nextTimer (host s) := mkTimer (now (host s) + delay) cb]> (timers (host s)))) s) →
  wp (setTimeout cb delay) Q E s.
Proof. done. Qed.

Lemma wp_clearTimeout id (Q : unit → State → Prop) E s :
  Q tt (upd_host (λ h, host_with_timers (nextTimer h) (delete id (timers h)) h) s) →
  wp (clearTimeout id) Q E s.
Proof. done. Qed.

Lemma wp_timeoutIds_add id (Q : unit → State → Prop) E s :
  Q tt (upd_timeoutIds (λ ids, ids ∪ {[id]}) s) → wp (timeoutIds_add id) Q E s.
Proof. done. Qed.

Lemma wp_timeoutIds_delete id (Q : unit → State → Prop) E s :
  Q tt (upd_timeoutIds (λ ids, ids ∖ {[id]}) s) → wp (timeoutIds_delete id) Q E s.
Proof. done. Qed.

Lemma wp_console_log l msg (Q : unit → State → Prop) E s :
  Q tt (upd_host (host_log l msg) s) → wp (console_log l msg) Q E s.
Proof. done. Qed.

Lemma wp_set_textContent el text (Q : unit → State → Prop) E s :
  (∀ e, el = Some e → e ∉ broken (host s) →
        Q tt (upd_host (λ h, host_with_sinks (<[e := text_children text]> (sinks h)) h) s)) →
  ((el = None ∨ ∃ e, el = Some e ∧ e ∈ broken (host s)) → E s) →
  wp (set_textContent el text) Q E s.
Proof.
  intros HQ HE. destruct el as [e|]; unfold wp, set_textContent; simpl.
  - case_decide; eauto.
  - apply HE. by left.
Qed.

Lemma wp_appendChild el n (Q : unit → State → Prop) E s :
  (∀ e, el = Some e → e ∉ broken (host s) →
        Q tt (upd_host (λ h, host_with_sinks
                (<[e := default [] (sinks h !! e) ++ [n]]> (sinks h)) h) s)) →
  ((el = None ∨ ∃ e, el = Some e ∧ e ∈ broken (host s)) → E s) →
  wp (appendChild el n) Q E s.
Proof.
  intros HQ HE. destruct el as [e|]; unfold wp; simpl.
  - case_decide; eauto.
  - apply HE. by left.
Qed.

#[global] Arguments set_textContent : simpl never.

#[global] Arguments appendChild : simpl never.

#[global] Arguments getItem : simpl never.

#[global] Arguments setTimeout : simpl never.

#[global] Arguments wp : simpl never.

(** Symbolic execution of straight-line code. *)
Ltac wp_step :=
  lazymatch goal with
  | |- wp (bind _ _) _ _ _ => apply wp_bind
  | |- wp (ret _) _ _ _ => apply wp_ret
  | |- wp (gets _) _ _ _ => apply wp_gets
  | |- wp (modify _) _ _ _ => apply wp_modify
  | |- wp (setItem _ _) _ _ _ => apply wp_setItem
  | |- wp (setTimeout _ _) _ _ _ => apply wp_setTimeout
  | |- wp (clearTimeout _) _ _ _ => apply wp_clearTimeout
  | |- wp (timeoutIds_add _) _ _ _ => apply wp_timeoutIds_add
  | |- wp (timeoutIds_delete _) _ _ _ => apply wp_timeoutIds_delete
  | |- wp (console_log _ _) _ _ _ => apply wp_console_log
  | |- wp (try_catch _ _) _ _ _ => apply wp_try_catch
  end.

Ltac wp_steps := repeat wp_step.

(** ** Invariants of the timer bookkeeping *)

Ltac tinv_solve :=
  match goal with
  | H : TInv _ |- TInv _ =>
      destruct H as [Htr Hfr]; split; simpl in *;
      [ try rewrite dom_insert_L; try rewrite dom_delete_L; set_solver
      | intros id0 Hid0;
        repeat match goal with
          | |- <[_:=_]> _ !! _ = None => rewrite lookup_insert_ne by lia
          | |- delete _ _ !! _ = None => apply lookup_delete_None; right
          end;
        apply Hfr; lia ]
  end.

Lemma typeText_TInv i sl s : TInv s → wp (typeText i sl) (λ _, TInv) TInv s.
Proof.
  intros HI. unfold typeText, typeText_body. wp_steps.
  apply wp_getItem; [intros it Hit | intros _ e; wp_steps; tinv_solve].
  destruct (negb (isVisible it) || negb (bool_decide (is_Some (element it)))).
  { by wp_steps. }
  case_bool_decide.
  - wp_steps. apply wp_set_textContent; [intros e He Hb | intros _ e; wp_steps; tinv_solve].
    wp_steps. apply wp_appendChild; [intros e' He' Hb' | intros _ e'; wp_steps; tinv_solve].
    wp_steps. tinv_solve.
  - wp_steps. apply wp_set_textContent; [intros e He Hb | intros _ e; wp_steps; tinv_solve].
    wp_steps. unfold every_done. wp_steps.
    match goal with |- wp (if ?c then _ else _) _ _ _ => destruct c end; [|wp_steps; tinv_solve].
    apply (wp_forEach TInv); [tinv_solve | | done].
    intros si s' _ HI'. wp_steps. tinv_solve.
Qed.

Lemma loopRestart_TInv si sl s : TInv s → wp (loopRestart si sl) (λ _, TInv) TInv s.
Proof.
  intros HI. unfold loopRestart. wp_steps.
  apply wp_getItem; [intros it Hit | intros _; tinv_solve].
  wp_steps. apply wp_set_textContent; [intros e He Hb | intros _; tinv_solve].
  wp_steps. tinv_solve.
Qed.

Lemma startItem_TInv sl i s : TInv s → wp (startItem sl i) (λ _, TInv) TInv s.
Proof.
  intros HI. unfold startItem. wp_steps.
  apply wp_getItem; [intros it Hit | intros _ e; wp_steps; tinv_solve].
  wp_steps.
  destruct (negb (isVisible it)); wp_steps.
  all: (apply wp_set_textContent; [intros e He Hb | intros _ e; wp_steps; tinv_solve]).
  all: wp_steps; tinv_solve.
Qed.

Lemma clearLoop_TInv i s : TInv s → wp (clearLoop i) (λ _, TInv) TInv s.
Proof.
  intros HI. unfold clearLoop. wp_steps.
  apply wp_getItem; [intros it Hit | intros _; tinv_solve].
  destruct (loopTimeout it); wp_steps; tinv_solve.
Qed.

Lemma log_TInv l msg s : TInv s → TInv (upd_host (host_log l msg) s).
Proof. intros HI. tinv_solve. Qed.

Lemma onEntry_TInv entry s : TInv s → wp (onEntry entry) (λ _, TInv) TInv s.
Proof.
  intros HI. unfold onEntry. wp_steps.
  destruct (entry.2); wp_steps; [|done].
  apply (wp_forEach TInv); [done | |].
  { intros i s' _ HI'. eapply wp_mono; [by apply clearLoop_TInv | done |].
    intros s'' HI'' e. wp_steps. by apply log_TInv. }
  intros s' HI'. apply (wp_forEach TInv); [done | | done].
  intros i s'' _ HI''. eapply wp_mono; [by apply startItem_TInv | done |].
  intros s3 H3 e. wp_steps. by apply log_TInv.
Qed.

Lemma observerCallback_TInv entries s :
  TInv s → wp (observerCallback entries) (λ _, TInv) TInv s.
Proof.
  intros HI. apply (wp_forEach TInv); [done | | done].
  intros entry s' _ HI'. by apply onEntry_TInv.
Qed.

Lemma cancel_all_empty s : cancel_all ∅ s = s.
Proof.
  unfold cancel_all, upd_host, host_with_timers. destruct s as [t h]; simpl.
  f_equal. destruct h; simpl. f_equal.
  apply map_filter_id. intros k tm _. simpl. set_solver.
Qed.

Lemma cancel_all_step done x s :
  upd_host (λ h, host_with_timers (nextTimer h) (delete x (timers h)) h)
    (cancel_all (list_to_set done) s)
  = cancel_all (list_to_set (done ++ [x])) s.
Proof.
  unfold cancel_all, upd_host, host_with_timers. simpl. do 2 f_equal.
  apply map_eq. intros k.
  destruct (decide (k = x)) as [->|Hne].
  - rewrite lookup_delete_eq. symmetry. apply map_lookup_filter_None.
    right. intros tm _. simpl. set_solver.
  - rewrite lookup_delete_ne by done.
    rewrite !map_lookup_filter. destruct (timers (host s) !! k); simpl; [|done].
    apply option_guard_iff. set_solver.
Qed.

(** [destroy] cancels exactly the handles in [timeoutIds], empties the set
    and touches nothing else; it never throws. *)
Lemma destroy_run s : destroy s = (Ok tt, destroyed s).
Proof.
  assert (wp destroy (λ _ s', s' = destroyed s) (λ _, False) s) as Hwp.
  { unfold destroy. wp_steps.
    apply (wp_forEach_prefix (λ done s', s' = cancel_all (list_to_set done) s)).
    - simpl. by rewrite cancel_all_empty.
    - intros done x rest s' Hl ->. wp_steps. apply cancel_all_step.
    - intros s' ->. wp_steps. unfold destroyed. do 2 f_equal.
      apply set_eq. intros k. rewrite elem_of_list_to_set. apply elem_of_elements. }
  apply wp_run in Hwp as (r & s' & Heq & Hr). destruct r as [[]|]; [|done].
  by subst s'.
Qed.

(** The timer the host fires next is one of the pending ones. *)
Lemma next_timer_lookup ts id tm :
  next_timer ts = Some (id, tm) → ts !! id = Some tm.
Proof.
  unfold next_timer. intros H. apply elem_of_map_to_list.
  revert H. generalize (map_to_list ts). intros l. revert id tm.
  induction l as [|x l IH]; intros id tm; simpl; [done|].
  destruct (foldr _ None l) as [y|] eqn:Hy.
  - destruct (earlier y x); intros [= <-].
    + right. destruct y. by apply IH.
    + left.
  - intros [= <-]. left.
Qed.

Lemma host_run_inv (I : State → Prop) m s :
  wp m (λ _, I) I s →
  (∀ e s', I s' → I (upd_host (host_log Uncaught e) s')) →
  I (host_run m s).
Proof.
  unfold wp, host_run. destruct (m s) as [[[]|e] s']; auto.
Qed.

Lemma run_callback_TInv cb s : TInv s → wp (run_callback cb) (λ _, TInv) TInv s.
Proof.
  destruct cb; simpl; [apply typeText_TInv | apply loopRestart_TInv].
Qed.

Lemma fire_TInv s : TInv s → TInv (fire s).
Proof.
  intros HI. unfold fire.
  destruct (next_timer (timers (host s))) as [[id tm]|] eqn:Hn; [|done].
  apply host_run_inv; [|intros; by apply log_TInv].
  apply run_callback_TInv. unfold advance. tinv_solve.
Qed.

Lemma destroy_TInv s : TInv s → wp destroy (λ _, TInv) TInv s.
Proof.
  intros [Htr Hfr]. unfold wp. rewrite destroy_run. split; simpl.
  - intros k [tm Hk]%elem_of_dom.
    apply map_lookup_filter_Some in Hk as [Hk Hnot]. simpl in Hnot.
    exfalso. apply Hnot, Htr, elem_of_dom. eauto.
  - intros id Hid. apply map_lookup_filter_None. left. by apply Hfr.
Qed.

Lemma dispatch_TInv ev s : TInv s → TInv (dispatch ev s).
Proof.
  intros HI. destruct ev as [|t entries|]; simpl.
  - by apply fire_TInv.
  - apply host_run_inv; [|intros; by apply log_TInv].
    apply observerCallback_TInv. unfold advance. tinv_solve.
  - apply host_run_inv; [|intros; by apply log_TInv]. by apply destroy_TInv.
Qed.

Lemma boot_TInv options doc faulty : TInv (boot options doc faulty).
Proof.
  unfold boot, init, try_catch. destruct doc as [|el doc]; simpl.
  - split; simpl; [set_solver | done].
  - split; simpl; [set_solver | done].
Qed.

Lemma reachable_TInv options doc faulty s :
  reachable options doc faulty s → TInv s.
Proof.
  induction 1; [apply boot_TInv | by apply dispatch_TInv].
Qed.

(** ** What each handler does, case by case *)

Lemma forEach_arm sl l s :
  forEach l (λ si,
      let* delay := gets (λ s, loopDelay (this s)) in
      let* id := setTimeout (CbLoopRestart si sl) delay in
      setItem si (with_loopTimeout (Some id)) ;;;
      timeoutIds_add id) s
  = (Ok tt, foldl (arm_one sl) s l).
Proof.
  revert s. induction l as [|si l IH]; intros s; [done|].
  simpl. unfold bind at 1. simpl. apply IH.
Qed.

Lemma typeText_run i sl s :
  ∃ s', typeText i sl s = (Ok tt, s') ∧ typeText_outcome i sl s s'.
Proof.
  assert (wp (typeText i sl) (λ _ s', typeText_outcome i sl s s') (λ _, False) s) as H.
  { unfold typeText, typeText_body. wp_steps.
    apply wp_getItem; [intros it Hit | intros Hn e; wp_steps; by apply tto_dangling].
    destruct (isVisible it) eqn:Hv; simpl;
      [|wp_steps; eapply tto_skip; eauto].
    destruct (element it) as [e|] eqn:He.
    2: { rewrite bool_decide_eq_false_2 by (by intros [? ?]). simpl.
         wp_steps. eapply tto_skip; eauto. }
    rewrite bool_decide_eq_true_2 by eauto. simpl.
    case_bool_decide as Hlen.
    - destruct (fullText it !! length (currentText it)) as [c|] eqn:Hc;
        [|apply lookup_ge_None in Hc; lia].
      wp_steps. apply wp_set_textContent.
      + intros e' [= <-] Hb. wp_steps. apply wp_appendChild.
        * intros e' [= <-] _. wp_steps. by apply (tto_type i sl s it e c).
        * intros [|(e' & [= <-] & Hb')]; [done|]. done.
      + intros [|(e' & [= <-] & Hb)]; [done|]. intros _. wp_steps.
        by apply (tto_type_throw i sl s it e c).
    - wp_steps. apply wp_set_textContent.
      + intros e' [= <-] Hb. wp_steps. unfold every_done. wp_steps. simpl.
        destruct (all_done sl (elements (this s)) && negb (truthy (loopTimeout it))) eqn:Hd.
        * apply andb_true_iff in Hd as [Hd Hl].
          unfold wp. rewrite forEach_arm.
          apply (tto_arm i sl s it e); auto; [lia|].
          by destruct (loopTimeout it).
        * wp_steps. apply (tto_done i sl s it e); auto. lia.
      + intros [|(e' & [= <-] & Hb)]; [done|]. intros _. wp_steps.
        apply (tto_done_throw i sl s it e); auto. lia. }
  apply wp_run in H as (r & s' & Heq & Hr). destruct r as [[]|]; [eauto|done].
Qed.

Lemma loopRestart_run si sl s :
  ∃ r s', loopRestart si sl s = (r, s') ∧ loopRestart_outcome si sl s r s'.
Proof.
  unfold loopRestart, bind at 1, getItem.
  destruct (elements (this s) !! si) as [it|] eqn:Hit;
    [|eexists _, _; split; [done|by constructor]].
  unfold bind at 1. simpl. unfold bind at 1, set_textContent.
  destruct (element it) as [e|] eqn:He; simpl.
  - case_decide as Hb.
    + eexists _, _; split; [done|]. eapply lro_throw; eauto.
    + eexists _, _; split; [done|]. by apply (lro_ok si sl s it e).
  - eexists _, _; split; [done|]. eapply lro_throw; eauto.
Qed.

Lemma startItem_run sl i s :
  ∃ s', startItem sl i s = (Ok tt, s') ∧ startItem_outcome sl i s s'.
Proof.
  assert (wp (startItem sl i) (λ _ s', startItem_outcome sl i s s') (λ _, False) s) as H.
  { unfold startItem. wp_steps.
    apply wp_getItem; [intros it Hit | intros Hn e; wp_steps; by apply sio_dangling].
    wp_steps.
    assert (∀ s1, s1 = shown i it s →
      wp
         (setItem i (with_currentText []);;;
          set_textContent (element it) [];;;
          (let* stagger := gets (λ s0, staggerDelay (this s0)) in
           let* timeoutId := setTimeout (CbTypeText i sl)
                               (N.of_nat (staggerIndex it) * stagger) in
           timeoutIds_add timeoutId))
         (λ _ s'0, startItem_outcome sl i s s'0)
         (λ s'0, string → wp (console_log Warn "Error starting typewriter item:")
                   (λ _ s'1, startItem_outcome sl i s s'1) (λ _, False) s'0) s1) as Hrest.
    { intros s1 ->. wp_steps.
      assert (host (shown i it s) = host s) as Hh
        by (unfold shown; by destruct (negb (isVisible it))).
      apply wp_set_textContent.
      - intros e He Hb. simpl in Hb. rewrite Hh in Hb. wp_steps.
        by apply (sio_ok sl i s it e).
      - intros Hthrow _. simpl in Hthrow. rewrite Hh in Hthrow. wp_steps.
        by apply (sio_throw sl i s it). }
    unfold shown in Hrest.
    destruct (negb (isVisible it)); wp_step; by apply Hrest. }
  apply wp_run in H as (r & s' & Heq & Hr). destruct r as [[]|]; [eauto|done].
Qed.

Lemma clearLoop_run i s :
  ∃ r s', clearLoop i s = (r, s') ∧ clearLoop_outcome i s r s'.
Proof.
  unfold clearLoop, bind at 1, getItem.
  destruct (elements (this s) !! i) as [it|] eqn:Hit;
    [|eexists _, _; split; [done|by constructor]].
  destruct (loopTimeout it) as [id|] eqn:Hl.
  - eexists _, _; split; [done|]. by apply (clo_clear i s it id).
  - eexists _, _; split; [done|]. by apply (clo_none i s it).
Qed.

(** ** The event loop, case by case *)

Lemma fire_cases s :
  (next_timer (timers (host s)) = None ∧ fire s = s) ∨
  ∃ id tm, next_timer (timers (host s)) = Some (id, tm) ∧
    timers (host s) !! id = Some tm ∧
    match callback tm with
    | CbTypeText i sl => typeText_outcome i sl (taken id tm s) (fire s)
    | CbLoopRestart si sl =>
        ∃ r s', loopRestart_outcome si sl (taken id tm s) r s' ∧ fire s = settle r s'
    end.
Proof.
  unfold fire. destruct (next_timer (timers (host s))) as [[id tm]|] eqn:Hn; [right|by left].
  exists id, tm. split; [done|]. split; [by apply next_timer_lookup|].
  change (advance (due tm) (upd_host _ s)) with (taken id tm s).
  destruct (callback tm) as [i sl|si sl]; simpl.
  - destruct (typeText_run i sl (taken id tm s)) as (s' & Heq & Ho).
    unfold host_run. by rewrite Heq.
  - destruct (loopRestart_run si sl (taken id tm s)) as (r & s' & Heq & Ho).
    exists r, s'. split; [done|]. unfold host_run. rewrite Heq. by destruct r as [[]|].
Qed.

Lemma chain_inv {A} (P : State → Prop) (R : A → State → State → Prop) l s s' :
  chain R l s s' → P s → (∀ x a b, x ∈ l → P a → R x a b → P b) → P s'.
Proof.
  induction 1 as [|x l s s1 s2 HR Hch IH]; intros HP Hstep; [done|].
  apply IH.
  - eapply Hstep; [left|done..].
  - intros y a b Hy. apply Hstep. by right.
Qed.

(** The same with an invariant that knows which items are done. *)
Lemma chain_prefix_inv {A} (P : list A → State → Prop)
    (R : A → State → State → Prop) l s s' :
  chain R l s s' → P [] s →
  (∀ done x a b, P done a → R x a b → P (done ++ [x]) b) → P l s'.
Proof.
  intros Hch HP Hstep.
  cut (∀ done, P done s → P (done ++ l) s'); [intros H; by apply (H [])|].
  clear HP. induction Hch as [|x l s s1 s2 HR Hch IH]; intros done HP.
  - by rewrite app_nil_r.
  - replace (done ++ x :: l) with ((done ++ [x]) ++ l) by by rewrite <- app_assoc.
    apply IH. by eapply Hstep.
Qed.

Lemma slide_items_spec target els i :
  i ∈ slide_items target els ↔ ∃ it, els !! i = Some it ∧ slideElement it = target.
Proof.
  unfold slide_items. rewrite list_elem_of_filter, elem_of_seq. split.
  - intros [H _]. destruct (els !! i) as [it|]; [|done].
    injection H as H. eauto.
  - intros (it & Hit & Hs). split; [by rewrite Hit; simpl; f_equal|].
    apply lookup_lt_Some in Hit. lia.
Qed.

Lemma clearLoop_length i s r s' :
  clearLoop_outcome i s r s' → elements (this s') = elements (this s).
Proof. by destruct 1. Qed.

Lemma forEach_clearLoop l s :
  (∀ i, i ∈ l → is_Some (elements (this s) !! i)) →
  ∃ s', forEach l clearLoop s = (Ok tt, s') ∧
        chain (λ i a b, clearLoop_outcome i a (Ok tt) b) l s s'.
Proof.
  revert s. induction l as [|i l IH]; intros s Hl; simpl.
  - eexists; split; [done|constructor].
  - destruct (clearLoop_run i s) as (r & s1 & Heq & Ho).
    assert (r = Ok tt) as ->.
    { destruct Ho; try done. destruct (Hl i) as [? ?]; [left|congruence]. }
    destruct (IH s1) as (s' & Heq' & Hch).
    { intros j Hj. rewrite (clearLoop_length _ _ _ _ Ho). apply Hl. by right. }
    exists s'. split; [|by econstructor].
    unfold bind. by rewrite Heq.
Qed.

Lemma forEach_startItem sl l s :
  ∃ s', forEach l (startItem sl) s = (Ok tt, s') ∧ chain (startItem_outcome sl) l s s'.
Proof.
  revert s. induction l as [|i l IH]; intros s; simpl.
  - eexists; split; [done|constructor].
  - destruct (startItem_run sl i s) as (s1 & Heq & Ho).
    destruct (IH s1) as (s' & Heq' & Hch).
    exists s'. split; [|by econstructor].
    unfold bind. by rewrite Heq.
Qed.

(** An intersecting entry: clear the slide's pending loops, then restart
    its items. *)
Lemma onEntry_intersecting target s :
  let sl := slide_items target (elements (this s)) in
  ∃ s1 s2, onEntry (target, true) s = (Ok tt, s2) ∧
    chain (λ i a b, clearLoop_outcome i a (Ok tt) b) sl s s1 ∧
    chain (startItem_outcome sl) sl s1 s2.
Proof.
  intros sl. unfold onEntry, try_catch. simpl.
  unfold bind at 1. simpl. fold sl.
  destruct (forEach_clearLoop sl s) as (s1 & Heq1 & Hch1).
  { intros i (it & Hit & _)%slide_items_spec. eauto. }
  destruct (forEach_startItem sl sl s1) as (s2 & Heq2 & Hch2).
  exists s1, s2. split; [|done].
  unfold bind. by rewrite Heq1, Heq2.
Qed.

Lemma onEntry_leaving target s : onEntry (target, false) s = (Ok tt, s).
Proof. done. Qed.

Lemma stable_fire P s : stable P → P s → P (fire s).
Proof.
  intros HP Hs. destruct (fire_cases s) as [[_ ->]|(id & tm & _ & _ & Hcb)]; [done|].
  assert (P (taken id tm s)) as Ht by (unfold taken; by apply (st_advance P HP), (st_untimed P HP)).
  destruct (callback tm) as [i sl|si sl].
  - by eapply (st_typeText P HP).
  - destruct Hcb as (r & s' & Ho & ->).
    assert (P s') by by eapply (st_loopRestart P HP).
    destruct r; simpl; [done|by apply (st_log P HP)].
Qed.

Lemma onEntry_ok entry s : (onEntry entry s).1 = Ok tt.
Proof.
  destruct entry as [target [|]]; [|done].
  by destruct (onEntry_intersecting target s) as (s1 & s2 & -> & _).
Qed.

Lemma observerCallback_ok entries s : (observerCallback entries s).1 = Ok tt.
Proof.
  revert s. induction entries as [|entry l IH]; intros s; [done|].
  unfold observerCallback. simpl. unfold bind.
  pose proof (onEntry_ok entry s) as H.
  destruct (onEntry entry s) as [r s1]. simpl in H. subst r. apply IH.
Qed.

(** What the two loops of the observer keep, the observer keeps. *)
Section observer_inv.
Variable P : State → Prop.
Hypothesis P_startItem : ∀ sl i a b, P a → startItem_outcome sl i a b → P b.
Hypothesis P_clearLoop : ∀ i a r b, P a → clearLoop_outcome i a r b → P b.

Lemma onEntry_inv entry s : P s → P (onEntry entry s).2.
Proof.
  intros Hs. destruct entry as [target [|]].
  - destruct (onEntry_intersecting target s) as (s1 & s2 & -> & Hc1 & Hc2). simpl.
    eapply (chain_inv P _ _ _ _ Hc2).
    + eapply (chain_inv P _ _ _ _ Hc1); [done|].
      intros i a b _ Ha Ho. by eapply P_clearLoop.
    + intros i a b _ Ha Ho. by eapply P_startItem.
  - by rewrite onEntry_leaving.
Qed.

Lemma observer_inv entries s : P s → P (host_run (observerCallback entries) s).
Proof.
  unfold host_run.
  pose proof (observerCallback_ok entries s) as Hok.
  destruct (observerCallback entries s) as [r s'] eqn:Heq. simpl in Hok. subst r.
  replace s' with (observerCallback entries s).2 by by rewrite Heq.
  clear Heq. revert s. induction entries as [|entry l IH]; intros s Hs; [done|].
  unfold observerCallback. simpl. unfold bind.
  pose proof (onEntry_ok entry s) as H.
  pose proof (onEntry_inv entry s Hs) as H1.
  destruct (onEntry entry s) as [r s1]. simpl in *. subst r. by apply IH.
Qed.
End observer_inv.

Lemma stable_observer P entries s :
  stable P → P s → P (host_run (observerCallback entries) s).
Proof.
  intros HP. apply observer_inv.
  - apply (st_startItem P HP).
  - apply (st_clearLoop P HP).
Qed.

Lemma stable_dispatch P ev s : stable P → P s → P (dispatch ev s).
Proof.
  intros HP Hs. destruct ev as [|t entries|]; simpl.
  - by apply stable_fire.
  - apply stable_observer; [done|]. by apply (st_advance P HP).
  - unfold host_run. rewrite destroy_run. by apply (st_destroyed P HP).
Qed.

Lemma stable_reachable P options doc faulty s :
  stable P → P (boot options doc faulty) → reachable options doc faulty s → P s.
Proof.
  intros HP Hb. induction 1; [done|by apply stable_dispatch].
Qed.

(** ** Invariants of the tracked items *)

Lemma EInv_same doc s s' :
  elements (this s') = elements (this s) → EInv doc s → EInv doc s'.
Proof. intros Heq HI i it. rewrite Heq. apply HI. Qed.

Lemma EInv_alter doc i f s s' :
  elements (this s') = alter f i (elements (this s)) →
  (∀ x, elements (this s) !! i = Some x → item_ok doc x → item_ok doc (f x)) →
  EInv doc s → EInv doc s'.
Proof.
  intros Heq Hf HI j it. rewrite Heq.
  destruct (decide (j = i)) as [->|Hne].
  - rewrite list_lookup_alter_eq. destruct (elements (this s) !! i) as [x|] eqn:Hx; [|done].
    intros [= <-]. apply Hf; [done|]. by eapply HI.
  - rewrite list_lookup_alter_ne by done. apply HI.
Qed.

Lemma item_ok_loopTimeout doc h it : item_ok doc it → item_ok doc (with_loopTimeout h it).
Proof. done. Qed.

Lemma item_ok_isVisible doc b it : item_ok doc it → item_ok doc (with_isVisible b it).
Proof. done. Qed.

Lemma item_ok_reset doc it : item_ok doc it → item_ok doc (with_currentText [] it).
Proof. intros (_ & H). split; [apply prefix_nil|done]. Qed.

Lemma prefix_snoc (cur full : jsstring) c :
  cur `prefix_of` full → full !! length cur = Some c → (cur ++ [c]) `prefix_of` full.
Proof.
  intros [k ->] Hc. rewrite lookup_app_r in Hc by lia.
  replace (length cur - length cur)%nat with 0%nat in Hc by lia.
  destruct k as [|c' k]; [done|]. injection Hc as <-.
  exists k. by rewrite <- app_assoc.
Qed.

Lemma item_ok_type doc it c :
  fullText it !! length (currentText it) = Some c →
  item_ok doc it → item_ok doc (with_currentText (currentText it ++ [c]) it).
Proof. intros Hc (Hp & H). split; [by apply prefix_snoc|done]. Qed.

Lemma foldl_inv {A} (P : State → Prop) (f : State → A → State) l s :
  P s → (∀ a x, P a → P (f a x)) → P (foldl f s l).
Proof. revert s. induction l; simpl; eauto. Qed.

Lemma EInv_stable doc : stable (EInv doc).
Proof.
  split.
  - intros i sl s s' HI Ho. destruct Ho.
    + by apply (EInv_same doc s).
    + done.
    + eapply (EInv_alter doc i _ s); [done| |done].
      intros x Hx. replace x with it by congruence. by apply item_ok_type.
    + eapply (EInv_alter doc i _ s); [done| |done].
      intros x Hx. replace x with it by congruence. by apply item_ok_type.
    + by apply (EInv_same doc s).
    + apply foldl_inv; [by apply (EInv_same doc s)|].
      intros a si Ha. eapply (EInv_alter doc si _ a); [done| |done].
      intros x _. apply item_ok_loopTimeout.
    + by apply (EInv_same doc s).
  - intros si sl s r s' HI Ho. destruct Ho.
    + done.
    + eapply (EInv_alter doc si (with_loopTimeout None ∘ with_currentText []) s); [|intros x _ Hx|done].
      * simpl. by rewrite list_alter_alter_eq.
      * by apply item_ok_loopTimeout, item_ok_reset.
    + eapply (EInv_alter doc si _ s); [done| |done]. intros x _. apply item_ok_reset.
  - intros sl i s s' HI Ho.
    assert (∀ it, EInv doc (shown i it s)) as Hsh.
    { intros it. unfold shown. destruct (negb (isVisible it)); [|done].
      eapply (EInv_alter doc i _ s); [done| |done]. intros x _. apply item_ok_isVisible. }
    destruct Ho.
    + by apply (EInv_same doc s).
    + eapply (EInv_alter doc i _ (shown i it s)); [done| |done]. intros x _. apply item_ok_reset.
    + eapply (EInv_alter doc i _ (shown i it s)); [done| |done]. intros x _. apply item_ok_reset.
  - intros i s r s' HI Ho. destruct Ho; by apply (EInv_same doc s).
  - intros l msg s HI. by apply (EInv_same doc s).
  - intros t s HI. by apply (EInv_same doc s).
  - intros id s HI. by apply (EInv_same doc s).
  - intros s HI. by apply (EInv_same doc s).
Qed.

Lemma HInv_alter i f s s' :
  elements (this s') = alter f i (elements (this s)) →
  (nextTimer (host s) ≤ nextTimer (host s'))%positive →
  (∀ x h, loopTimeout (f x) = Some h →
          loopTimeout x = Some h ∨ (h < nextTimer (host s'))%positive) →
  HInv s → HInv s'.
Proof.
  intros Heq Hle Hf HI j it h. rewrite Heq.
  destruct (decide (j = i)) as [->|Hne].
  - rewrite list_lookup_alter_eq. destruct (elements (this s) !! i) as [x|] eqn:Hx; [|done].
    intros [= <-] Hh. destruct (Hf _ _ Hh) as [Hold|]; [|done].
    specialize (HI _ _ _ Hx Hold). lia.
  - rewrite list_lookup_alter_ne by done. intros Hj Hh.
    specialize (HI _ _ _ Hj Hh). lia.
Qed.

Lemma HInv_same s s' :
  elements (this s') = elements (this s) →
  (nextTimer (host s) ≤ nextTimer (host s'))%positive →
  HInv s → HInv s'.
Proof.
  intros Heq Hle HI i it h. rewrite Heq. intros Hi Hh.
  specialize (HI _ _ _ Hi Hh). lia.
Qed.

Lemma shown_host i it s : host (shown i it s) = host s.
Proof. unfold shown. by destruct (negb (isVisible it)). Qed.

Lemma HInv_stable : stable HInv.
Proof.
  split.
  - intros i sl s s' HI Ho. destruct Ho.
    + by apply (HInv_same s).
    + done.
    + eapply (HInv_alter i _ s); [done|simpl; lia| |done]. intros x h. simpl. auto.
    + eapply (HInv_alter i _ s); [done|simpl; lia| |done]. intros x h. simpl. auto.
    + by apply (HInv_same s).
    + apply foldl_inv; [by apply (HInv_same s)|].
      intros a si Ha. eapply (HInv_alter si _ a); [done|simpl; lia| |done].
      intros x h. simpl. intros [= <-]. right. lia.
    + by apply (HInv_same s).
  - intros si sl s r s' HI Ho. destruct Ho.
    + done.
    + eapply (HInv_alter si (with_loopTimeout None ∘ with_currentText []) s);
        [simpl; by rewrite list_alter_alter_eq|simpl; lia| |done].
      intros x h. simpl. done.
    + eapply (HInv_alter si _ s); [done|simpl; lia| |done]. intros x h. simpl. auto.
  - intros sl i s s' HI Ho.
    assert (∀ it, HInv (shown i it s)) as Hsh.
    { intros it. unfold shown. destruct (negb (isVisible it)); [|done].
      eapply (HInv_alter i _ s); [done|simpl; lia| |done]. intros x h. simpl. auto. }
    destruct Ho.
    + by apply (HInv_same s).
    + eapply (HInv_alter i _ (shown i it s)); [done|simpl; lia| |done].
      intros x h. simpl. auto.
    + eapply (HInv_alter i _ (shown i it s)); [done|simpl; lia| |done].
      intros x h. simpl. auto.
  - intros i s r s' HI Ho. destruct Ho; by apply (HInv_same s).
  - intros l msg s HI. by apply (HInv_same s).
  - intros t s HI. by apply (HInv_same s).
  - intros id s HI. by apply (HInv_same s).
  - intros s HI. by apply (HInv_same s).
Qed.

(** ** Registration *)

Lemma group_push_elem slide el groups k els x :
  (k, els) ∈ group_push slide el groups → x ∈ els →
  (k = slide ∧ x = el) ∨ ∃ els0, (k, els0) ∈ groups ∧ x ∈ els0.
Proof.
  induction groups as [|[k0 els0] groups IH]; simpl.
  - intros [= -> ->]%list_elem_of_singleton ->%list_elem_of_singleton. by left.
  - case_decide as Hk.
    + subst k0. intros [[= -> ->]|Hin]%elem_of_cons Hx.
      * apply elem_of_app in Hx as [Hx| ->%list_elem_of_singleton]; [|by left].
        right. exists els0. split; [left|done].
      * right. exists els. split; [by right|done].
    + intros [[= -> ->]|Hin]%elem_of_cons Hx.
      * right. exists els0. split; [left|done].
      * destruct (IH Hin Hx) as [?|(els1 & ? & ?)]; [by left|].
        right. exists els1. split; [by right|done].
Qed.

(** A group holds elements of the page whose nearest container is the
    group's key. *)
Lemma slideGroups_sound doc k els el :
  (k, els) ∈ slideGroups doc → el ∈ els →
  el ∈ doc ∧ or_else (closest_slide el) (closest_topic el) = Some k.
Proof.
  unfold slideGroups.
  cut (∀ doc' acc,
    (∀ k els el, (k, els) ∈ acc → el ∈ els →
       el ∈ doc ∧ or_else (closest_slide el) (closest_topic el) = Some k) →
    (∀ el, el ∈ doc' → el ∈ doc) →
    ∀ k els el,
      (k, els) ∈ foldl (λ groups el,
           match or_else (closest_slide el) (closest_topic el) with
           | Some slide => group_push slide el groups
           | None => groups
           end) acc doc' → el ∈ els →
      el ∈ doc ∧ or_else (closest_slide el) (closest_topic el) = Some k).
  { intros H. apply (H doc []); [|done]. intros ??? Hin. by apply elem_of_nil in Hin. }
  clear. intros doc'. induction doc' as [|x doc' IH]; intros acc Hacc Hsub; simpl; [done|].
  apply IH; [|intros; apply Hsub; by right].
  destruct (or_else (closest_slide x) (closest_topic x)) as [slide|] eqn:Hs; [|done].
  intros k els el Hin Hel.
  destruct (group_push_elem _ _ _ _ _ _ Hin Hel) as [[-> ->]|(els0 & ? & ?)]; [|eauto].
  split; [apply Hsub; left|done].
Qed.

Lemma tracked_item groups it :
  it ∈ tracked groups →
  ∃ k els index el, (k, els) ∈ groups ∧ els !! index = Some el ∧
    data_typewriter el ≠ [] ∧
    it = mkItem (Some (el_id el)) (data_typewriter el) (data_typewriter el)
                [] false false k index None.
Proof.
  unfold tracked. intros (l & Hit & Hl)%list_elem_of_join.
  apply list_elem_of_fmap in Hl as ([k els] & -> & Hg). simpl in Hit.
  apply list_elem_of_join in Hit as (l & Hit & Hl).
  apply elem_of_lookup_imap in Hl as (index & el & -> & Hel).
  exists k, els, index, el. unfold track in Hit.
  destruct (data_typewriter el) as [|c r] eqn:Hd; [by apply elem_of_nil in Hit|].
  apply list_elem_of_singleton in Hit. done.
Qed.

Lemma boot_elements options doc faulty :
  elements (this (boot options doc faulty)) = tracked (slideGroups doc).
Proof. unfold boot, init, try_catch. by destruct doc. Qed.

Lemma boot_EInv options doc faulty : EInv doc (boot options doc faulty).
Proof.
  intros i it Hit. rewrite boot_elements in Hit.
  apply list_elem_of_lookup_2 in Hit.
  apply tracked_item in Hit as (k & els & index & el & Hg & Hel & Hne & ->).
  apply list_elem_of_lookup_2 in Hel.
  destruct (slideGroups_sound _ _ _ _ Hg Hel) as [Hdoc Hk].
  split; [apply prefix_nil|]. split; [done|]. exists el. simpl. eauto.
Qed.

Lemma boot_HInv options doc faulty : HInv (boot options doc faulty).
Proof.
  intros i it h Hit. rewrite boot_elements in Hit.
  apply list_elem_of_lookup_2 in Hit.
  by apply tracked_item in Hit as (k & els & index & el & Hg & Hel & Hne & ->).
Qed.

Lemma reachable_EInv options doc faulty s :
  reachable options doc faulty s → EInv doc s.
Proof. apply stable_reachable; [apply EInv_stable|apply boot_EInv]. Qed.

Lemma reachable_HInv options doc faulty s :
  reachable options doc faulty s → HInv s.
Proof. apply stable_reachable; [apply HInv_stable|apply boot_HInv]. Qed.

(** ** Handlers that only schedule

    [typeText], the restart closure and the per-item start never touch a
    handle the host has already handed out: they add fresh timers and add
    their handles to [timeoutIds], nothing else. *)

Lemma extends_refl s : extends s s.
Proof. split; [lia|done]. Qed.

Lemma extends_trans s1 s2 s3 : extends s1 s2 → extends s2 s3 → extends s1 s3.
Proof.
  intros [Hle1 H1] [Hle2 H2]. split; [lia|]. intros h Hh.
  destruct (H1 h Hh) as [Ht1 Hi1]. destruct (H2 h) as [Ht2 Hi2]; [lia|].
  split; [congruence|tauto].
Qed.

Lemma extends_same s s' :
  nextTimer (host s') = nextTimer (host s) →
  timers (host s') = timers (host s) →
  timeoutIds (this s') = timeoutIds (this s) →
  extends s s'.
Proof. intros Hn Ht Hi. split; [lia|]. intros h _. by rewrite Ht, Hi. Qed.

(** Scheduling one timer and recording its handle. *)
Lemma extends_schedule s s' tm :
  nextTimer (host s') = Pos.succ (nextTimer (host s)) →
  timers (host s') = <[nextTimer (host s) := tm]> (timers (host s)) →
  timeoutIds (this s') = timeoutIds (this s) ∪ {[nextTimer (host s)]} →
  extends s s'.
Proof.
  intros Hn Ht Hi. split; [lia|]. intros h Hh. rewrite Ht, Hi. split.
  - apply lookup_insert_ne. lia.
  - rewrite elem_of_union, elem_of_singleton. split; [intros [?|?]; [done|lia]|auto].
Qed.

Lemma arm_one_extends sl s si : extends s (arm_one sl s si).
Proof. by eapply extends_schedule. Qed.

Lemma arm_fold_extends sl l s : extends s (foldl (arm_one sl) s l).
Proof.
  revert s. induction l as [|si l IH]; intros s; simpl; [apply extends_refl|].
  eapply extends_trans; [apply arm_one_extends|apply IH].
Qed.

Lemma typeText_extends i sl s s' : typeText_outcome i sl s s' → extends s s'.
Proof.
  destruct 1.
  - by apply extends_same.
  - apply extends_refl.
  - by eapply extends_schedule.
  - by apply extends_same.
  - by apply extends_same.
  - eapply extends_trans; [|apply arm_fold_extends]. by apply extends_same.
  - by apply extends_same.
Qed.

Lemma loopRestart_extends si sl s r s' : loopRestart_outcome si sl s r s' → extends s s'.
Proof.
  destruct 1.
  - apply extends_refl.
  - by eapply extends_schedule.
  - by apply extends_same.
Qed.

Lemma startItem_extends sl i s s' : startItem_outcome sl i s s' → extends s s'.
Proof.
  destruct 1.
  - by apply extends_same.
  - eapply extends_schedule; unfold started; simpl.
    + by rewrite shown_host.
    + rewrite !shown_host. reflexivity.
    + rewrite shown_host. unfold shown. by destruct (negb (isVisible it)).
  - apply extends_same; simpl; try (by rewrite shown_host).
    unfold shown. by destruct (negb (isVisible it)).
Qed.

Lemma settle_extends r s : extends s (settle r s).
Proof. destruct r; [apply extends_refl|by apply extends_same]. Qed.

(** A pending handle is one the host has handed out. *)
Lemma TInv_pending s id tm :
  TInv s → timers (host s) !! id = Some tm →
  (id < nextTimer (host s))%positive ∧ id ∈ timeoutIds (this s).
Proof.
  intros [Htr Hfr] Hid. split.
  - destruct (decide (id < nextTimer (host s))%positive) as [|Hge]; [done|].
    rewrite Hfr in Hid by lia. done.
  - apply Htr, elem_of_dom. eauto.
Qed.

(** Firing a timer takes its handle out of the table and leaves it in
    [timeoutIds]. *)
Lemma fire_keeps_handle s id tm :
  TInv s → next_timer (timers (host s)) = Some (id, tm) →
  timers (host (fire s)) !! id = None ∧ id ∈ timeoutIds (this (fire s)).
Proof.
  intros HI Hn.
  destruct (fire_cases s) as [[Hnone _]|(id' & tm' & Hn' & Hlk & Hcb)]; [congruence|].
  assert (id' = id ∧ tm' = tm) as [-> ->] by (split; congruence).
  destruct (TInv_pending s id tm HI Hlk) as [Hlt Hin].
  assert (extends (taken id tm s) (fire s)) as [_ Hext].
  { destruct (callback tm) as [i sl|si sl].
    - by eapply typeText_extends.
    - destruct Hcb as (r & s' & Ho & ->).
      eapply extends_trans; [by eapply loopRestart_extends|apply settle_extends]. }
  destruct (Hext id) as [Ht Hi]; [done|]. split.
  - rewrite Ht. simpl. apply lookup_delete_eq.
  - by apply Hi.
Qed.

(** ** The scenario of the specification: one slide, "Hi" and "Yo" *)

Lemma reachable_run options doc faulty evs :
  reachable options doc faulty (run evs (boot options doc faulty)).
Proof.
  unfold run. induction evs as [|ev evs IH] using rev_ind; simpl; [constructor|].
  rewrite foldl_app. simpl. by constructor.
Qed.

(** C4, the statement as written fails: after the first start timer has
    fired its handle is still in [timeoutIds] although it is no longer
    pending. *)
Lemma C4_fired_handle_stays_counterexample :
  let s := run [Scenario.visible_at 0; EvTimer] Scenario.s0 in
  reachable Scenario.options Scenario.doc ∅ s ∧
  1%positive ∈ timeoutIds (this s) ∧
  timers (host s) !! 1%positive = None ∧
  ¬ handles_exact s.
Proof.
  split; [apply reachable_run|].
  assert (1%positive ∈ timeoutIds (this (run [Scenario.visible_at 0; EvTimer] Scenario.s0))
          ∧ timers (host (run [Scenario.visible_at 0; EvTimer] Scenario.s0)) !! 1%positive = None)
    as [Hin Hout] by (split; vm_compute; [set_solver|done]).
  split; [done|]. split; [done|].
  unfold handles_exact. intros Heq. rewrite Heq in Hin.
  apply elem_of_dom in Hin as [tm Htm]. congruence.
Qed.

Lemma destroyed_idem s : destroyed (destroyed s) = destroyed s.
Proof.
  unfold destroyed at 1. simpl. rewrite cancel_all_empty.
  unfold destroyed, upd_timeoutIds. simpl. reflexivity.
Qed.

(** C8: [destroy] never throws; after it no timer the engine scheduled is
    pending and [timeoutIds] is empty; a second call changes nothing; on
    the freshly booted engine, where nothing was ever scheduled, it
    succeeds as well. *)
Theorem C8_destroy_idempotent options doc faulty s :
  reachable options doc faulty s →
  destroy s = (Ok tt, destroyed s) ∧
  timers (host (destroyed s)) = ∅ ∧
  timeoutIds (this (destroyed s)) = ∅ ∧
  destroy (destroyed s) = (Ok tt, destroyed s) ∧
  (destroy (boot options doc faulty)).1 = Ok tt.
Proof.
  intros Hr. pose proof (reachable_TInv _ _ _ _ Hr) as [Htr _].
  split; [apply destroy_run|]. split.
  - simpl. apply map_empty. intros id. apply map_lookup_filter_None.
    destruct (timers (host s) !! id) as [tm|] eqn:Hid; [right|by left].
    intros tm' _ Hnot. simpl in Hnot. apply Hnot, Htr, elem_of_dom. eauto.
  - split; [done|]. split; [|by rewrite destroy_run].
    rewrite destroy_run. by rewrite destroyed_idem.
Qed.

Lemma C8_destroy_idempotent_witness :
  let s := run [Scenario.visible_at 0; EvTimer] Scenario.s0 in
  timers (host s) ≠ ∅ ∧
  timers (host (destroyed s)) = ∅ ∧
  destroy (destroyed s) = (Ok tt, destroyed s).
Proof.
  split.
  - intros H. apply (f_equal (λ m, m !! 2%positive)) in H. vm_compute in H. discriminate.
  - pose proof (C8_destroy_idempotent Scenario.options Scenario.doc ∅
                  (run [Scenario.visible_at 0; EvTimer] Scenario.s0)
                  (reach_step _ _ _ _ _ (reach_step _ _ _ _ _ (reach_boot _ _ _))))
      as (_ & H2 & _ & H4 & _).
    split; [exact H2|exact H4].
Defined.

Lemma doc_id_inj (doc : list DomElement) el el' :
  NoDup (el_id <$> doc) → el ∈ doc → el' ∈ doc → el_id el = el_id el' → el = el'.
Proof.
  intros Hnd [i Hi]%list_elem_of_lookup [j Hj]%list_elem_of_lookup Heq.
  assert (i = j) as ->; [|congruence].
  eapply (NoDup_lookup _ i j (el_id el) Hnd).
  - by rewrite list_lookup_fmap, Hi.
  - rewrite list_lookup_fmap, Hj. simpl. by rewrite Heq.
Qed.

Lemma untouched_stable doc e0 kids :
  (∀ it, item_ok doc it → element it ≠ Some e0) → stable (untouched doc e0 kids).
Proof.
  intros Hno.
  assert (∀ s it i e, EInv doc s → elements (this s) !! i = Some it →
            element it = Some e → e ≠ e0) as Hne.
  { intros s it i e HI Hit He ->. by eapply Hno; [eapply HI|]. }
  pose proof (EInv_stable doc) as HE.
  split.
  - intros i sl s s' [HI Hs] Ho. split; [by eapply (st_typeText _ HE)|].
    destruct Ho; simpl; try done.
    + rewrite !lookup_insert_ne; [done|by eapply Hne..].
    + rewrite lookup_insert_ne; [done|by eapply Hne].
    + apply (foldl_inv (λ a, sinks (host a) !! e0 = Some kids)); [|done].
      simpl. rewrite lookup_insert_ne; [done|by eapply Hne].
  - intros si sl s r s' [HI Hs] Ho. split; [by eapply (st_loopRestart _ HE)|].
    destruct Ho; simpl; try done.
    rewrite lookup_insert_ne; [done|by eapply Hne].
  - intros sl i s s' [HI Hs] Ho. split; [by eapply (st_startItem _ HE)|].
    destruct Ho; simpl; rewrite ?shown_host; try done.
    rewrite lookup_insert_ne; [done|by eapply Hne].
  - intros i s r s' [HI Hs] Ho. split; [by eapply (st_clearLoop _ HE)|].
    by destruct Ho.
  - intros l msg s [HI Hs]. split; [by apply (st_log _ HE)|done].
  - intros t s [HI Hs]. split; [by apply (st_advance _ HE)|done].
  - intros id s [HI Hs]. split; [by apply (st_untimed _ HE)|done].
  - intros s [HI Hs]. split; [by apply (st_destroyed _ HE)|done].
Qed.

Lemma boot_sinks options doc faulty el :
  NoDup (el_id <$> doc) → el ∈ doc →
  sinks (host (boot options doc faulty)) !! el_id el = Some (el_children el).
Proof.
  intros Hnd Hel.
  assert (sinks (host (boot options doc faulty))
          = list_to_map ((λ el, (el_id el, el_children el)) <$> doc)) as ->.
  { unfold boot, init, try_catch. by destruct doc. }
  apply elem_of_list_to_map_1.
  - by rewrite <- list_fmap_compose.
  - apply list_elem_of_fmap. eauto.
Qed.

(** C10: an element whose directive is the empty string is not tracked: in
    no reachable state does a tracking object point to it, no pending timer
    targets it, and its children stay as the page delivered them, whatever
    its container. *)
Theorem C10_empty_directive_untracked options doc faulty el s :
  NoDup (el_id <$> doc) → el ∈ doc → data_typewriter el = [] →
  reachable options doc faulty s →
  (∀ i it, elements (this s) !! i = Some it → element it ≠ Some (el_id el)) ∧
  (∀ id tm, timers (host s) !! id = Some tm → timer_sink s tm ≠ Some (el_id el)) ∧
  sinks (host s) !! el_id el = Some (el_children el).
Proof.
  intros Hnd Hel Hempty Hr.
  assert (∀ it, item_ok doc it → element it ≠ Some (el_id el)) as Hno.
  { intros it (_ & Hne & el' & Hel' & He & Hfull & _) Heq.
    rewrite He in Heq. injection Heq as Heq.
    assert (el' = el) as -> by by eapply doc_id_inj.
    congruence. }
  pose proof (reachable_EInv _ _ _ _ Hr) as HI.
  assert (∀ i it, elements (this s) !! i = Some it → element it ≠ Some (el_id el)) as H1.
  { intros i it Hit. by eapply Hno, HI. }
  split; [done|]. split.
  - intros id tm _. unfold timer_sink.
    destruct (callback tm) as [i sl|i sl];
      (destruct (elements (this s) !! i) as [it|] eqn:Hit; simpl; [by eapply H1|done]).
  - eapply (stable_reachable (untouched doc (el_id el) (el_children el)));
      [by apply untouched_stable| |done].
    split; [apply boot_EInv|by apply boot_sinks].
Qed.

Lemma C10_empty_directive_untracked_witness :
  staggerIndex <$> elements (this EmptyDirective.s) = [0; 2]%nat ∧
  (∀ i it, elements (this EmptyDirective.s) !! i = Some it → element it ≠ Some 12%positive) ∧
  sinks (host EmptyDirective.s) !! 12%positive = Some [TextNode (js "...")].
Proof.
  split; [vm_compute; reflexivity|].
  assert (NoDup (el_id <$> EmptyDirective.doc)) as Hnd.
  { simpl. repeat (apply NoDup_cons; split; [set_solver|]). apply NoDup_nil_2. }
  assert (EmptyDirective.blank ∈ EmptyDirective.doc) as Hel.
  { unfold EmptyDirective.doc. set_solver. }
  pose proof (C10_empty_directive_untracked Scenario.options EmptyDirective.doc ∅
                EmptyDirective.blank EmptyDirective.s Hnd Hel eq_refl
                (reach_step _ _ _ _ _ (reach_step _ _ _ _ _ (reach_step _ _ _ _ _
                   (reach_boot _ _ _))))) as (H1 & _ & H3).
  split; [exact H1|exact H3].
Defined.

(** ** One step of [typeText] on the items *)

Lemma with_loopTimeout_id it : with_loopTimeout (loopTimeout it) it = it.
Proof. by destruct it. Qed.

Lemma arm_fold_lookup sl l s i it :
  elements (this s) !! i = Some it →
  ∃ h, elements (this (foldl (arm_one sl) s l)) !! i = Some (with_loopTimeout h it).
Proof.
  revert s it. induction l as [|si l IH]; intros s it Hit; simpl.
  - exists (loopTimeout it). by rewrite with_loopTimeout_id.
  - destruct (decide (i = si)) as [->|Hne].
    + destruct (IH (arm_one sl s si) (with_loopTimeout (Some (nextTimer (host s))) it))
        as [h Hh]; [|by exists h].
      simpl. by rewrite list_lookup_alter_eq, Hit.
    + apply IH. simpl. by rewrite list_lookup_alter_ne.
Qed.

(** What a step does to any item: its handle may change, or, for the item
    that is typed, one code unit of [fullText] is appended. *)
Lemma typeText_item j sl s s' i it :
  typeText_outcome j sl s s' → elements (this s) !! i = Some it →
  ∃ it', elements (this s') !! i = Some it' ∧
    ((∃ h, it' = with_loopTimeout h it) ∨
     (i = j ∧ isVisible it = true ∧ is_Some (element it) ∧
      ∃ c, fullText it !! length (currentText it) = Some c ∧
           it' = with_currentText (currentText it ++ [c]) it)).
Proof.
  intros Ho Hit.
  assert (∃ it', elements (this s) !! i = Some it' ∧ ∃ h, it' = with_loopTimeout h it) as Hsame.
  { exists it. split; [done|]. exists (loopTimeout it). by rewrite with_loopTimeout_id. }
  assert (∀ it0 e c, elements (this s) !! j = Some it0 → isVisible it0 = true →
            element it0 = Some e → fullText it0 !! length (currentText it0) = Some c →
    ∃ it', alter (with_currentText (currentText it0 ++ [c])) j (elements (this s)) !! i = Some it' ∧
      ((∃ h, it' = with_loopTimeout h it) ∨
       (i = j ∧ isVisible it = true ∧ is_Some (element it) ∧
        ∃ c, fullText it !! length (currentText it) = Some c ∧
             it' = with_currentText (currentText it ++ [c]) it))) as Htyped.
  { intros it0 e c Hj Hv He Hc. destruct (decide (i = j)) as [->|Hne].
    - assert (it0 = it) as -> by congruence.
      rewrite list_lookup_alter_eq, Hit. simpl. eexists; split; [done|]. right. eauto 10.
    - rewrite list_lookup_alter_ne by done. destruct Hsame as (it' & ? & ?). eauto. }
  destruct Ho; simpl; [by destruct Hsame as (it' & ? & ?); eauto..| |];
    [|by destruct Hsame as (it' & ? & ?); eauto].
  destruct (arm_fold_lookup sl sl (st_write e (text_children (fullText it0)) s) i it Hit)
    as [h Hh]. eauto.
Qed.

Lemma typeText_progress i sl s s' it c :
  typeText_outcome i sl s s' → elements (this s) !! i = Some it →
  isVisible it = true → is_Some (element it) →
  fullText it !! length (currentText it) = Some c →
  elements (this s') !! i = Some (with_currentText (currentText it ++ [c]) it).
Proof.
  intros Ho Hit Hv [e He] Hc. apply lookup_lt_Some in Hc as Hlt.
  destruct Ho; simpl; try congruence.
  - destruct H0; congruence.
  - assert (it0 = it) as -> by congruence.
    rewrite list_lookup_alter_eq, Hit. simpl. do 2 f_equal. congruence.
  - assert (it0 = it) as -> by congruence.
    rewrite list_lookup_alter_eq, Hit. simpl. do 2 f_equal. congruence.
  - assert (it0 = it) as -> by congruence. lia.
  - assert (it0 = it) as -> by congruence. lia.
  - assert (it0 = it) as -> by congruence. lia.
Qed.

(** ** What the sinks show *)

Lemma typed_sinks i sl it e c s :
  sinks (host (typed i sl it e c s))
  = <[e := [TextNode (currentText it ++ [c]);
            SpanNode cursor_class (cursorChar (this s))]]> (sinks (host s)).
Proof.
  simpl. rewrite lookup_insert_eq. simpl. rewrite insert_insert_eq.
  by destruct (currentText it).
Qed.

Lemma arm_fold_host_frame sl l s :
  sinks (host (foldl (arm_one sl) s l)) = sinks (host s) ∧
  cursorChar (this (foldl (arm_one sl) s l)) = cursorChar (this s).
Proof.
  revert s. induction l as [|si l IH]; intros s; simpl; [done|].
  destruct (IH (arm_one sl s si)) as [-> ->]. done.
Qed.

(** A step changes at most the sink of its item, to one of the two shapes
    of the contract or, for an empty full text, to nothing. *)
Lemma typeText_sinks i sl s s' e kids :
  typeText_outcome i sl s s' →
  (∀ j it, elements (this s') !! j = Some it → currentText it `prefix_of` fullText it) →
  sinks (host s') !! e = Some kids →
  sinks (host s) !! e = Some kids ∨ write_contract s' e kids ∨ kids = [].
Proof.
  intros Ho Hpre Hk. destruct Ho; try (by left).
  - rewrite typed_sinks in Hk. destruct (decide (e0 = e)) as [->|Hne].
    + rewrite lookup_insert_eq in Hk. injection Hk as <-. right. left. left.
      exists i, (with_currentText (currentText it ++ [c]) it).
      assert (elements (this (typed i sl it e c s)) !! i
              = Some (with_currentText (currentText it ++ [c]) it)) as Hi.
      { simpl. by rewrite list_lookup_alter_eq, H. }
      split; [done|]. split; [done|]. split; [by eapply Hpre|done].
    + rewrite lookup_insert_ne in Hk by done. by left.
  - simpl in Hk. destruct (decide (e0 = e)) as [->|Hne].
    + rewrite lookup_insert_eq in Hk. injection Hk as <-.
      destruct (fullText it) as [|c r] eqn:Hf; [by right; right|].
      right. left. right. exists i, it. simpl. by rewrite Hf.
    + rewrite lookup_insert_ne in Hk by done. by left.
  - destruct (arm_fold_host_frame sl sl (st_write e0 (text_children (fullText it)) s))
      as [Hs Hc]. rewrite Hs in Hk. simpl in Hk.
    destruct (decide (e0 = e)) as [->|Hne].
    + rewrite lookup_insert_eq in Hk. injection Hk as <-.
      destruct (fullText it) as [|c r] eqn:Hf; [by right; right|].
      right. left. right.
      destruct (arm_fold_lookup sl sl (st_write e (text_children (fullText it)) s) i it)
        as [h Hh]; [done|].
      exists i, (with_loopTimeout h it). rewrite Hf in Hh. rewrite Hh. simpl. by rewrite Hf.
    + rewrite lookup_insert_ne in Hk by done. by left.
Qed.

Lemma cleared_only_refl s : cleared_only s s.
Proof. intros e kids. by left. Qed.

Lemma cleared_only_write s0 s s' e :
  sinks (host s') = <[e := []]> (sinks (host s)) →
  cleared_only s0 s → cleared_only s0 s'.
Proof.
  intros Hs H e' kids. rewrite Hs. destruct (decide (e = e')) as [->|Hne].
  - rewrite lookup_insert_eq. intros [= <-]. by right.
  - rewrite lookup_insert_ne by done. apply H.
Qed.

Lemma cleared_only_same s0 s s' :
  sinks (host s') = sinks (host s) → cleared_only s0 s → cleared_only s0 s'.
Proof. intros Hs H e kids. rewrite Hs. apply H. Qed.

Lemma loopRestart_sinks si sl s r s' :
  loopRestart_outcome si sl s r s' → cleared_only s s'.
Proof.
  destruct 1.
  - apply cleared_only_refl.
  - by eapply (cleared_only_write s s), cleared_only_refl.
  - by eapply (cleared_only_same s s), cleared_only_refl.
Qed.

Lemma observer_sinks entries s : cleared_only s (host_run (observerCallback entries) s).
Proof.
  apply (observer_inv (cleared_only s)); [| |apply cleared_only_refl].
  - intros sl i a b Ha Ho. destruct Ho.
    + by apply (cleared_only_same s a).
    + apply (cleared_only_write s a _ e); [|done]. simpl. by rewrite shown_host.
    + apply (cleared_only_same s a); [|done]. simpl. by rewrite shown_host.
  - intros i a r b Ha Ho. destruct Ho; by apply (cleared_only_same s a).
Qed.

(** C7, the statement as written fails: when the slide becomes visible the
    sink of "Hi", which showed the page's own text, is emptied; the new
    content is neither a prefix followed by the cursor nor the full text. *)
Lemma C7_reset_write_counterexample :
  let s := Scenario.s0 in
  let s' := dispatch (Scenario.visible_at 0) s in
  sinks (host s) !! Scenario.el0 = Some [TextNode (js "Hi")] ∧
  sinks (host s') !! Scenario.el0 = Some [] ∧
  ¬ write_contract s' Scenario.el0 [].
Proof.
  split; [reflexivity|]. split; [reflexivity|].
  intros [(i & it & _ & _ & _ & H)|(i & it & _ & _ & H)]; discriminate.
Qed.

(** ** A visibility trigger stays inside its slide *)

Lemma within_slide_refl target s : within_slide target s s.
Proof. split; [done|]. intros id tm. by left. Qed.

Lemma within_slide_start target s a b i :
  i ∈ slide_items target (elements (this s)) →
  within_slide target s a →
  startItem_outcome (slide_items target (elements (this s))) i a b →
  within_slide target s b.
Proof.
  intros (it0 & Hit0 & Hs0)%slide_items_spec [Hel Htm] Ho.
  assert (∀ j it, elements (this s) !! j = Some it → slideElement it ≠ target → j ≠ i)
    as Hne by (intros j it Hj Hs ->; congruence).
  assert (∀ it1 j it, elements (this s) !! j = Some it → slideElement it ≠ target →
            elements (this (shown i it1 a)) !! j = Some it) as Hshown.
  { intros it1 j it Hj Hs. unfold shown. destruct (negb (isVisible it1)); [|by apply Hel].
    simpl. rewrite list_lookup_alter_ne; [by apply Hel|]. intros ->. by eapply Hne. }
  destruct Ho as [Hn|it e Hit He Hb|it Hit Hthrow].
  - split; [done|]. intros id tm. apply Htm.
  - split.
    + intros j it' Hj Hs. simpl. rewrite list_lookup_alter_ne; [by apply Hshown|].
      intros ->. by eapply Hne.
    + intros id tm. unfold started. simpl. rewrite !shown_host.
      destruct (decide (id = nextTimer (host a))) as [->|Hid].
      * rewrite lookup_insert_eq. intros [= <-]. right. simpl. eauto.
      * rewrite lookup_insert_ne by done. apply Htm.
  - split.
    + intros j it' Hj Hs. simpl. rewrite list_lookup_alter_ne; [by apply Hshown|].
      intros ->. by eapply Hne.
    + intros id tm. simpl. rewrite shown_host. apply Htm.
Qed.

Lemma within_slide_clear target s a b i r :
  within_slide target s a → clearLoop_outcome i a r b → within_slide target s b.
Proof.
  intros [Hel Htm] Ho. destruct Ho; [done| |done].
  split; [done|]. intros id' tm. simpl.
  intros [_ Hlk]%lookup_delete_Some. by apply Htm.
Qed.

Lemma single_entry entry s :
  host_run (observerCallback [entry]) s = (onEntry entry s).2.
Proof.
  unfold host_run, observerCallback. simpl. unfold bind.
  pose proof (onEntry_ok entry s) as H.
  destruct (onEntry entry s) as [r s']. simpl in *. by subst r.
Qed.

(** C9: when one slide is reported as intersecting, the tracking objects
    of every other slide are exactly as before, and every timer the
    trigger adds runs [typeText] on an item whose container is the
    triggered slide. *)
Theorem C9_group_isolation t target s :
  let s' := dispatch (EvIntersect t [(target, true)]) s in
  (∀ j it, elements (this s) !! j = Some it → slideElement it ≠ target →
           elements (this s') !! j = Some it ∧
           currentText <$> elements (this s') !! j = Some (currentText it)) ∧
  (∀ id tm, timers (host s') !! id = Some tm →
     timers (host s) !! id = Some tm ∨
     ∃ i it, callback tm = CbTypeText i (slide_items target (elements (this s))) ∧
             elements (this s) !! i = Some it ∧ slideElement it = target).
Proof.
  simpl. rewrite single_entry.
  destruct (onEntry_intersecting target (advance t s)) as (s1 & s2 & -> & Hc1 & Hc2).
  simpl in *.
  assert (within_slide target s s2) as [Hel Htm].
  { eapply (chain_inv _ _ _ _ _ Hc2).
    - eapply (chain_inv _ _ _ _ _ Hc1); [apply (within_slide_refl target s)|].
      intros i a b _ Ha Ho. by eapply within_slide_clear.
    - intros i a b Hi Ha Ho. by eapply within_slide_start. }
  split; [|done]. intros j it Hj Hs.
  specialize (Hel j it Hj Hs). split; [done|]. by rewrite Hel.
Qed.

Lemma C9_group_isolation_witness :
  let s' := dispatch (EvIntersect 3 [(1%positive, true)]) TwoSlides.s in
  currentText <$> elements (this s') !! 1%nat = Some (js "Y") ∧
  callback <$> timers (host s') !! 3%positive = Some (CbTypeText 0 [0%nat]).
Proof.
  destruct (C9_group_isolation 3 1%positive TwoSlides.s) as [Hel Htm].
  split.
  - apply (Hel 1%nat (mkItem (Some 21%positive) (js "Yo") (js "Yo") (js "Y") false true
                             2%positive 0 None)); [reflexivity|discriminate].
  - reflexivity.
Defined.

(** ** A visibility trigger, item by item *)

Lemma with_isVisible_true it : isVisible it = true → with_isVisible true it = it.
Proof. destruct it; simpl. by intros ->. Qed.

Lemma shown_lookup j it a :
  elements (this a) !! j = Some it →
  alter (with_currentText []) j (elements (this (shown j it a))) !! j
  = Some (restart_item it).
Proof.
  intros Hit. rewrite list_lookup_alter_eq. unfold shown, restart_item.
  destruct (isVisible it) eqn:Hv; simpl.
  - rewrite Hit. simpl. by rewrite with_isVisible_true.
  - by rewrite list_lookup_alter_eq, Hit.
Qed.

Lemma shown_lookup_ne i j it a :
  i ≠ j →
  alter (with_currentText []) j (elements (this (shown j it a))) !! i
  = elements (this a) !! i.
Proof.
  intros Hne. rewrite list_lookup_alter_ne by done. unfold shown.
  destruct (negb (isVisible it)); [|done]. simpl. by rewrite list_lookup_alter_ne.
Qed.

(** [startItem] in terms of what can be observed of the state. *)
Lemma startItem_summary sl j a b :
  startItem_outcome sl j a b →
  now (host b) = now (host a) ∧
  staggerDelay (this b) = staggerDelay (this a) ∧
  broken (host b) = broken (host a) ∧
  (∀ i, i ≠ j → elements (this b) !! i = elements (this a) !! i) ∧
  (∀ it, elements (this a) !! j = Some it →
         elements (this b) !! j = Some (restart_item it)) ∧
  ((∃ it e, elements (this a) !! j = Some it ∧ element it = Some e ∧
      (e ∉ broken (host a)) ∧
      sinks (host b) = <[e := []]> (sinks (host a)) ∧
      timers (host b) = <[nextTimer (host a) :=
                           mkTimer (now (host a) + N.of_nat (staggerIndex it) * staggerDelay (this a))
                                   (CbTypeText j sl)]> (timers (host a)) ∧
      nextTimer (host b) = Pos.succ (nextTimer (host a)) ∧
      timeoutIds (this b) = timeoutIds (this a) ∪ {[nextTimer (host a)]}) ∨
   (sinks (host b) = sinks (host a) ∧ timers (host b) = timers (host a) ∧
    nextTimer (host b) = nextTimer (host a) ∧
    timeoutIds (this b) = timeoutIds (this a) ∧
    ∀ it e, elements (this a) !! j = Some it → element it = Some e →
            e ∈ broken (host a))).
Proof.
  assert (∀ it, timeoutIds (this (shown j it a)) = timeoutIds (this a)) as Hids.
  { intros it. unfold shown. by destruct (negb (isVisible it)). }
  assert (∀ it, staggerDelay (this (shown j it a)) = staggerDelay (this a)) as Hsd.
  { intros it. unfold shown. by destruct (negb (isVisible it)). }
  destruct 1 as [Hn|it e Hit He Hb|it Hit Hthrow].
  - simpl. split_and!; try done.
    + intros it Hit. congruence.
    + right. split_and!; try done. intros it e Hit. congruence.
  - unfold started. simpl. rewrite !shown_host, Hsd, Hids. split_and!; try done.
    + intros i Hi. by apply shown_lookup_ne.
    + intros it' Hit'. assert (it' = it) as -> by congruence. by apply shown_lookup.
    + left. exists it, e. by split_and!.
  - simpl. rewrite !shown_host, Hsd, Hids. split_and!; try done.
    + intros i Hi. by apply shown_lookup_ne.
    + intros it' Hit'. assert (it' = it) as -> by congruence. by apply shown_lookup.
    + right. split_and!; try done. intros it' e Hit' He.
      assert (it' = it) as -> by congruence.
      destruct Hthrow as [Hnone|(e' & He' & Hb)]; congruence.
Qed.

Lemma start_frame_refl s : start_frame s s.
Proof. split_and!; try done. intros j it Hj. by exists it. Qed.

Lemma start_frame_step sl j s a b :
  start_frame s a → startItem_outcome sl j a b → start_frame s b.
Proof.
  intros (Hn & Hsd & Hb & Hel) Ho.
  destruct (startItem_summary sl j a b Ho) as (Hn' & Hsd' & Hb' & Hne & Heq & _).
  split_and!; try congruence.
  intros i it Hi. destruct (Hel i it Hi) as (it' & Hit' & He & Hidx).
  destruct (decide (i = j)) as [->|Hij].
  - exists (restart_item it'). split; [by apply Heq|done].
  - exists it'. split; [|done]. by rewrite Hne.
Qed.

Lemma restarted_ok_keep sl j s a b it i :
  start_frame s a → startItem_outcome sl j a b →
  restarted_ok sl (now (host s)) (staggerDelay (this s)) (broken (host s)) it i a →
  restarted_ok sl (now (host s)) (staggerDelay (this s)) (broken (host s)) it i b.
Proof.
  intros (Hn & Hsd & Hb & Hel) Ho (it' & Hit' & Hcur & Hvis & Hsink).
  destruct (startItem_summary sl j a b Ho) as (_ & _ & _ & Hne & Heq & Hcase).
  assert (∃ it'', elements (this b) !! i = Some it'' ∧
            currentText it'' = [] ∧ isVisible it'' = true) as (it'' & Hit'' & Hcur' & Hvis').
  { destruct (decide (i = j)) as [->|Hij].
    - exists (restart_item it'). split; [by apply Heq|done].
    - exists it'. split; [by rewrite Hne|done]. }
  exists it''. split_and!; try done.
  intros e He Hbe. destruct (Hsink e He Hbe) as (Hs & id & Hlt & Hid & Hin).
  destruct Hcase as [(itj & ej & _ & _ & _ & Hs' & Ht' & Hn' & Hi')
                    |(Hs' & Ht' & Hn' & Hi' & _)].
  - split.
    + rewrite Hs'. destruct (decide (ej = e)) as [->|Hne'].
      * apply lookup_insert_eq.
      * by rewrite lookup_insert_ne.
    + exists id. rewrite Hn', Ht', Hi'. split_and!; [lia| |set_solver].
      rewrite lookup_insert_ne; [done|lia].
  - rewrite Hs', Ht', Hn', Hi'. eauto.
Qed.

Lemma restarted_ok_new sl j s a b it :
  start_frame s a → elements (this s) !! j = Some it →
  startItem_outcome sl j a b →
  restarted_ok sl (now (host s)) (staggerDelay (this s)) (broken (host s)) it j b.
Proof.
  intros (Hn & Hsd & Hb & Hel) Hj Ho.
  destruct (Hel j it Hj) as (ita & Hita & He & Hidx).
  destruct (startItem_summary sl j a b Ho) as (_ & _ & _ & _ & Heq & Hcase).
  exists (restart_item ita). split_and!; [by apply Heq|done..|].
  intros e Hel' Hbe.
  destruct Hcase as [(itj & ej & Hitj & Hej & _ & Hs' & Ht' & Hn' & Hi')
                    |(_ & _ & _ & _ & Hbroken)].
  - assert (itj = ita) as -> by congruence.
    assert (ej = e) as -> by congruence.
    split; [rewrite Hs'; apply lookup_insert_eq|].
    exists (nextTimer (host a)). rewrite Hn', Ht', Hi'. split_and!; [lia| |set_solver].
    rewrite lookup_insert_eq. by rewrite Hn, Hsd, Hidx.
  - exfalso. apply Hbe. rewrite <- Hb. apply (Hbroken ita e Hita). congruence.
Qed.

Lemma cleared_step s done i a b :
  cleared s done a → clearLoop_outcome i a (Ok tt) b → cleared s (done ++ [i]) b.
Proof.
  intros (Hel & Hn & Hnow & Hsd & Hb & Hdone) Ho. inversion Ho as [|it id Hit Hl|it Hit Hl]; subst.
  - simpl. split_and!; try done.
    intros j it' h [Hj| ->%list_elem_of_singleton]%elem_of_app Hit' Hh.
    + destruct (Hdone j it' h Hj Hit' Hh) as [Ht Hi]. split.
      * apply lookup_delete_None. by right.
      * set_solver.
    + assert (it' = it) as -> by congruence.
      assert (h = id) as -> by congruence. split.
      * apply lookup_delete_eq.
      * set_solver.
  - split_and!; try done.
    intros j it' h [Hj| ->%list_elem_of_singleton]%elem_of_app Hit' Hh.
    + by apply (Hdone j it' h).
    + assert (it' = it) as -> by congruence. congruence.
Qed.

Lemma start_chain_extends sl l a b : chain (startItem_outcome sl) l a b → extends a b.
Proof.
  intros Hch. eapply (chain_inv (extends a) _ _ _ _ Hch); [apply extends_refl|].
  intros i x y _ Hx Ho. eapply extends_trans; [done|by eapply startItem_extends].
Qed.

(** ** Restart timers and the handles the items remember

    The host fires timers in order of due time and creation, and the
    timers of one arming round are created in a row with one due time.
    Hence, between the restart of one item of a slide and that of the
    next, no [typeText] step of the slide can run, and a pending restart
    timer is always the one its item remembers in [loopTimeout]. *)

Lemma earlier_spec a b :
  earlier a b = true ↔ due a.2 < due b.2 ∨ (due a.2 = due b.2 ∧ (a.1 < b.1)%positive).
Proof.
  unfold earlier. rewrite orb_true_iff, andb_true_iff, N.ltb_lt, N.eqb_eq, Pos.ltb_lt. tauto.
Qed.

Lemma earlier_asym a b : earlier a b = true → earlier b a = true → False.
Proof. rewrite !earlier_spec. lia. Qed.

Lemma earlier_trans a b c : earlier a b = true → earlier b c = true → earlier a c = true.
Proof. rewrite !earlier_spec. lia. Qed.

Lemma earlier_total a b : a.1 ≠ b.1 → earlier a b = true ∨ earlier b a = true.
Proof. rewrite !earlier_spec. lia. Qed.

Lemma NoDup_fst_inj {A B} (l : list (A * B)) x y1 y2 :
  NoDup l.*1 → (x, y1) ∈ l → (x, y2) ∈ l → y1 = y2.
Proof.
  intros Hnd [i Hi]%list_elem_of_lookup [j Hj]%list_elem_of_lookup.
  assert (i = j) as ->; [|congruence].
  eapply (NoDup_lookup _ i j x Hnd); rewrite list_lookup_fmap.
  - by rewrite Hi.
  - by rewrite Hj.
Qed.

Lemma pick_min (l : list (positive * Timer)) x :
  NoDup l.*1 → foldr pick None l = Some x →
  x ∈ l ∧ ∀ z, z ∈ l → z.1 ≠ x.1 → earlier x z = true.
Proof.
  revert x. induction l as [|a l IH]; intros x Hnd; [done|].
  rewrite fmap_cons in Hnd. apply NoDup_cons in Hnd as [Ha Hnd]. simpl.
  destruct (foldr pick None l) as [y|] eqn:Hy; simpl.
  - destruct (IH y Hnd eq_refl) as [Hyl Hmin].
    assert (a.1 ≠ y.1) as Hay.
    { intros Heq. apply Ha. apply list_elem_of_fmap. exists y. by split. }
    destruct (earlier y a) eqn:Hya; intros [= <-].
    + split; [by right|]. intros z [->|Hz]%elem_of_cons Hzne; [done|by apply Hmin].
    + destruct (earlier_total a y Hay) as [Hlt|Hlt]; [|congruence].
      split; [left|]. intros z [->|Hz]%elem_of_cons Hzne; [done|].
      destruct (decide (z.1 = y.1)) as [Heq|Hne'].
      * assert (z = y) as ->; [|done].
        destruct z as [zi zt], y as [yi yt]. simpl in Heq. subst zi. f_equal.
        by eapply (NoDup_fst_inj l yi).
      * eapply earlier_trans; [exact Hlt|]. by apply Hmin.
  - intros [= <-].
    destruct l as [|z l];
      [|simpl in Hy; destruct (foldr pick None l) as [w|]; simpl in Hy;
        [destruct (earlier w z)|]; done].
    split; [left|]. intros z ->%list_elem_of_singleton. done.
Qed.

(** The timer the host fires next comes before every other pending one. *)
Lemma next_timer_min ts id tm id' tm' :
  next_timer ts = Some (id, tm) → ts !! id' = Some tm' → id' ≠ id →
  earlier (id, tm) (id', tm') = true.
Proof.
  intros Hn Hlk%elem_of_map_to_list Hne.
  destruct (pick_min (map_to_list ts) (id, tm)) as [_ Hmin].
  - apply NoDup_fst_map_to_list.
  - exact Hn.
  - by apply (Hmin (id', tm')).
Qed.

Lemma grp_spec sk target j : j ∈ grp sk target ↔ sk !! j = Some target.
Proof.
  unfold grp. rewrite list_elem_of_filter, elem_of_seq. split; [tauto|].
  intros H. split; [done|]. apply lookup_lt_Some in H. lia.
Qed.

Lemma grp_NoDup sk target : NoDup (grp sk target).
Proof. apply NoDup_filter, NoDup_seq. Qed.

(** Two slides share no item. *)
Lemma grp_same sk t1 t2 j : j ∈ grp sk t1 → j ∈ grp sk t2 → t1 = t2.
Proof. rewrite !grp_spec. congruence. Qed.

(** Removing timers and letting time pass keeps the invariant. *)
Lemma LInvV_weaken ts ts' now now' hs sk :
  LInvV ts now hs sk → ts' ⊆ ts → now ≤ now' → LInvV ts' now' hs sk.
Proof.
  intros [Hwf Htr Hfi Hba] Hsub Hnow.
  assert (∀ id tm, ts' !! id = Some tm → ts !! id = Some tm) as Hlk.
  { intros id tm H. by eapply lookup_weaken. }
  split.
  - intros id tm H. by apply (Hwf id), Hlk.
  - intros id tm si sl H. by apply Htr, Hlk.
  - intros id tm si sl j H Hcb Hj Hh.
    destruct (Hfi id tm si sl j (Hlk _ _ H) Hcb Hj Hh) as [Hd Hlat].
    split; [lia|]. intros id' tm' sl' H'. by apply Hlat, Hlk.
  - intros id1 tm1 s1 id2 tm2 s2 sl H1 H2 Hc1 Hc2.
    destruct (Hba id1 tm1 s1 id2 tm2 s2 sl (Hlk _ _ H1) (Hlk _ _ H2) Hc1 Hc2) as [Hd Hbe].
    split; [done|]. intros id' tm' Hl1 Hl2 H'. by apply (Hbe id' tm' Hl1 Hl2), Hlk.
Qed.

(** While a restart timer of its slide is pending, an item that runs
    [typeText] still remembers a handle. *)
Lemma LInvV_stepping ts now hs sk id tm i sl idL tmL si slL :
  LInvV ts now hs sk →
  ts !! id = Some tm → callback tm = CbTypeText i sl →
  (∀ id' tm', ts !! id' = Some tm' → id' ≠ id → earlier (id, tm) (id', tm') = true) →
  ts !! idL = Some tmL → callback tmL = CbLoopRestart si slL → i ∈ slL →
  hs !! i ≠ Some None.
Proof.
  intros [Hwf Htr Hfi Hba] Hid Hcb Hmin HL HcL Hi Hnone.
  destruct (Hfi idL tmL si slL i HL HcL Hi Hnone) as [_ Hlat].
  pose proof (Hlat id tm sl Hid Hcb) as H1.
  assert (idL ≠ id) as Hne by (intros ->; congruence).
  pose proof (Hmin idL tmL HL Hne) as H2.
  by eapply earlier_asym.
Qed.

(** A fresh [typeText] timer for item [i]. *)
Lemma LInvV_add_type ts now hs sk n due i sl :
  LInvV ts now hs sk →
  (∀ id tm, ts !! id = Some tm → (id < n)%positive) →
  wf_cb sk (CbTypeText i sl) →
  (∀ idL tmL si slL, ts !! idL = Some tmL → callback tmL = CbLoopRestart si slL →
                     i ∈ slL → hs !! i ≠ Some None) →
  LInvV (<[n := mkTimer due (CbTypeText i sl)]> ts) now hs sk.
Proof.
  intros [Hwf Htr Hfi Hba] Hfresh Hwfn Hcond.
  assert (ts !! n = None) as Hn.
  { destruct (ts !! n) as [tm|] eqn:H; [|done]. specialize (Hfresh n tm H). lia. }
  assert (∀ id tm, <[n := mkTimer due (CbTypeText i sl)]> ts !! id = Some tm →
            (id = n ∧ tm = mkTimer due (CbTypeText i sl)) ∨ (id ≠ n ∧ ts !! id = Some tm)) as Hlk.
  { intros id tm. rewrite lookup_insert. case_decide; [intros [= <-]; by left|by right]. }
  split.
  - intros id tm [[-> ->]|[_ H]]%Hlk; [done|by eapply Hwf].
  - intros id tm si sl0 [[-> ->]|[_ H]]%Hlk Hcb; [done|by eapply Htr].
  - intros id tm si sl0 j [[-> ->]|[_ H]]%Hlk Hcb Hj Hh; [done|].
    destruct (Hfi id tm si sl0 j H Hcb Hj Hh) as [Hd Hlat]. split; [done|].
    intros id' tm' sl' [[-> ->]|[_ H']]%Hlk Hcb'; [|by eapply Hlat].
    simpl in Hcb'. injection Hcb' as <- <-. exfalso. by eapply Hcond.
  - intros id1 tm1 s1 id2 tm2 s2 sl0 [[-> ->]|[_ H1]]%Hlk [[-> ->]|[_ H2]]%Hlk Hc1 Hc2;
      try done.
    destruct (Hba id1 tm1 s1 id2 tm2 s2 sl0 H1 H2 Hc1 Hc2) as [Hd Hbe]. split; [done|].
    intros id' tm' Hl1 Hl2 [[-> ->]|[_ H']]%Hlk; [|by eapply Hbe].
    specialize (Hfresh id2 tm2 H2). lia.
Qed.

Lemma wf_cb_same sk i sl : wf_cb sk (CbLoopRestart i sl) ↔ wf_cb sk (CbTypeText i sl).
Proof. done. Qed.

(** Two callbacks of one slide capture the same list. *)
Lemma wf_cb_group sk i sl j sl' :
  (∃ t, sk !! i = Some t ∧ sl = grp sk t) →
  (∃ t, sk !! j = Some t ∧ sl' = grp sk t) →
  j ∈ sl → sl' = sl.
Proof.
  intros (t & Hi & ->) (t' & Hj & ->) Hin. apply grp_spec in Hin.
  assert (t' = t) as -> by congruence. done.
Qed.

(** The restart closure of the timer the host picked. *)
Lemma LInvV_restart ts now now' hs sk id0 tm0 si sl n due' :
  LInvV ts now hs sk →
  (∀ id tm, ts !! id = Some tm → (id < n)%positive) →
  ts !! id0 = Some tm0 → callback tm0 = CbLoopRestart si sl →
  (∀ id' tm', ts !! id' = Some tm' → id' ≠ id0 → earlier (id0, tm0) (id', tm') = true) →
  now ≤ now' → due tm0 ≤ now' → now' ≤ due' →
  LInvV (<[n := mkTimer due' (CbTypeText si sl)]> (delete id0 ts)) now'
        (<[si := None]> hs) sk.
Proof.
  intros [Hwf Htr Hfi Hba] Hfresh H0 Hcb0 Hmin Hnow Hdue Hdue'.
  assert (∀ id tm, <[n := mkTimer due' (CbTypeText si sl)]> (delete id0 ts) !! id = Some tm →
            (id = n ∧ tm = mkTimer due' (CbTypeText si sl)) ∨
            (id ≠ n ∧ id ≠ id0 ∧ ts !! id = Some tm)) as Hlk.
  { intros id tm. rewrite lookup_insert. case_decide; [intros [= <-]; by left|].
    intros [? ?]%lookup_delete_Some. right. auto. }
  pose proof (Hwf id0 tm0 H0) as Hwf0. rewrite Hcb0 in Hwf0.
  pose proof (Htr id0 tm0 si sl H0 Hcb0) as Hsi.
  assert (si < length hs)%nat as Hlen by by eapply lookup_lt_Some.
  split.
  - intros id tm [[-> ->]|(_ & _ & H)]%Hlk; [done|by eapply Hwf].
  - intros id tm sL slL [[-> ->]|(_ & Hne & H)]%Hlk Hcb; [done|].
    pose proof (Htr id tm sL slL H Hcb) as HsL.
    destruct (decide (sL = si)) as [->|Hsne]; [congruence|].
    by rewrite list_lookup_insert_ne.
  - intros id tm sL slL j [[-> ->]|(_ & Hne & H)]%Hlk Hcb Hj Hh; [done|].
    destruct (decide (j = si)) as [->|Hjne].
    + pose proof (Hwf id tm H) as HwfL. rewrite Hcb in HwfL.
      assert (sl = slL) as <-.
      { destruct Hwf0 as (t0 & Ht0 & ->). destruct HwfL as (tL & HtL & ->).
        apply grp_spec in Hj. congruence. }
      destruct (Hba id0 tm0 si id tm sL sl H0 H Hcb0 Hcb) as [Hd Hbe].
      pose proof (Hmin id tm H Hne) as HL. apply earlier_spec in HL. simpl in HL.
      split; [lia|].
      intros id' tm' sl' [[-> ->]|(_ & Hne' & H')]%Hlk Hcb'.
      * apply earlier_spec. simpl. specialize (Hfresh id tm H). lia.
      * pose proof (Hmin id' tm' H' Hne') as HX. apply earlier_spec in HX. simpl in HX.
        apply earlier_spec. simpl.
        destruct (decide (due tm0 < due tm')) as [|Hnlt]; [lia|]. right. split; [lia|].
        destruct (decide (id < id')%positive) as [|Hge]; [done|].
        assert (id' ≠ id) as Hidne by (intros ->; congruence).
        destruct (Hbe id' tm') as (s' & sl'' & Hloop); [lia|lia|done|congruence].
    + rewrite list_lookup_insert_ne in Hh by done.
      destruct (Hfi id tm sL slL j H Hcb Hj Hh) as [Hd Hlat]. split; [lia|].
      intros id' tm' sl' [[-> ->]|(_ & Hne' & H')]%Hlk Hcb'; [|by eapply Hlat].
      simpl in Hcb'. congruence.
  - intros id1 tm1 s1 id2 tm2 s2 sl0 [[-> ->]|(_ & _ & H1)]%Hlk [[-> ->]|(_ & _ & H2)]%Hlk
           Hc1 Hc2; try done.
    destruct (Hba id1 tm1 s1 id2 tm2 s2 sl0 H1 H2 Hc1 Hc2) as [Hd Hbe]. split; [done|].
    intros id' tm' Hl1 Hl2 [[-> ->]|(_ & _ & H')]%Hlk; [|by eapply Hbe].
    specialize (Hfresh id2 tm2 H2). lia.
Qed.

Lemma armed_batch_nil sl D ts n hs :
  (∀ id tm, ts !! id = Some tm → (id < n)%positive) →
  armed_batch sl D ts n hs [] ts n hs.
Proof.
  intros Hfresh. split.
  - lia.
  - done.
  - done.
  - intros id tm H. by left.
  - done.
  - intros j Hj. by apply elem_of_nil in Hj.
  - done.
Qed.

Lemma armed_batch_snoc sl D ts n hs l x ts1 n1 hs1 :
  armed_batch sl D ts n hs l ts1 n1 hs1 →
  x ∉ l → (x < length hs)%nat →
  armed_batch sl D ts n hs (l ++ [x])
    (<[n1 := mkTimer D (CbLoopRestart x sl)]> ts1) (Pos.succ n1) (<[x := Some n1]> hs1).
Proof.
  intros [Hn Hfr Hold Hts Hoth Hset Hlen] Hx Hxl.
  assert (ts1 !! n1 = None) as Hn1.
  { destruct (ts1 !! n1) as [tm|] eqn:H; [|done]. specialize (Hfr n1 tm H). lia. }
  split.
  - lia.
  - intros id tm. rewrite lookup_insert. case_decide; [intros _; lia|].
    intros H'. specialize (Hfr id tm H'). lia.
  - intros id tm H. rewrite lookup_insert_ne; [by apply Hold|].
    intros <-. specialize (Hold _ _ H). congruence.
  - intros id tm. rewrite lookup_insert. case_decide as Hid.
    + subst id. intros [= <-]. right. split; [done|]. exists x.
      split; [set_solver|]. split; [done|].
      apply list_lookup_insert_eq. lia.
    + intros [H'|(Hle & si & Hsi & -> & Hh)]%Hts; [by left|]. right. split; [done|].
      exists si. split; [set_solver|]. split; [done|].
      rewrite list_lookup_insert_ne; [done|]. intros <-. done.
  - intros j Hj. rewrite list_lookup_insert_ne; [apply Hoth|]; set_solver.
  - intros j [Hj| ->%list_elem_of_singleton]%elem_of_app.
    + destruct (decide (x = j)) as [->|Hne]; [done|].
      rewrite list_lookup_insert_ne by done. by apply Hset.
    + exists n1. apply list_lookup_insert_eq. lia.
  - by rewrite length_insert.
Qed.

(** Arming a whole slide at once. *)
Lemma LInvV_arm ts now hs sk sl target D n ts' n' hs' :
  LInvV ts now hs sk →
  sl = grp sk target →
  (∀ idL tmL si slL, ts !! idL = Some tmL → callback tmL = CbLoopRestart si slL →
                     slL ≠ sl) →
  armed_batch sl D ts n hs sl ts' n' hs' →
  (∀ id tm, ts !! id = Some tm → (id < n)%positive) →
  LInvV ts' now hs' sk.
Proof.
  intros [Hwf Htr Hfi Hba] -> Hnone [Hn Hfr Hold Hts Hoth Hset Hlen] Hfresh.
  assert (∀ id tm sL slL, ts !! id = Some tm → callback tm = CbLoopRestart sL slL →
                          sL ∉ grp sk target) as Hnot.
  { intros id tm sL slL H Hcb Hin. apply (Hnone id tm sL slL H Hcb).
    pose proof (Hwf id tm H) as HwfL. rewrite Hcb in HwfL.
    destruct HwfL as (t & Ht & ->). apply grp_spec in Hin. congruence. }
  split.
  - intros id tm [H|(_ & si & Hsi & -> & _)]%Hts; [by eapply Hwf|].
    simpl. exists target. split; [by apply grp_spec|done].
  - intros id tm sL slL [H|(_ & si & Hsi & -> & Hh)]%Hts Hcb.
    + rewrite Hoth; [by eapply Htr|]. by eapply Hnot.
    + simpl in Hcb. by injection Hcb as <- <-.
  - intros id tm sL slL j [H|(_ & si & Hsi & -> & Hh)]%Hts Hcb Hj Hnone'.
    + assert (j ∉ grp sk target) as Hjn.
      { intros Hin. destruct (Hset j Hin) as [h Hh]. congruence. }
      rewrite Hoth in Hnone' by done.
      destruct (Hfi id tm sL slL j H Hcb Hj Hnone') as [Hd Hlat]. split; [done|].
      intros id' tm' sl' [H'|(_ & si' & _ & -> & _)]%Hts Hcb'; [by eapply Hlat|done].
    + simpl in Hcb. injection Hcb as <- <-.
      destruct (Hset j Hj) as [h Hh']. congruence.
  - intros id1 tm1 s1 id2 tm2 s2 sl0 [H1|(Hle1 & si1 & Hsi1 & -> & Hh1)]%Hts
           [H2|(Hle2 & si2 & Hsi2 & -> & Hh2)]%Hts Hc1 Hc2.
    + destruct (Hba id1 tm1 s1 id2 tm2 s2 sl0 H1 H2 Hc1 Hc2) as [Hd Hbe]. split; [done|].
      intros id' tm' Hl1 Hl2 [H'|(Hle' & _)]%Hts; [by eapply Hbe|].
      specialize (Hfresh id2 tm2 H2). lia.
    + simpl in Hc2. injection Hc2 as <- <-. exfalso. by eapply Hnone.
    + simpl in Hc1. injection Hc1 as <- <-. exfalso. by eapply Hnone.
    + split; [done|].
      intros id' tm' Hl1 Hl2 [H'|(_ & si' & _ & -> & _)]%Hts; [|by eauto].
      specialize (Hfresh id' tm' H'). lia.
Qed.

Lemma slide_items_grp target els :
  slide_items target els = grp (slideElement <$> els) target.
Proof.
  unfold slide_items, grp. rewrite length_fmap.
  apply list_filter_iff. intros i. by rewrite list_lookup_fmap.
Qed.

Lemma fmap_alter_same {A B} (g : A → B) (f : A → A) i (l : list A) :
  (∀ x, g (f x) = g x) → g <$> alter f i l = g <$> l.
Proof.
  intros H. revert i. induction l as [|x l IH]; intros [|i]; [done..| |].
  - change (g (f x) :: (g <$> l) = g x :: (g <$> l)). by rewrite H.
  - change (g x :: (g <$> alter f i l) = g x :: (g <$> l)). by rewrite IH.
Qed.

Lemma handles_alter_set h i (l : list Item) :
  loopTimeout <$> alter (with_loopTimeout h) i l = <[i := h]> (loopTimeout <$> l).
Proof.
  revert i. induction l as [|x l IH]; intros [|i]; [done..|].
  change (loopTimeout x :: (loopTimeout <$> alter (with_loopTimeout h) i l)
          = loopTimeout x :: <[i := h]> (loopTimeout <$> l)).
  by rewrite IH.
Qed.

Lemma shown_handles i it s : handles (shown i it s) = handles s.
Proof.
  unfold shown, handles. destruct (negb (isVisible it)); [|done].
  simpl. by apply fmap_alter_same.
Qed.

Lemma shown_slides i it s : slides (shown i it s) = slides s.
Proof.
  unfold shown, slides. destruct (negb (isVisible it)); [|done].
  simpl. by apply fmap_alter_same.
Qed.

Lemma fresh_stable : stable fresh.
Proof.
  assert (∀ s s' tm, fresh s →
            timers (host s') = <[nextTimer (host s) := tm]> (timers (host s)) →
            nextTimer (host s') = Pos.succ (nextTimer (host s)) → fresh s') as Hadd.
  { intros s s' tm0 Hf Ht Hn id tm. rewrite Ht, Hn, lookup_insert.
    case_decide; [intros _; lia|]. intros H'. specialize (Hf id tm H'). lia. }
  assert (∀ s s', fresh s → timers (host s') ⊆ timers (host s) →
            nextTimer (host s') = nextTimer (host s) → fresh s') as Hsub.
  { intros s s' Hf Ht Hn id tm H. rewrite Hn. eapply Hf. by eapply lookup_weaken. }
  split.
  - intros i sl s s' Hf Ho. destruct Ho; try (by apply (Hsub s)).
    + by eapply (Hadd s).
    + apply foldl_inv; [by apply (Hsub s)|]. intros a x Ha. by eapply (Hadd a).
  - intros si sl s r s' Hf Ho. destruct Ho; try (by apply (Hsub s)). by eapply (Hadd s).
  - intros sl i s s' Hf Ho. destruct Ho.
    + by apply (Hsub s).
    + eapply (Hadd s); [done| |]; unfold started; simpl; by rewrite !shown_host.
    + apply (Hsub s); [done| |]; simpl; by rewrite shown_host.
  - intros i s r s' Hf Ho. destruct Ho; try (by apply (Hsub s)).
    apply (Hsub s); [done| |done]. simpl. apply delete_subseteq.
  - intros l msg s Hf. by apply (Hsub s).
  - intros t s Hf. by apply (Hsub s).
  - intros id s Hf. apply (Hsub s); [done| |done]. simpl. apply delete_subseteq.
  - intros s Hf. apply (Hsub s); [done| |done]. simpl. apply map_filter_subseteq.
Qed.

Lemma LInv_frame s s' :
  LInv s → timers (host s') ⊆ timers (host s) → now (host s) ≤ now (host s') →
  handles s' = handles s → slides s' = slides s → LInv s'.
Proof.
  unfold LInv. intros HI Ht Hn -> ->. by eapply LInvV_weaken.
Qed.

(** The state of the timers, handles and clock after the arming loop. *)
Lemma arm_fold_batch sl l s :
  fresh s → NoDup l → (∀ j, j ∈ l → (j < length (handles s))%nat) →
  armed_batch sl (now (host s) + loopDelay (this s)) (timers (host s))
    (nextTimer (host s)) (handles s) l
    (timers (host (foldl (arm_one sl) s l)))
    (nextTimer (host (foldl (arm_one sl) s l)))
    (handles (foldl (arm_one sl) s l)) ∧
  now (host (foldl (arm_one sl) s l)) = now (host s) ∧
  loopDelay (this (foldl (arm_one sl) s l)) = loopDelay (this s) ∧
  slides (foldl (arm_one sl) s l) = slides s.
Proof.
  intros Hf. induction l as [|x l IH] using rev_ind; intros Hnd Hlen.
  - simpl. split; [by apply armed_batch_nil|done].
  - apply NoDup_app in Hnd as (Hnd & Hx & _).
    destruct IH as (Hab & Hnow & Hld & Hsk); [done|intros j Hj; apply Hlen; set_solver|].
    rewrite foldl_snoc. set (a := foldl (arm_one sl) s l) in *.
    split_and!.
    + unfold arm_one at 1 2 3. simpl. rewrite Hnow, Hld.
      unfold handles at 2. simpl. rewrite handles_alter_set.
      apply armed_batch_snoc; [done| |].
      * intros Hin. by apply (Hx x Hin), list_elem_of_singleton.
      * apply Hlen. set_solver.
    + by simpl.
    + by simpl.
    + unfold slides. simpl. rewrite fmap_alter_same; [done|]. done.
Qed.

Lemma taken_LInv id tm s : LInv s → LInv (taken id tm s).
Proof.
  intros HI. apply (LInv_frame s); [done| | |done..]; simpl.
  - apply delete_subseteq.
  - lia.
Qed.

Lemma taken_fresh id tm s : fresh s → fresh (taken id tm s).
Proof.
  intros Hf. unfold taken. by apply (st_advance _ fresh_stable), (st_untimed _ fresh_stable).
Qed.

Lemma handles_lookup s i it :
  elements (this s) !! i = Some it → handles s !! i = Some (loopTimeout it).
Proof. intros H. unfold handles. by rewrite list_lookup_fmap, H. Qed.

(** While a restart timer of its slide is pending, the item whose
    [typeText] timer the host picks still remembers a handle. *)
Lemma picked_stepping s id tm i sl idL tmL si slL :
  LInv s → next_timer (timers (host s)) = Some (id, tm) →
  callback tm = CbTypeText i sl →
  timers (host (taken id tm s)) !! idL = Some tmL →
  callback tmL = CbLoopRestart si slL → i ∈ slL →
  handles s !! i ≠ Some None.
Proof.
  intros HI Hn Hcb HL HcL Hi. simpl in HL. apply lookup_delete_Some in HL as [_ HL].
  eapply (LInvV_stepping _ _ _ _ id tm i sl idL tmL si slL HI); try done.
  - by apply next_timer_lookup.
  - intros id' tm' H' Hne. by eapply next_timer_min.
Qed.

Lemma LInv_typeText s id tm i sl s' :
  fresh s → LInv s → next_timer (timers (host s)) = Some (id, tm) →
  callback tm = CbTypeText i sl →
  typeText_outcome i sl (taken id tm s) s' → LInv s'.
Proof.
  intros Hf HI Hn Hcb Ho.
  pose proof (taken_LInv id tm s HI) as HI1.
  pose proof (taken_fresh id tm s Hf) as Hf1.
  pose proof (lv_wf _ _ _ _ HI id tm (next_timer_lookup _ _ _ Hn)) as Hwf.
  rewrite Hcb in Hwf.
  set (s1 := taken id tm s) in *.
  destruct Ho as [Hd|it Hit Hskip|it e c Hit Hv He Hc Hb|it e c Hit Hv He Hc Hb
                 |it e Hit Hv He Hlen Hb Hno|it e Hit Hv He Hlen Hb Hall Hnone
                 |it e Hit Hv He Hlen Hb].
  - by apply (LInv_frame s1).
  - done.
  - unfold LInv.
    assert (handles (typed i sl it e c s1) = handles s1) as ->.
    { unfold handles. simpl. by apply fmap_alter_same. }
    assert (slides (typed i sl it e c s1) = slides s1) as ->.
    { unfold slides. simpl. by apply fmap_alter_same. }
    apply LInvV_add_type; [done|done|done|].
    intros idL tmL si slL HL HcL Hi. by eapply (picked_stepping s id tm i sl).
  - apply (LInv_frame s1); [done..| |].
    + unfold handles. simpl. by apply fmap_alter_same.
    + unfold slides. simpl. by apply fmap_alter_same.
  - by apply (LInv_frame s1).
  - set (s2 := st_write e (text_children (fullText it)) s1) in *.
    assert (LInv s2) as HI2 by by apply (LInv_frame s1).
    assert (fresh s2) as Hf2 by exact Hf1.
    destruct Hwf as (target & Ht & Hsl).
    assert (i ∈ sl) as Hisl by (rewrite Hsl; by apply grp_spec).
    destruct (arm_fold_batch sl sl s2 Hf2) as (Hab & Hnow & _ & Hsk).
    { rewrite Hsl. apply grp_NoDup. }
    { intros j Hj. rewrite Hsl in Hj. apply grp_spec in Hj.
      apply lookup_lt_Some in Hj. unfold slides in Hj. unfold handles.
      rewrite length_fmap in Hj. rewrite length_fmap. exact Hj. }
    unfold LInv. rewrite Hnow, Hsk.
    eapply (LInvV_arm _ _ _ _ sl target); [exact HI2|exact Hsl| |exact Hab|exact Hf2].
    intros idL tmL si slL HL HcL ->.
    eapply (picked_stepping s id tm i sl idL tmL si sl); try done.
    by rewrite (handles_lookup s i it Hit), Hnone.
  - by apply (LInv_frame s1).
Qed.

Lemma LInv_loopRestart s id tm si sl r s' :
  fresh s → LInv s → next_timer (timers (host s)) = Some (id, tm) →
  callback tm = CbLoopRestart si sl →
  loopRestart_outcome si sl (taken id tm s) r s' → LInv (settle r s').
Proof.
  intros Hf HI Hn Hcb Ho.
  pose proof (taken_LInv id tm s HI) as HI1.
  set (s1 := taken id tm s) in *.
  destruct Ho as [Hd|it e Hit He Hb|it err Hit Hthrow].
  - by apply (LInv_frame s1).
  - simpl. unfold LInv.
    assert (handles (restarted si sl it e s1) = <[si := None]> (handles s)) as ->.
    { unfold handles. simpl. rewrite handles_alter_set. f_equal. by apply fmap_alter_same. }
    assert (slides (restarted si sl it e s1) = slides s) as ->.
    { unfold slides. simpl. rewrite !fmap_alter_same; done. }
    simpl. eapply LInvV_restart; try done.
    + by apply next_timer_lookup.
    + intros id' tm' H' Hne. by eapply next_timer_min.
    + lia.
    + lia.
    + lia.
  - apply (LInv_frame s1); [done..| |].
    + unfold handles. simpl. by apply fmap_alter_same.
    + unfold slides. simpl. by apply fmap_alter_same.
Qed.

Lemma LInv_fire s : fresh s → LInv s → LInv (fire s).
Proof.
  intros Hf HI. destruct (fire_cases s) as [[_ ->]|(id & tm & Hn & _ & Hcb)]; [done|].
  destruct (callback tm) as [i sl|si sl] eqn:Hc.
  - by eapply LInv_typeText.
  - destruct Hcb as (r & s' & Ho & ->). by eapply LInv_loopRestart.
Qed.

Lemma loops_cleared_step s done i a b :
  loops_cleared s done a → clearLoop_outcome i a (Ok tt) b →
  loops_cleared s (done ++ [i]) b.
Proof.
  intros (HI & Hf & Hh & Hs & Hdone) Ho.
  inversion Ho as [|it id Hit Hl|it Hit Hl]; subst.
  - split_and!.
    + apply (LInv_frame a); [done| |done..]. simpl. apply delete_subseteq.
    + by eapply (st_clearLoop _ fresh_stable).
    + done.
    + done.
    + intros j h [Hj| ->%list_elem_of_singleton]%elem_of_app Hjh; simpl.
      * apply lookup_delete_None. right. by eapply Hdone.
      * rewrite <- Hh, (handles_lookup a i it Hit), Hl in Hjh. injection Hjh as <-.
        apply lookup_delete_eq.
  - split_and!; try done.
    intros j h [Hj| ->%list_elem_of_singleton]%elem_of_app Hjh; [by eapply Hdone|].
    rewrite <- Hh, (handles_lookup b i it Hit), Hl in Hjh. done.
Qed.

Lemma loops_cleared_no_loop s target a :
  loops_cleared s (grp (slides s) target) a → no_loop target a.
Proof.
  intros (HI & Hf & Hh & Hs & Hdone) id tm si slL Hid Hcb Hsi.
  pose proof (lv_tracked _ _ _ _ HI id tm si slL Hid Hcb) as Htr.
  rewrite Hh in Htr. rewrite Hs in Hsi.
  rewrite (Hdone si id) in Hid; [done| |done]. by apply grp_spec.
Qed.

Lemma starting_step target s i a b :
  i ∈ grp (slides s) target →
  starting target s a →
  startItem_outcome (grp (slides s) target) i a b →
  starting target s b.
Proof.
  intros Hi (HI & Hf & Hno & Hs) Ho.
  pose proof (st_startItem _ fresh_stable _ _ _ _ Hf Ho) as Hfb.
  destruct Ho as [Hn|it e Hit He Hb|it Hit Hthrow].
  - by split_and!.
  - assert (handles (started i (grp (slides s) target) it e a) = handles a) as Hh.
    { unfold handles, started. simpl. rewrite fmap_alter_same by done. apply shown_handles. }
    assert (slides (started i (grp (slides s) target) it e a) = slides a) as Hsk.
    { unfold slides, started. simpl. rewrite fmap_alter_same by done. apply shown_slides. }
    split_and!; [|done| |congruence].
    + unfold LInv. rewrite Hh, Hsk. unfold started. simpl. rewrite !shown_host.
      apply LInvV_add_type; [done|done| |].
      * simpl. exists target. rewrite Hs. split; [by apply grp_spec|done].
      * intros idL tmL si slL HL HcL HiL. exfalso.
        apply (Hno idL tmL si slL HL HcL).
        pose proof (lv_wf _ _ _ _ HI idL tmL HL) as Hwf. rewrite HcL in Hwf.
        destruct Hwf as (tL & HtL & ->). apply grp_spec in HiL.
        apply grp_spec in Hi. rewrite Hs in HiL. congruence.
    + intros id tm si slL. rewrite Hsk. unfold started. simpl. rewrite !shown_host.
      rewrite lookup_insert. case_decide; [by intros [= <-]|].
      intros H' Hcb. by eapply Hno.
  - assert (handles (st_warn start_msg (upd_elements (alter (with_currentText []) i)
                                          (shown i it a))) = handles a) as Hh.
    { unfold handles. simpl. rewrite fmap_alter_same by done. apply shown_handles. }
    assert (slides (st_warn start_msg (upd_elements (alter (with_currentText []) i)
                                         (shown i it a))) = slides a) as Hsk.
    { unfold slides. simpl. rewrite fmap_alter_same by done. apply shown_slides. }
    split_and!; [|done| |congruence].
    + apply (LInv_frame a); [done| | |done..]; simpl; by rewrite shown_host.
    + intros id tm si slL. rewrite Hsk. simpl. rewrite shown_host. apply Hno.
Qed.

(** One entry of the observer callback. *)
Lemma LInv_onEntry entry s :
  fresh s → LInv s →
  fresh (onEntry entry s).2 ∧ LInv (onEntry entry s).2 ∧
  (entry.2 = true → no_loop entry.1 (onEntry entry s).2) ∧
  slides (onEntry entry s).2 = slides s.
Proof.
  intros Hf HI. destruct entry as [target [|]]; [|by rewrite onEntry_leaving].
  destruct (onEntry_intersecting target s) as (s1 & s2 & -> & Hc1 & Hc2). simpl in *.
  rewrite slide_items_grp in Hc1, Hc2. fold (slides s) in Hc1, Hc2.
  assert (loops_cleared s (grp (slides s) target) s1) as Hcl.
  { apply (chain_prefix_inv (loops_cleared s) _ _ _ _ Hc1).
    - split_and!; try done. intros i h Hi. by apply elem_of_nil in Hi.
    - intros done i a b. apply loops_cleared_step. }
  assert (starting target s s2) as (HI2 & Hf2 & Hno2 & Hs2).
  { apply (chain_inv (starting target s) _ _ _ _ Hc2).
    - pose proof (loops_cleared_no_loop _ _ _ Hcl) as Hno1.
      destruct Hcl as (HI1 & Hf1 & Hh1 & Hs1 & _). by split_and!.
    - intros i a b Hi Ha Ho. by eapply starting_step. }
  done.
Qed.

Lemma LInv_observer entries s :
  fresh s → LInv s →
  fresh (host_run (observerCallback entries) s) ∧
  LInv (host_run (observerCallback entries) s).
Proof.
  unfold host_run.
  pose proof (observerCallback_ok entries s) as Hok.
  destruct (observerCallback entries s) as [r s'] eqn:Heq. simpl in Hok. subst r.
  replace s' with (observerCallback entries s).2 by by rewrite Heq.
  clear Heq. revert s. induction entries as [|entry l IH]; intros s Hf HI; [done|].
  unfold observerCallback. simpl. unfold bind.
  pose proof (onEntry_ok entry s) as H.
  destruct (LInv_onEntry entry s Hf HI) as (Hf1 & HI1 & _).
  destruct (onEntry entry s) as [r s1]. simpl in *. subst r. by apply IH.
Qed.

Lemma LInv_dispatch ev s : fresh s → LInv s → LInv (dispatch ev s).
Proof.
  intros Hf HI. destruct ev as [|t entries|]; simpl.
  - by apply LInv_fire.
  - apply LInv_observer.
    + by apply (st_advance _ fresh_stable).
    + apply (LInv_frame s); [done..| |done|done]. simpl. lia.
  - unfold host_run. rewrite destroy_run.
    apply (LInv_frame s); [done| |done..]. simpl. apply map_filter_subseteq.
Qed.

Lemma boot_LInv options doc faulty : LInv (boot options doc faulty).
Proof.
  assert (timers (host (boot options doc faulty)) = ∅) as Ht.
  { unfold boot, init, try_catch. by destruct doc. }
  unfold LInv. rewrite Ht. split; intros *; by rewrite lookup_empty.
Qed.

Lemma boot_fresh options doc faulty : fresh (boot options doc faulty).
Proof.
  intros id tm.
  assert (timers (host (boot options doc faulty)) = ∅) as ->.
  { unfold boot, init, try_catch. by destruct doc. }
  by rewrite lookup_empty.
Qed.

Lemma reachable_fresh options doc faulty s :
  reachable options doc faulty s → fresh s.
Proof. apply stable_reachable; [apply fresh_stable|apply boot_fresh]. Qed.

Lemma reachable_LInv options doc faulty s :
  reachable options doc faulty s → LInv s.
Proof.
  induction 1 as [|s ev Hr IH]; [apply boot_LInv|].
  apply LInv_dispatch; [by eapply reachable_fresh|done].
Qed.

(** After a slide has been reported as intersecting, none of its restart
    timers is pending. *)
Lemma trigger_no_loop options doc faulty s t target :
  reachable options doc faulty s →
  no_loop target (dispatch (EvIntersect t [(target, true)]) s).
Proof.
  intros Hr. simpl. rewrite single_entry.
  destruct (LInv_onEntry (target, true) (advance t s)) as (_ & _ & Hno & _).
  - apply (st_advance _ fresh_stable). by eapply reachable_fresh.
  - apply (LInv_frame s); [by eapply reachable_LInv|done| |done|done]. simpl. lia.
  - by apply Hno.
Qed.

(** C3: when a slide is reported as intersecting, every loop-restart
    handle its items remember is cancelled (gone from the host's timer
    table and from [timeoutIds]); and every item of the slide has its
    revealed text reset to empty and is marked visible, and, its sink
    taking writes, the sink is emptied and a start timer for [typeText] on
    that item is pending, due [staggerIndex * staggerDelay] after the
    trigger, with its handle in [timeoutIds]; and no restart timer of an
    item of the slide is pending afterwards, remembered or not. This
    holds in every reachable state, so also for a slide that has been
    typed in full before. *)
Theorem C3_visibility_trigger options doc faulty s t target :
  reachable options doc faulty s →
  let sl := slide_items target (elements (this s)) in
  let s' := dispatch (EvIntersect t [(target, true)]) s in
  (∀ i it h, elements (this s) !! i = Some it → slideElement it = target →
     loopTimeout it = Some h →
     timers (host s') !! h = None ∧ h ∉ timeoutIds (this s')) ∧
  (∀ i it, elements (this s) !! i = Some it → slideElement it = target →
     ∃ it', elements (this s') !! i = Some it' ∧
       currentText it' = [] ∧ isVisible it' = true ∧
       ∀ e, element it = Some e → e ∉ broken (host s) →
         sinks (host s') !! e = Some [] ∧
         ∃ id, timers (host s') !! id
                 = Some (mkTimer (N.max (now (host s)) t +
                                  N.of_nat (staggerIndex it) * staggerDelay (this s))
                                 (CbTypeText i sl)) ∧
               id ∈ timeoutIds (this s')) ∧
  (∀ id tm si sl' it, timers (host s') !! id = Some tm →
     callback tm = CbLoopRestart si sl' →
     elements (this s') !! si = Some it → slideElement it ≠ target).
Proof.
  intros Hr sl s'.
  assert (∀ id tm si sl' it, timers (host s') !! id = Some tm →
            callback tm = CbLoopRestart si sl' →
            elements (this s') !! si = Some it → slideElement it ≠ target) as Hnone.
  { intros id tm si sl' it Ht Hcb Hit Hs.
    apply (trigger_no_loop _ _ _ _ t target Hr id tm si sl' Ht Hcb).
    unfold slides. rewrite list_lookup_fmap. fold s'. by rewrite Hit, <- Hs. }
  apply (proj1 (Init.Logic.and_assoc _ _ _)). split; [|exact Hnone]. clear Hnone.
  subst s'. simpl. rewrite single_entry.
  destruct (onEntry_intersecting target (advance t s)) as (s1 & s2 & -> & Hc1 & Hc2).
  simpl in Hc1, Hc2. fold sl in Hc1, Hc2. simpl.
  assert (cleared (advance t s) sl s1) as (Hel1 & Hn1 & Hnow1 & Hsd1 & Hb1 & Hgone).
  { apply (chain_prefix_inv (cleared (advance t s)) _ _ _ _ Hc1).
    - split_and!; try done. intros i it h Hi. by apply elem_of_nil in Hi.
    - intros done i a b. apply cleared_step. }
  simpl in *.
  pose proof (start_chain_extends _ _ _ _ Hc2) as [_ Hext].
  assert (∀ i it, elements (this s) !! i = Some it → slideElement it = target → i ∈ sl)
    as Hin.
  { intros i it Hi Hs. apply slide_items_spec. eauto. }
  split.
  - intros i it h Hi Hs Hh.
    destruct (Hgone i it h (Hin i it Hi Hs) Hi Hh) as [Ht Hids].
    destruct (Hext h) as [Ht' Hi'].
    { rewrite Hn1. by eapply (reachable_HInv _ _ _ _ Hr). }
    split; [congruence|tauto].
  - intros i it Hi Hs.
    assert (start_frame s1 s2 ∧
            ∀ i it, i ∈ sl → elements (this s1) !! i = Some it →
              restarted_ok sl (now (host s1)) (staggerDelay (this s1)) (broken (host s1))
                           it i s2) as [_ Hok].
    { apply (chain_prefix_inv
               (λ done a, start_frame s1 a ∧
                  ∀ i it, i ∈ done → elements (this s1) !! i = Some it →
                    restarted_ok sl (now (host s1)) (staggerDelay (this s1))
                                 (broken (host s1)) it i a) _ _ _ _ Hc2).
      - split; [apply start_frame_refl|]. intros j itj Hj. by apply elem_of_nil in Hj.
      - intros done j a b [Hfr Hdone] Ho. split; [by eapply start_frame_step|].
        intros k itk [Hk| ->%list_elem_of_singleton]%elem_of_app Hitk.
        + eapply restarted_ok_keep; [done..|]. by apply Hdone.
        + by eapply restarted_ok_new. }
    destruct (Hok i it (Hin i it Hi Hs)) as (it' & Hit' & Hcur & Hvis & Hsink).
    { by rewrite Hel1. }
    exists it'. split_and!; try done.
    intros e He Hbe. destruct (Hsink e He) as (Hs' & id & _ & Hid & Hidin).
    { by rewrite Hb1. }
    split; [done|]. exists id. split; [|done].
    rewrite Hid. by rewrite Hnow1, Hsd1.
Qed.

Lemma C3_visibility_trigger_witness :
  let s := run [Scenario.visible_at 0; EvTimer; EvTimer; EvTimer; EvTimer; EvTimer; EvTimer]
               Scenario.s0 in
  let s' := dispatch (Scenario.visible_at 50) s in
  loopTimeout <$> elements (this s) !! 1%nat = Some (Some 8%positive) ∧
  timers (host s) !! 8%positive = Some (mkTimer 120 (CbLoopRestart 1 [0; 1]%nat)) ∧
  timers (host s') !! 8%positive = None ∧ (8%positive ∉ timeoutIds (this s')) ∧
  ∃ it', elements (this s') !! 1%nat = Some it' ∧
    currentText it' = [] ∧ isVisible it' = true ∧
    sinks (host s') !! Scenario.el1 = Some [] ∧
    ∃ id, timers (host s') !! id = Some (mkTimer 55 (CbTypeText 1 [0; 1]%nat)).
Proof.
  split; [vm_compute; reflexivity|]. split; [vm_compute; reflexivity|].
  pose (s := run [Scenario.visible_at 0; EvTimer; EvTimer; EvTimer; EvTimer; EvTimer; EvTimer]
                 Scenario.s0).
  assert (reachable Scenario.options Scenario.doc ∅ s) as Hr.
  { do 7 apply reach_step. apply reach_boot. }
  destruct (C3_visibility_trigger Scenario.options Scenario.doc ∅ s 50 Scenario.slide Hr)
    as (Hcancel & Hstart & _).
  pose (it := mkItem (Some Scenario.el1) (js "Yo") (js "Yo") (js "Yo") false true
                     Scenario.slide 1 (Some 8%positive)).
  assert (elements (this s) !! 1%nat = Some it) as Hit by (vm_compute; reflexivity).
  destruct (Hcancel 1%nat it 8%positive Hit eq_refl eq_refl) as [Hc1 Hc2].
  split; [exact Hc1|]. split; [exact Hc2|].
  destruct (Hstart 1%nat it Hit eq_refl) as (it' & Hit' & Hcur & Hvis & Hsink).
  destruct (Hsink Scenario.el1 eq_refl) as (Hs & id & Hid & _).
  { assert (broken (host s) = ∅) as -> by (vm_compute; reflexivity). apply not_elem_of_empty. }
  exists it'. split; [exact Hit'|]. split; [exact Hcur|]. split; [exact Hvis|].
  split; [exact Hs|]. exists id. etransitivity; [exact Hid|]. vm_compute. reflexivity.
Defined.

(** ** The timeline of the scenario *)

(** C2, the statement as written fails: the start timer of element 0 has
    delay [0 * staggerDelay = 0], so "H" and the cursor appear at [t = 0],
    not at [t = 5]. *)
Lemma C2_timeline_counterexample :
  first_time (sink_is Scenario.el0 (typing "H")) 20
             (dispatch (Scenario.visible_at 0) Scenario.s0) = Some 0 ∧
  ¬ spec_timeline (dispatch (Scenario.visible_at 0) Scenario.s0).
Proof.
  assert (first_time (sink_is Scenario.el0 (typing "H")) 20
            (dispatch (Scenario.visible_at 0) Scenario.s0) = Some 0) as H0
    by (vm_compute; reflexivity).
  split; [exact H0|]. intros (H5 & _). rewrite H0 in H5. discriminate.
Qed.

(** C2 (amended): with typing speed 10, stagger 5 and loop delay 100 and
    the slide visible at [t = 0], element 0 shows its first character at
    [t = 0] and element 1 at [t = 5]; the second characters follow at
    [t = 10] and [t = 15], still with the cursor; element 0 is complete
    (no cursor) at [t = 20], and that step arms the restart timers of both
    elements, due at [t = 120]; element 1 is complete at [t = 25]; when
    both restart timers have fired, at [t = 120], the start of element 0
    is due at [120 + 0] and that of element 1 at [120 + 5]. *)
Theorem C2_timeline : code_timeline (dispatch (Scenario.visible_at 0) Scenario.s0).
Proof.
  unfold code_timeline. split_and!; try (vm_compute; reflexivity).
  - eexists. split; [vm_compute; reflexivity|]. split_and!; vm_compute; reflexivity.
  - eexists. split; [vm_compute; reflexivity|]. split_and!; vm_compute; reflexivity.
Qed.

(** ** Re-entering visibility while a restart is pending *)

(** C1, the code at the failing input: the trigger at [t = 50] cancels the
    two restart timers but leaves their handles in [loopTimeout]; the
    second cycle then types both texts in full, each completion step finds
    [allDone] true and a truthy stale handle, and no restart timer is
    armed: the host's timer table ends up empty although every element of
    the group has reached full length. *)
Theorem C1_stale_handle_blocks_loop :
  (loop_due Reentry.armed 0 = [120] ∧ loop_due Reentry.armed 1 = [120]) ∧
  (loop_due Reentry.retriggered 0 = [] ∧ loop_due Reentry.retriggered 1 = [] ∧
   loopTimeout <$> elements (this Reentry.retriggered) = [Some 7; Some 8]%positive) ∧
  (all_done [0; 1]%nat (elements (this Reentry.finished)) = true ∧
   sinks (host Reentry.finished) !! Scenario.el0 = Some (complete "Hi") ∧
   sinks (host Reentry.finished) !! Scenario.el1 = Some (complete "Yo") ∧
   now (host Reentry.finished) = 75 ∧
   timers (host Reentry.finished) = ∅ ∧
   fire Reentry.finished = Reentry.finished).
Proof.
  split_and!; vm_compute; reflexivity.
Qed.

(** The guard of the arming branch: a step adds restart timers only when
    every item of its slide has reached full length and the stepping item
    remembers no handle; then it adds one for each item of the slide. *)
Lemma arm_only_when_all_done i sl s s' id tm si sl' :
  typeText_outcome i sl s s' →
  timers (host s') !! id = Some tm → timers (host s) !! id ≠ Some tm →
  callback tm = CbLoopRestart si sl' →
  all_done sl (elements (this s)) = true ∧
  ∃ it, elements (this s) !! i = Some it ∧ loopTimeout it = None.
Proof.
  intros Ho Hnew Hold Hcb. destruct Ho; try done.
  - simpl in Hnew. destruct (decide (id = nextTimer (host s))) as [->|Hne].
    + rewrite lookup_insert_eq in Hnew. injection Hnew as <-. done.
    + by rewrite lookup_insert_ne in Hnew.
  - eauto.
Qed.

(** ** [escapeHtml]

    The method replaces each of the five characters by its entity and
    copies every other code unit. *)
Lemma special_cases c :
  special c = true → c = ch_amp ∨ c = ch_lt ∨ c = ch_gt ∨ c = ch_quot ∨ c = ch_apos.
Proof.
  unfold special. intros H%bool_decide_eq_true.
  repeat (apply elem_of_cons in H as [H|H]; [tauto|]). by apply elem_of_nil in H.
Qed.

Lemma escapeHtml_cons c text :
  escapeHtml (c :: text)
  = (if special c then map_get escape_map c else [c]) ++ escapeHtml text.
Proof. reflexivity. Qed.

Lemma escapeHtml_nil : escapeHtml [] = [].
Proof. reflexivity. Qed.

(** What one character becomes. *)
Lemma piece_cases c :
  (special c = false ∧ (if special c then map_get escape_map c else [c]) = [c]) ∨
  (special c = true ∧ ∃ r, (if special c then map_get escape_map c else [c]) = ch_amp :: r ∧
     ch_amp :: r ∈ entities ∧ r ≠ [] ∧
     ∀ x, x ∈ r → special x = false).
Proof.
  destruct (special c) eqn:Hc; [right|by left].
  split; [done|].
  destruct (special_cases c Hc) as [->|[->|[->|[->| ->]]]];
    (eexists; split; [vm_compute; reflexivity|]);
    (split; [unfold entities; simpl; set_solver|]);
    (split; [done|]);
    intros x Hx;
    repeat (apply elem_of_cons in Hx as [->|Hx]; [by vm_compute|]);
    by apply elem_of_nil in Hx.
Qed.

Lemma plain_cons c text : plain (c :: text) ↔ special c = false ∧ plain text.
Proof.
  unfold plain. split.
  - intros H. split; [apply H; left|intros x Hx; apply H; by right].
  - intros [Hc H] x [->|Hx]%elem_of_cons; auto.
Qed.

Lemma escapeHtml_plain text : plain text → escapeHtml text = text.
Proof.
  induction text as [|c text IH]; [done|].
  intros [Hc Hp]%plain_cons. rewrite escapeHtml_cons, Hc, IH; done.
Qed.

Lemma escapeHtml_length text :
  (length text ≤ length (escapeHtml text))%nat ∧
  (length (escapeHtml text) = length text → plain text).
Proof.
  induction text as [|c text [IH1 IH2]].
  - split; [done|]. intros _ x Hx. by apply elem_of_nil in Hx.
  - rewrite escapeHtml_cons.
    destruct (piece_cases c) as [[Hc ->]|[Hc (r & -> & _ & Hr & _)]].
    + simpl. split; [lia|]. intros Hl. apply plain_cons. split; [done|].
      apply IH2. lia.
    + rewrite length_app. simpl. destruct r; [done|]. simpl. split; lia.
Qed.

Lemma escapeHtml_amp text c :
  c ∈ text → special c = true → ch_amp ∈ escapeHtml text.
Proof.
  induction text as [|d text IH]; [by intros ?%elem_of_nil|].
  intros [->|Hc]%elem_of_cons Hs; rewrite escapeHtml_cons; apply elem_of_app.
  - left. destruct (piece_cases d) as [[Hd _]|[_ (r & -> & _)]]; [congruence|left].
  - right. auto.
Qed.

Lemma not_plain text : ¬ plain text → ∃ c, c ∈ text ∧ special c = true.
Proof.
  induction text as [|d text IH]; intros Hn.
  - destruct Hn. intros x Hx. by apply elem_of_nil in Hx.
  - destruct (special d) eqn:Hd; [exists d; split; [left|done]|].
    destruct IH as (c & Hc & Hs).
    + intros Hp. apply Hn. by apply plain_cons.
    + exists c. split; [by right|done].
Qed.

Lemma plain_dec text : plain text ∨ ¬ plain text.
Proof.
  induction text as [|d text [IH|IH]].
  - left. intros x Hx. by apply elem_of_nil in Hx.
  - destruct (special d) eqn:Hd.
    + right. intros [? _]%plain_cons. congruence.
    + left. by apply plain_cons.
  - right. intros [_ ?]%plain_cons. done.
Qed.

(** X1: the escaped text contains no [<], no [>] and no quote, double or
    single: none of the characters that open a tag or close an attribute
    value survives. *)
Theorem escapeHtml_no_markup text c :
  c ∈ escapeHtml text → c ∉ [ch_lt; ch_gt; ch_quot; ch_apos].
Proof.
  assert (∀ x, special x = false → x ∉ [ch_lt; ch_gt; ch_quot; ch_apos]) as Hsp.
  { intros x Hx Hin. unfold special in Hx. apply bool_decide_eq_false in Hx.
    apply Hx. by right. }
  induction text as [|d text IH]; [by intros ?%elem_of_nil|].
  rewrite escapeHtml_cons. intros [Hc|Hc]%elem_of_app; [|auto].
  destruct (piece_cases d) as [[Hd Hp]|[_ (r & Hp & _ & _ & Hr)]]; rewrite Hp in Hc.
  - apply list_elem_of_singleton in Hc as ->. auto.
  - apply elem_of_cons in Hc as [->|Hc]; [|auto].
    intros Hin. repeat (apply elem_of_cons in Hin as [Hin|Hin]; [done|]).
    by apply elem_of_nil in Hin.
Qed.

Lemma escapeHtml_no_markup_witness :
  ch_amp ∈ escapeHtml (js "a<b") ∧ ch_amp ∉ [ch_lt; ch_gt; ch_quot; ch_apos].
Proof.
  assert (ch_amp ∈ escapeHtml (js "a<b")) as Hin.
  { apply (bool_decide_unpack _). vm_compute. reflexivity. }
  split; [exact Hin|]. exact (escapeHtml_no_markup (js "a<b") ch_amp Hin).
Defined.

(** X2: every [&] of the escaped text is the first character of one of
    the five entities, so the result holds no bare ampersand either. *)
Theorem escapeHtml_amp_starts_entity text k :
  escapeHtml text !! k = Some ch_amp →
  ∃ ent, ent ∈ entities ∧ ent `prefix_of` drop k (escapeHtml text).
Proof.
  revert k. induction text as [|d text IH]; intros k; [done|].
  rewrite escapeHtml_cons.
  destruct (piece_cases d) as [[Hd ->]|[_ (r & -> & Hent & _ & Hr)]].
  - destruct k as [|k]; simpl.
    + intros [= ->]. done.
    + apply IH.
  - destruct k as [|k]; simpl.
    + intros _. exists (ch_amp :: r). split; [done|]. by exists (escapeHtml text).
    + destruct (decide (k < length r)%nat) as [Hk|Hk].
      * rewrite lookup_app_l by done. intros Hk'.
        assert (special ch_amp = false) as Habs; [|done].
        apply Hr. by eapply list_elem_of_lookup_2.
      * rewrite lookup_app_r by lia. intros Hk'.
        rewrite drop_app_ge by lia. by apply IH.
Qed.

Lemma escapeHtml_amp_starts_entity_witness :
  escapeHtml (js "a&b") !! 1%nat = Some ch_amp ∧
  ∃ ent, ent ∈ entities ∧ ent `prefix_of` drop 1 (escapeHtml (js "a&b")).
Proof.
  split; [reflexivity|]. apply (escapeHtml_amp_starts_entity (js "a&b") 1). reflexivity.
Defined.

(** X3: escaping loses nothing: two texts with the same escaped form are
    the same text. *)
Theorem escapeHtml_injective a b : escapeHtml a = escapeHtml b → a = b.
Proof.
  revert b. induction a as [|c a IH]; intros [|d b] H.
  - done.
  - exfalso. rewrite escapeHtml_cons, escapeHtml_nil in H.
    destruct (piece_cases d) as [[_ Hp]|[_ (r & Hp & _)]]; by rewrite Hp in H.
  - exfalso. rewrite escapeHtml_cons, escapeHtml_nil in H.
    destruct (piece_cases c) as [[_ Hp]|[_ (r & Hp & _)]]; by rewrite Hp in H.
  - rewrite !escapeHtml_cons in H.
    destruct (special c) eqn:Hc, (special d) eqn:Hd.
    + remember (escapeHtml a) as Ea eqn:HEa. remember (escapeHtml b) as Eb eqn:HEb.
      destruct (special_cases c Hc) as [->|[->|[->|[->| ->]]]];
        destruct (special_cases d Hd) as [->|[->|[->|[->| ->]]]];
        vm_compute in H; try discriminate H;
        (assert (Ea = Eb) as HE by congruence; f_equal; apply IH; congruence).
    + exfalso. destruct (special_cases c Hc) as [->|[->|[->|[->| ->]]]];
        injection H as <- _; done.
    + exfalso. destruct (special_cases d Hd) as [->|[->|[->|[->| ->]]]];
        injection H as -> _; done.
    + injection H as -> H. f_equal. by apply IH.
Qed.

Lemma escapeHtml_injective_witness :
  escapeHtml (js "1<2") = js "1&lt;2" ∧ js "1<2" = [49; 60; 50].
Proof.
  split; [reflexivity|]. apply (escapeHtml_injective (js "1<2") [49; 60; 50]). reflexivity.
Defined.

(** X4: escaping works character by character: the escaped form of a
    concatenation is the concatenation of the escaped forms. *)
Theorem escapeHtml_app a b : escapeHtml (a ++ b) = escapeHtml a ++ escapeHtml b.
Proof. unfold escapeHtml, replace_class. apply bind_app. Qed.

(** X5: a text is left as it is exactly when it holds none of the five
    characters, and escaping is not idempotent: escaping an escaped text
    changes it again unless the original held none of them (the [&] of
    an entity is escaped once more). *)
Theorem escapeHtml_twice text :
  (escapeHtml text = text ↔ plain text) ∧
  (escapeHtml (escapeHtml text) = escapeHtml text ↔ plain text).
Proof.
  assert (∀ t, escapeHtml t = t ↔ plain t) as Hfix.
  { intros t. split; [|apply escapeHtml_plain].
    intros H. apply escapeHtml_length. by rewrite H. }
  split; [apply Hfix|]. rewrite Hfix. split.
  - intros Hp. destruct (plain_dec text) as [|Hn]; [done|].
    apply not_plain in Hn as (c & Hc & Hs).
    by pose proof (Hp ch_amp (escapeHtml_amp _ _ Hc Hs)).
  - intros Hp. by rewrite escapeHtml_plain.
Qed.

(** ** What no handler changes *)
Lemma keeps_refl a : keeps a a.
Proof. by repeat split. Qed.

Lemma keeps_trans a b c : keeps a b → keeps b c → keeps a c.
Proof.
  intros (?&?&?&?&?&?&?) (?&?&?&?&?&?&?). repeat split; try congruence. auto.
Qed.

Lemma items_kept_refl s : items_kept s s.
Proof. apply Forall2_same_length_lookup. split; [done|]. intros i x y ? ?.
  replace y with x by congruence. apply keeps_refl. Qed.

Lemma items_kept_same s0 s s' :
  elements (this s') = elements (this s) → items_kept s0 s → items_kept s0 s'.
Proof. unfold items_kept. by intros ->. Qed.

Lemma items_kept_alter s0 i f s s' :
  elements (this s') = alter f i (elements (this s)) →
  (∀ x, keeps x (f x)) →
  items_kept s0 s → items_kept s0 s'.
Proof.
  unfold items_kept. intros -> Hf H.
  apply Forall2_same_length_lookup. apply Forall2_same_length_lookup in H as [Hlen H].
  split; [by rewrite length_alter|].
  intros j x y Hx. destruct (decide (j = i)) as [->|Hne].
  - rewrite list_lookup_alter_eq.
    destruct (elements (this s) !! i) as [z|] eqn:Hz; [|done].
    intros [= <-]. eapply keeps_trans; [by eapply H|apply Hf].
  - rewrite list_lookup_alter_ne by done. by apply H.
Qed.

Lemma keeps_currentText t x : keeps x (with_currentText t x).
Proof. by repeat split. Qed.

Lemma keeps_loopTimeout h x : keeps x (with_loopTimeout h x).
Proof. by repeat split. Qed.

Lemma keeps_shown x : keeps x (with_isVisible true x).
Proof. by repeat split. Qed.

Lemma items_kept_stable s0 : stable (items_kept s0).
Proof.
  split.
  - intros i sl s s' HI Ho. destruct Ho.
    + by apply (items_kept_same s0 s).
    + done.
    + eapply (items_kept_alter s0 i _ s); [done| |done]. intros x. apply keeps_currentText.
    + eapply (items_kept_alter s0 i _ s); [done| |done]. intros x. apply keeps_currentText.
    + by apply (items_kept_same s0 s).
    + apply foldl_inv; [by apply (items_kept_same s0 s)|].
      intros a si Ha. eapply (items_kept_alter s0 si _ a); [done| |done].
      intros x. apply keeps_loopTimeout.
    + by apply (items_kept_same s0 s).
  - intros si sl s r s' HI Ho. destruct Ho.
    + done.
    + eapply (items_kept_alter s0 si (with_loopTimeout None ∘ with_currentText []) s);
        [simpl; by rewrite list_alter_alter_eq| |done].
      intros x. by repeat split.
    + eapply (items_kept_alter s0 si _ s); [done| |done]. intros x. apply keeps_currentText.
  - intros sl i s s' HI Ho.
    assert (∀ it, items_kept s0 (shown i it s)) as Hsh.
    { intros it. unfold shown. destruct (negb (isVisible it)); [|done].
      eapply (items_kept_alter s0 i _ s); [done| |done]. intros x. apply keeps_shown. }
    destruct Ho.
    + by apply (items_kept_same s0 s).
    + eapply (items_kept_alter s0 i _ (shown i it s)); [done| |done].
      intros x. apply keeps_currentText.
    + eapply (items_kept_alter s0 i _ (shown i it s)); [done| |done].
      intros x. apply keeps_currentText.
  - intros i s r s' HI Ho. destruct Ho; by apply (items_kept_same s0 s).
  - intros l msg s HI. by apply (items_kept_same s0 s).
  - intros t s HI. by apply (items_kept_same s0 s).
  - intros id s HI. by apply (items_kept_same s0 s).
  - intros s HI. by apply (items_kept_same s0 s).
Qed.

Lemma same_config_refl s : same_config s s.
Proof. by repeat split. Qed.

Lemma shown_config i it s : same_config s (shown i it s).
Proof. unfold shown. destruct (negb (isVisible it)); by repeat split. Qed.

Lemma same_config_trans a b c : same_config a b → same_config b c → same_config a c.
Proof.
  intros (?&?&?&?&?&?&?&?&?) (?&?&?&?&?&?&?&?&?). repeat split; congruence.
Qed.

Lemma same_config_stable s0 : stable (same_config s0).
Proof.
  assert (∀ s s', same_config s s' → same_config s0 s → same_config s0 s') as Hstep.
  { intros s s' H1 H2. by eapply same_config_trans. }
  split.
  - intros i sl s s' HI Ho. eapply Hstep; [|done]. destruct Ho; try by repeat split.
    apply (foldl_inv (same_config s)); [by repeat split|].
    intros a si Ha. eapply same_config_trans; [done|]. by repeat split.
  - intros si sl s r s' HI Ho. eapply Hstep; [|done]. destruct Ho; by repeat split.
  - intros sl i s s' HI Ho. eapply Hstep; [|done].
    destruct Ho; try by repeat split.
    + eapply same_config_trans; [apply (shown_config i it)|]. by repeat split.
    + eapply same_config_trans; [apply (shown_config i it)|]. by repeat split.
  - intros i s r s' HI Ho. eapply Hstep; [|done]. destruct Ho; by repeat split.
  - intros l msg s HI. eapply Hstep; [|done]. by repeat split.
  - intros t s HI. eapply Hstep; [|done]. by repeat split.
  - intros id s HI. eapply Hstep; [|done]. by repeat split.
  - intros s HI. eapply Hstep; [|done]. by repeat split.
Qed.

Lemma boot_this options doc faulty :
  this (boot options doc faulty)
  = mkTW (num_or (opt_typingSpeed options) 40)
         (str_or (opt_cursorChar options) full_block)
         (num_or (opt_pauseDuration options) 1500)
         (num_or (opt_staggerDelay options) 100)
         (num_or (opt_loopDelay options) 20000)
         (match opt_autoStart options with Some false => false | _ => true end)
         (tracked (slideGroups doc)) None ∅.
Proof. unfold boot, init, try_catch. by destruct doc. Qed.

Lemma boot_host options doc faulty :
  host (boot options doc faulty)
  = mkHost 0 1 ∅ (list_to_map ((λ el, (el_id el, el_children el)) <$> doc)) faulty
           (observed_slides (tracked (slideGroups doc)))
           (match doc with [] => [(Warn, "No typewriter elements found"%string)] | _ => [] end).
Proof. unfold boot, init, try_catch. by destruct doc. Qed.

(** X6: no event adds, removes or reorders tracking objects, and none
    changes an object's element, texts, [isTyping], slide or stagger
    index; [isVisible], once true, stays true (nothing ever sets it back,
    so an item keeps typing after its slide has left the viewport). *)
Theorem items_static ev s : items_kept s (dispatch ev s).
Proof. apply stable_dispatch; [apply items_kept_stable|apply items_kept_refl]. Qed.

(** X7: no method writes the configuration: in every reachable state the
    typing speed, the cursor, the pause, the stagger delay, the loop
    delay and [autoStart] are what the constructor stored. A missing
    option, [0] and the empty string give the default; any other delay
    or cursor is stored as it is. *)
Theorem config_fixed options doc faulty s :
  reachable options doc faulty s →
  (typingSpeed (this s) = typingSpeed (constructor options) ∧
   cursorChar (this s) = cursorChar (constructor options) ∧
   pauseDuration (this s) = pauseDuration (constructor options) ∧
   staggerDelay (this s) = staggerDelay (constructor options) ∧
   loopDelay (this s) = loopDelay (constructor options) ∧
   autoStart (this s) = autoStart (constructor options)) ∧
  typingSpeed (this s)
  = match opt_typingSpeed options with Some 0 | None => 40 | Some n => n end ∧
  cursorChar (this s)
  = match opt_cursorChar options with Some [] | None => full_block | Some c => c end ∧
  staggerDelay (this s)
  = match opt_staggerDelay options with Some 0 | None => 100 | Some n => n end ∧
  loopDelay (this s)
  = match opt_loopDelay options with Some 0 | None => 20000 | Some n => n end.
Proof.
  intros Hr.
  assert (same_config (boot options doc faulty) s) as (H1 & H2 & H3 & H4 & H5 & H6 & _).
  { eapply stable_reachable; [apply same_config_stable|apply same_config_refl|done]. }
  rewrite boot_this in H1, H2, H3, H4, H5, H6. simpl in *.
  split; [by repeat split|].
  rewrite H1, H2, H4, H5. split_and!.
  - by destruct (opt_typingSpeed options) as [[|p]|].
  - by destruct (opt_cursorChar options) as [[|c r]|].
  - by destruct (opt_staggerDelay options) as [[|p]|].
  - by destruct (opt_loopDelay options) as [[|p]|].
Qed.

Lemma config_fixed_witness :
  let s := run [Scenario.visible_at 0; EvTimer; EvTimer]
               (boot (mkOptions (Some 0) (Some []) None (Some 7) None None) Scenario.doc ∅) in
  typingSpeed (this s) = 40 ∧ cursorChar (this s) = full_block ∧
  staggerDelay (this s) = 7 ∧ loopDelay (this s) = 20000.
Proof.
  intros s.
  assert (reachable (mkOptions (Some 0) (Some []) None (Some 7) None None) Scenario.doc ∅ s)
    as Hr by (do 3 apply reach_step; apply reach_boot).
  destruct (config_fixed _ _ _ _ Hr) as (_ & H1 & H2 & H3 & H4).
  split; [exact H1|]. split; [exact H2|]. split; [exact H3|exact H4].
Defined.

Lemma observer_quiet entries s :
  forallb (λ entry : positive * bool, negb entry.2) entries = true →
  observerCallback entries s = (Ok tt, s).
Proof.
  induction entries as [|[target b] l IH]; [done|].
  simpl. intros [Hb Hl]%andb_true_iff. destruct b; [done|].
  unfold observerCallback. simpl. unfold bind. rewrite onEntry_leaving. by apply IH.
Qed.

Lemma destroyed_idle s :
  timers (host s) = ∅ → timeoutIds (this s) = ∅ → destroyed s = s.
Proof.
  intros Ht Hi. unfold destroyed. rewrite Hi, cancel_all_empty.
  destruct s as [[] h]. simpl in *. by subst.
Qed.

Lemma next_timer_empty : next_timer ∅ = None.
Proof. unfold next_timer. by rewrite map_to_list_empty. Qed.

(** X8: an observer report in which no entry is intersecting does
    nothing: the state after it is the state before, but for the clock. *)
Theorem leaving_is_ignored t entries s :
  forallb (λ entry : positive * bool, negb entry.2) entries = true →
  dispatch (EvIntersect t entries) s = advance t s.
Proof.
  intros H. simpl. unfold host_run. by rewrite observer_quiet.
Qed.

Lemma leaving_is_ignored_witness :
  dispatch (EvIntersect 30 [(Scenario.slide, false)])
           (run [Scenario.visible_at 0; EvTimer] Scenario.s0)
  = advance 30 (run [Scenario.visible_at 0; EvTimer] Scenario.s0).
Proof. apply leaving_is_ignored. reflexivity. Defined.

(** X9: the engine never starts on its own: as long as no slide has been
    reported as intersecting, whatever else happens, no timer is pending,
    no sink is written, nothing is logged and the instance is as [init]
    left it ([autoStart] is stored but never read). *)
Theorem nothing_starts_untriggered options doc faulty evs :
  Forall (λ ev, quiet ev = true) evs →
  let s0 := boot options doc faulty in
  let s := run evs s0 in
  timers (host s) = ∅ ∧ this s = this s0 ∧ sinks (host s) = sinks (host s0) ∧
  console (host s) = console (host s0).
Proof.
  intros Hq s0 s. subst s.
  assert (timers (host s0) = ∅ ∧ timeoutIds (this s0) = ∅) as [Ht0 Hi0].
  { unfold s0. by rewrite boot_this, boot_host. }
  cut (∀ a, timers (host a) = ∅ → timeoutIds (this a) = ∅ →
            timers (host (run evs a)) = ∅ ∧ this (run evs a) = this a ∧
            sinks (host (run evs a)) = sinks (host a) ∧
            console (host (run evs a)) = console (host a)).
  { intros H. by apply H. }
  clear Ht0 Hi0. induction Hq as [|ev evs Hev Hq IH]; intros a Ht Hi; [done|].
  change (run (ev :: evs) a) with (run evs (dispatch ev a)).
  assert (timers (host (dispatch ev a)) = ∅ ∧ this (dispatch ev a) = this a ∧
          sinks (host (dispatch ev a)) = sinks (host a) ∧
          console (host (dispatch ev a)) = console (host a)) as (H1 & H2 & H3 & H4).
  { destruct ev as [|t entries|].
    - simpl. unfold fire. by rewrite Ht, next_timer_empty.
    - simpl. unfold host_run. by rewrite observer_quiet.
    - simpl. unfold host_run. rewrite destroy_run. by rewrite destroyed_idle. }
  destruct (IH (dispatch ev a)) as (?&?&?&?); [done|by rewrite H2|].
  split_and!; congruence.
Qed.

Lemma nothing_starts_untriggered_witness :
  let s := run [EvTimer; EvIntersect 5 [(Scenario.slide, false)]; EvUnload; EvTimer]
               Scenario.s0 in
  timers (host s) = ∅ ∧ sinks (host s) = sinks (host Scenario.s0).
Proof.
  intros s.
  destruct (nothing_starts_untriggered Scenario.options Scenario.doc ∅
              [EvTimer; EvIntersect 5 [(Scenario.slide, false)]; EvUnload; EvTimer])
    as (H1 & _ & H3 & _).
  - repeat constructor.
  - split; [exact H1|exact H3].
Defined.

(** X10: [typeText], the observer callback and [destroy] never let an
    exception escape, in any state; the restart closure, which runs outside
    every [try], completes exactly when its item exists and its sink takes
    writes, and throws otherwise. *)
Theorem only_loopRestart_throws i sl entries s :
  (typeText i sl s).1 = Ok tt ∧
  (observerCallback entries s).1 = Ok tt ∧
  (destroy s).1 = Ok tt ∧
  ((loopRestart i sl s).1 = Ok tt ↔ healthy i s).
Proof.
  split_and!.
  - by destruct (typeText_run i sl s) as (s' & -> & _).
  - apply observerCallback_ok.
  - by rewrite destroy_run.
  - destruct (loopRestart_run i sl s) as (r & s' & -> & Ho). simpl. unfold healthy.
    destruct Ho as [Hn|it e Hit He Hb|it err Hit Hbad].
    + split; [done|]. intros (it & e & Hit & _). congruence.
    + split; [|done]. intros _. eauto.
    + split; [done|]. intros (it' & e & Hit' & He & Hb).
      replace it' with it in * by congruence.
      destruct Hbad as [?|(e' & ? & ?)]; [congruence|].
      replace e' with e in * by congruence. done.
Qed.

(** ** Typing timers survive a trigger *)
Lemma HInv_handles s i h :
  HInv s → handles s !! i = Some (Some h) → (h < nextTimer (host s))%positive.
Proof.
  intros HI Hh. unfold handles in Hh. rewrite list_lookup_fmap in Hh.
  destruct (elements (this s) !! i) as [it|] eqn:Hit; [|done].
  injection Hh as Hh. by eapply HI.
Qed.

Lemma KInv_step s s' :
  HInv s → KInv s →
  (∀ h tm, (h < nextTimer (host s))%positive →
           timers (host s') !! h = Some tm → timers (host s) !! h = Some tm) →
  (∀ i h, handles s' !! i = Some (Some h) →
          handles s !! i = Some (Some h) ∨
          ∀ tm, timers (host s') !! h = Some tm → ∃ si sl, callback tm = CbLoopRestart si sl) →
  KInv s'.
Proof.
  intros HH HK Ht Hh i h tm Hi Htm.
  destruct (Hh i h Hi) as [Hold|Hnew]; [|by apply Hnew].
  apply (HK i h tm Hold). apply Ht; [|done]. by eapply HInv_handles.
Qed.

Lemma KInv_same s s' :
  HInv s → KInv s → handles s' = handles s →
  (∀ h tm, (h < nextTimer (host s))%positive →
           timers (host s') !! h = Some tm → timers (host s) !! h = Some tm) →
  KInv s'.
Proof.
  intros HH HK Hh Ht. apply (KInv_step s); [done..|]. intros i h. rewrite Hh. auto.
Qed.

Lemma extends_old s s' h tm :
  extends s s' → (h < nextTimer (host s))%positive →
  timers (host s') !! h = Some tm → timers (host s) !! h = Some tm.
Proof. intros [_ He] Hh. by destruct (He h Hh) as [-> _]. Qed.

Lemma K_arm_one sl a si : K a → K (arm_one sl a si).
Proof.
  intros (HH & HF & HK). split_and!.
  - eapply (HInv_alter si _ a); [done|simpl; lia| |done].
    intros x h. simpl. intros [= <-]. right. lia.
  - intros id tm. simpl. rewrite lookup_insert. case_decide; [intros _; lia|].
    intros H'. specialize (HF id tm H'). lia.
  - apply (KInv_step a); [done..| |].
    + intros h tm Hh. simpl. rewrite lookup_insert_ne by lia. done.
    + intros i h. unfold handles. simpl. rewrite handles_alter_set.
      destruct (decide (i = si)) as [->|Hne].
      * intros Hi. apply list_lookup_insert_Some in Hi as [(_ & [= <-] & _)|[? _]]; [|done].
        right. intros tm. rewrite lookup_insert_eq. intros [= <-]. simpl. eauto.
      * rewrite list_lookup_insert_ne by done. auto.
Qed.

Lemma K_stable : stable K.
Proof.
  split.
  - intros i sl s s' (HH & HF & HK) Ho.
    pose proof (st_typeText _ HInv_stable _ _ _ _ HH Ho) as HH'.
    pose proof (st_typeText _ fresh_stable _ _ _ _ HF Ho) as HF'.
    split_and!; [done..|]. clear HH' HF'.
    destruct Ho as [Hn|it Hit Hv|it e c Hit Hv He Hc Hb|it e c Hit Hv He Hc Hb
                   |it e Hit Hv He Hlen Hb Hd|it e Hit Hv He Hlen Hb Hd Hl
                   |it e Hit Hv He Hlen Hb].
    + by apply (KInv_same s).
    + done.
    + apply (KInv_same s); [done..| |].
      * unfold handles. simpl. by apply fmap_alter_same.
      * intros h tm Hh. simpl. rewrite lookup_insert_ne by lia. done.
    + apply (KInv_same s); [done..| |done].
      unfold handles. simpl. by apply fmap_alter_same.
    + by apply (KInv_same s).
    + apply (foldl_inv K); [|intros a x; apply K_arm_one].
      split_and!; [by apply (HInv_same s)| |by apply (KInv_same s)].
      intros id tm. apply HF.
    + by apply (KInv_same s).
  - intros si sl s r s' (HH & HF & HK) Ho.
    split_and!; [by eapply (st_loopRestart _ HInv_stable)
                |by eapply (st_loopRestart _ fresh_stable)|].
    destruct Ho as [Hn|it e Hit He Hb|it err Hit Hbad].
    + done.
    + apply (KInv_step s); [done..| |].
      * intros h tm Hh. simpl. rewrite lookup_insert_ne by lia. done.
      * intros i h. unfold handles. simpl. rewrite handles_alter_set.
        rewrite (fmap_alter_same loopTimeout) by done.
        destruct (decide (i = si)) as [->|Hne].
        -- intros Hi. by apply list_lookup_insert_Some in Hi as [(_ & [=] & _)|[? _]].
        -- rewrite list_lookup_insert_ne by done. auto.
    + apply (KInv_same s); [done..| |done].
      unfold handles. simpl. by apply fmap_alter_same.
  - intros sl i s s' (HH & HF & HK) Ho.
    split_and!; [by eapply (st_startItem _ HInv_stable)
                |by eapply (st_startItem _ fresh_stable)|].
    destruct Ho as [Hn|it e Hit He Hb|it Hit Hbad].
    + by apply (KInv_same s).
    + apply (KInv_same s); [done..| |].
      * unfold handles, started. simpl. rewrite (fmap_alter_same loopTimeout) by done.
        apply shown_handles.
      * intros h tm Hh. unfold started. simpl. rewrite !shown_host.
        rewrite lookup_insert_ne by lia. done.
    + apply (KInv_same s); [done..| |].
      * unfold handles. simpl. rewrite (fmap_alter_same loopTimeout) by done.
        apply shown_handles.
      * intros h tm Hh. simpl. by rewrite shown_host.
  - intros i s r s' (HH & HF & HK) Ho.
    split_and!; [by eapply (st_clearLoop _ HInv_stable)
                |by eapply (st_clearLoop _ fresh_stable)|].
    destruct Ho; try done.
    apply (KInv_same s); [done..|]. intros h tm _. simpl.
    rewrite lookup_delete_Some. tauto.
  - intros l msg s (HH & HF & HK).
    split_and!; [by apply (st_log _ HInv_stable)|by apply (st_log _ fresh_stable)|].
    by apply (KInv_same s).
  - intros t s (HH & HF & HK).
    split_and!; [by apply (st_advance _ HInv_stable)|by apply (st_advance _ fresh_stable)|].
    by apply (KInv_same s).
  - intros id s (HH & HF & HK).
    split_and!; [by apply (st_untimed _ HInv_stable)|by apply (st_untimed _ fresh_stable)|].
    apply (KInv_same s); [done..|]. intros h tm _. simpl.
    rewrite lookup_delete_Some. tauto.
  - intros s (HH & HF & HK).
    split_and!; [by apply (st_destroyed _ HInv_stable)|by apply (st_destroyed _ fresh_stable)|].
    apply (KInv_same s); [done..|]. intros h tm _. simpl.
    rewrite map_lookup_filter_Some. tauto.
Qed.

Lemma boot_K options doc faulty : K (boot options doc faulty).
Proof.
  split_and!; [apply boot_HInv|apply boot_fresh|].
  intros i h tm _. by rewrite boot_host.
Qed.

Lemma reachable_K options doc faulty s : reachable options doc faulty s → K s.
Proof. apply stable_reachable; [apply K_stable|apply boot_K]. Qed.

(** X11: the observer callback cancels restart timers only: a [typeText]
    timer that is pending when a slide is reported as intersecting is
    still pending afterwards, with the same due time, next to the start
    timers the report adds (so an item can have two typing chains). *)
Theorem trigger_keeps_typing_timers options doc faulty s t entries id tm i sl :
  reachable options doc faulty s →
  timers (host s) !! id = Some tm → callback tm = CbTypeText i sl →
  timers (host (dispatch (EvIntersect t entries) s)) !! id = Some tm.
Proof.
  intros Hr Hid Hcb. simpl.
  apply (observer_inv (λ a, K a ∧ timers (host a) !! id = Some tm)).
  - intros sl' j a b [HK Ha] Ho. split; [by eapply (st_startItem _ K_stable)|].
    destruct HK as (_ & HF & _).
    destruct (startItem_extends _ _ _ _ Ho) as [_ He].
    destruct (He id) as [-> _]; [by eapply HF|done].
  - intros j a r b [HK Ha] Ho. split; [by eapply (st_clearLoop _ K_stable)|].
    destruct Ho as [Hn|it id' Hit Hl|it Hit Hl]; [done| |done].
    simpl. rewrite lookup_delete_ne; [done|]. intros ->.
    destruct HK as (_ & _ & HK).
    destruct (HK j id tm) as (si & sl'' & Hcb'); [|done|congruence].
    by rewrite (handles_lookup _ _ _ Hit), Hl.
  - split; [apply (st_advance _ K_stable); by eapply reachable_K|done].
Qed.

(** The start timer a trigger gives to a healthy item of the slide. *)
Lemma trigger_starts s t target i it e :
  elements (this s) !! i = Some it → slideElement it = target →
  element it = Some e → e ∉ broken (host s) →
  let s' := dispatch (EvIntersect t [(target, true)]) s in
  ∃ id, timers (host s') !! id
          = Some (mkTimer (N.max (now (host s)) t +
                           N.of_nat (staggerIndex it) * staggerDelay (this s))
                          (CbTypeText i (slide_items target (elements (this s))))) ∧
        id ∈ timeoutIds (this s').
Proof.
  intros Hi Hs He Hbe s'. subst s'. simpl. rewrite single_entry.
  set (sl := slide_items target (elements (this s))).
  destruct (onEntry_intersecting target (advance t s)) as (s1 & s2 & -> & Hc1 & Hc2).
  simpl in Hc1, Hc2. fold sl in Hc1, Hc2. simpl.
  assert (cleared (advance t s) sl s1) as (Hel1 & Hn1 & Hnow1 & Hsd1 & Hb1 & _).
  { apply (chain_prefix_inv (cleared (advance t s)) _ _ _ _ Hc1).
    - split_and!; try done. intros j itj h Hj. by apply elem_of_nil in Hj.
    - intros done j a b. apply cleared_step. }
  simpl in *.
  assert (i ∈ sl) as Hin by (apply slide_items_spec; eauto).
  assert (start_frame s1 s2 ∧
          ∀ i it, i ∈ sl → elements (this s1) !! i = Some it →
            restarted_ok sl (now (host s1)) (staggerDelay (this s1)) (broken (host s1))
                         it i s2) as [_ Hok].
  { apply (chain_prefix_inv
             (λ done a, start_frame s1 a ∧
                ∀ i it, i ∈ done → elements (this s1) !! i = Some it →
                  restarted_ok sl (now (host s1)) (staggerDelay (this s1))
                               (broken (host s1)) it i a) _ _ _ _ Hc2).
    - split; [apply start_frame_refl|]. intros j itj Hj. by apply elem_of_nil in Hj.
    - intros done j a b [Hfr Hdone] Ho. split; [by eapply start_frame_step|].
      intros k itk [Hk| ->%list_elem_of_singleton]%elem_of_app Hitk.
      + eapply restarted_ok_keep; [done..|]. by apply Hdone.
      + by eapply restarted_ok_new. }
  destruct (Hok i it Hin) as (it' & Hit' & Hcur & Hvis & Hsink).
  { by rewrite Hel1. }
  destruct (Hsink e He) as (Hs' & id & _ & Hid & Hidin).
  { by rewrite Hb1. }
  exists id. split; [|done]. rewrite Hid. by rewrite Hnow1, Hsd1.
Qed.

(** X12: [destroy] cancels timers but does not stop the observer: it
    leaves the tracking objects and the observed slides as they are, and a
    slide reported as intersecting afterwards gets its start timers as
    before. *)
Theorem destroy_keeps_observer s t target i it e :
  elements (this s) !! i = Some it → slideElement it = target →
  element it = Some e → e ∉ broken (host s) →
  let s1 := dispatch EvUnload s in
  let s2 := dispatch (EvIntersect t [(target, true)]) s1 in
  observing (host s1) = observing (host s) ∧
  elements (this s1) = elements (this s) ∧
  ∃ id, timers (host s2) !! id
          = Some (mkTimer (N.max (now (host s)) t +
                           N.of_nat (staggerIndex it) * staggerDelay (this s))
                          (CbTypeText i (slide_items target (elements (this s))))) ∧
        id ∈ timeoutIds (this s2).
Proof.
  intros Hi Hs He Hb s1 s2.
  assert (s1 = destroyed s) as Hs1.
  { unfold s1. simpl. unfold host_run. by rewrite destroy_run. }
  split; [by rewrite Hs1|]. split; [by rewrite Hs1|].
  assert (elements (this s1) !! i = Some it) as Hi1 by by rewrite Hs1.
  assert (e ∉ broken (host s1)) as Hb1 by by rewrite Hs1.
  pose proof (trigger_starts s1 t target i it e Hi1 Hs He Hb1) as Hst.
  cbv zeta in Hst. destruct Hst as (id & Hid & Hin).
  exists id. split; [|done]. fold s2 in Hid. rewrite Hid. by rewrite Hs1.
Qed.

Lemma destroy_keeps_observer_witness :
  let s := run [Scenario.visible_at 0; EvTimer] Scenario.s0 in
  let s1 := dispatch EvUnload s in
  let s2 := dispatch (Scenario.visible_at 40) s1 in
  timers (host s1) = ∅ ∧
  ∃ id, timers (host s2) !! id = Some (mkTimer 45 (CbTypeText 1 [0; 1]%nat)).
Proof.
  intros s s1 s2. split; [vm_compute; reflexivity|].
  pose (it := mkItem (Some Scenario.el1) (js "Yo") (js "Yo") [] false true
                     Scenario.slide 1 None).
  assert (elements (this s) !! 1%nat = Some it) as Hit by (vm_compute; reflexivity).
  destruct (destroy_keeps_observer s 40 Scenario.slide 1%nat it Scenario.el1 Hit eq_refl eq_refl)
    as (_ & _ & id & Hid & _).
  { assert (broken (host s) = ∅) as -> by (vm_compute; reflexivity). apply not_elem_of_empty. }
  exists id. etransitivity; [exact Hid|]. vm_compute. reflexivity.
Defined.

Lemma trigger_keeps_typing_timers_witness :
  let s := run [Scenario.visible_at 0; EvTimer] Scenario.s0 in
  let s' := dispatch (Scenario.visible_at 3) s in
  timers (host s') !! 3%positive = Some (mkTimer 10 (CbTypeText 0 [0; 1]%nat)) ∧
  timers (host s') !! 4%positive = Some (mkTimer 3 (CbTypeText 0 [0; 1]%nat)).
Proof.
  intros s s'. split; [|vm_compute; reflexivity].
  apply (trigger_keeps_typing_timers Scenario.options Scenario.doc ∅ s 3
           [(Scenario.slide, true)] 3%positive _ 0%nat [0; 1]%nat).
  - do 2 apply reach_step. apply reach_boot.
  - vm_compute. reflexivity.
  - reflexivity.
Defined.

(** ** Registration, in document order *)
Lemma group_push_keys slide el groups :
  (group_push slide el groups).*1
  = if decide (slide ∈ groups.*1) then groups.*1 else groups.*1 ++ [slide].
Proof.
  induction groups as [|[k els] groups IH].
  - simpl. destruct (decide (slide ∈ [])) as [H|H]; [by apply elem_of_nil in H|done].
  - cbn [group_push]. destruct (decide (k = slide)) as [->|Hk].
    + rewrite decide_True; [done|]. rewrite fmap_cons. left.
    + rewrite fmap_cons, IH. simpl. destruct (decide (slide ∈ groups.*1)) as [Hin|Hin].
      * rewrite decide_True; [done|]. by right.
      * rewrite decide_False; [done|]. intros [->|?]%elem_of_cons; done.
Qed.

Lemma members_snoc slide seen el :
  members slide (seen ++ [el])
  = members slide seen ++ (if decide (container el = Some slide) then [el] else []).
Proof.
  unfold members. rewrite filter_app, filter_cons, filter_nil.
  by destruct (decide (container el = Some slide)).
Qed.

Lemma group_push_members slide el seen groups :
  container el = Some slide →
  NoDup groups.*1 →
  Forall (λ g, g.2 = members g.1 seen) groups →
  (slide ∉ groups.*1 → members slide seen = []) →
  Forall (λ g, g.2 = members g.1 (seen ++ [el])) (group_push slide el groups).
Proof.
  intros Hel. induction groups as [|[k els] groups IH]; simpl; intros Hnd Hall Hnew.
  - apply Forall_singleton. simpl. rewrite members_snoc, decide_True by done.
    rewrite Hnew; [done|]. by intros ?%elem_of_nil.
  - apply NoDup_cons in Hnd as [Hk Hnd]. apply Forall_cons in Hall as [Hhd Hall].
    simpl in Hhd. case_decide as Hks.
    + subst k. apply Forall_cons. split.
      * simpl. by rewrite members_snoc, decide_True, Hhd by done.
      * apply Forall_forall. intros [k' els'] Hin.
        assert (k' ≠ slide) as Hne.
        { intros ->. apply Hk. apply list_elem_of_fmap. by exists (slide, els'). }
        rewrite Forall_forall in Hall. specialize (Hall _ Hin). simpl in *.
        rewrite members_snoc, decide_False by congruence. by rewrite app_nil_r.
    + apply Forall_cons. split.
      * simpl. rewrite members_snoc, decide_False by congruence. by rewrite app_nil_r.
      * apply IH; [done..|]. intros Hno. apply Hnew.
        intros [->|?]%elem_of_cons; done.
Qed.

Lemma members_nil_iff slide seen :
  (∀ el, el ∈ seen → container el ≠ Some slide) → members slide seen = [].
Proof.
  intros H. destruct (members slide seen) as [|x l] eqn:Hm; [done|].
  assert (x ∈ members slide seen) as Hx by (rewrite Hm; left).
  apply list_elem_of_filter in Hx as [Hc Hx]. by destruct (H x Hx).
Qed.

Lemma grouped_nil : grouped [] [].
Proof.
  split; [apply NoDup_nil_2|done|]. intros el slide Hel. by apply elem_of_nil in Hel.
Qed.

Lemma grouped_step seen groups el :
  grouped seen groups →
  grouped (seen ++ [el])
    (match container el with
     | Some slide => group_push slide el groups
     | None => groups
     end).
Proof.
  intros [Hk Hm Ha]. destruct (container el) as [slide|] eqn:Hc.
  - split.
    + rewrite group_push_keys. case_decide as Hin; [done|].
      apply NoDup_app. split_and!; [done| |apply NoDup_singleton].
      intros x Hx ->%list_elem_of_singleton. done.
    + apply group_push_members; [done..|]. intros Hno. apply members_nil_iff.
      intros el' Hel' Hc'. by apply Hno, (Ha el').
    + intros el' slide' Hel' Hc'. rewrite group_push_keys.
      apply elem_of_app in Hel' as [Hel'| ->%list_elem_of_singleton].
      * specialize (Ha _ _ Hel' Hc'). case_decide; [done|]. apply elem_of_app. by left.
      * replace slide' with slide by congruence.
        case_decide; [done|]. apply elem_of_app. right. left.
  - split; [done| |].
    + eapply Forall_impl; [done|]. intros [k els] ->. simpl.
      rewrite members_snoc, decide_False by congruence. by rewrite app_nil_r.
    + intros el' slide' [Hel'| ->%list_elem_of_singleton]%elem_of_app Hc'; [eauto|congruence].
Qed.

Lemma slideGroups_grouped doc : grouped doc (slideGroups doc).
Proof.
  unfold slideGroups.
  cut (∀ rest seen groups, grouped seen groups →
         grouped (seen ++ rest)
           (foldl (λ groups el,
              match or_else (closest_slide el) (closest_topic el) with
              | Some slide => group_push slide el groups
              | None => groups
              end) groups rest)).
  { intros H. apply (H doc [] []), grouped_nil. }
  intros rest. induction rest as [|el rest IH]; intros seen groups Hg.
  - by rewrite app_nil_r.
  - simpl. replace (seen ++ el :: rest) with ((seen ++ [el]) ++ rest)
      by by rewrite <- app_assoc.
    apply IH. by apply grouped_step.
Qed.

Lemma filter_lookup_pos {A} (P : A → Prop) `{∀ x, Decision (P x)} (l : list A) idx x :
  filter P l !! idx = Some x →
  ∃ k, l !! k = Some x ∧ P x ∧ length (filter P (take k l)) = idx.
Proof.
  revert idx. induction l as [|y l IH]; intros idx; [done|].
  rewrite filter_cons. destruct (decide (P y)) as [Hy|Hy].
  - destruct idx as [|idx]; simpl.
    + intros [= ->]. by exists 0%nat.
    + intros (k & Hk & Hx & Hlen)%IH. exists (S k). split_and!; [done..|].
      simpl. rewrite filter_cons, decide_True by done. simpl. by rewrite Hlen.
  - intros (k & Hk & Hx & Hlen)%IH. exists (S k). split_and!; [done..|].
    simpl. by rewrite filter_cons, decide_False.
Qed.

(** Where an item of the freshly initialised instance comes from. *)
Lemma boot_item_position options doc faulty i it :
  elements (this (boot options doc faulty)) !! i = Some it →
  ∃ k el, doc !! k = Some el ∧ data_typewriter el ≠ [] ∧
    container el = Some (slideElement it) ∧
    it = mkItem (Some (el_id el)) (data_typewriter el) (data_typewriter el)
                [] false false (slideElement it)
                (length (members (slideElement it) (take k doc))) None.
Proof.
  rewrite boot_elements. intros Hit%list_elem_of_lookup_2.
  apply tracked_item in Hit as (slide & els & index & el & Hg & Hel & Hne & ->).
  destruct (slideGroups_grouped doc) as [_ Hm _].
  rewrite Forall_forall in Hm. specialize (Hm _ Hg). simpl in Hm. subst els.
  apply filter_lookup_pos in Hel as (k & Hk & Hc & Hlen).
  exists k, el. simpl. split_and!; try done. unfold members. by rewrite Hlen.
Qed.

Lemma items_kept_lookup s0 s i it :
  items_kept s0 s → elements (this s) !! i = Some it →
  ∃ it0, elements (this s0) !! i = Some it0 ∧ keeps it0 it.
Proof. intros H Hi. by apply (Forall2_lookup_r _ _ _ _ _ H Hi). Qed.

Lemma reachable_kept options doc faulty s :
  reachable options doc faulty s → items_kept (boot options doc faulty) s.
Proof. apply stable_reachable; [apply items_kept_stable|apply items_kept_refl]. Qed.

(** X13: every tracking object stems from a matched element of the page
    with a non-empty directive and a container, and its [staggerIndex] is
    the number of matched elements of the same container that precede the
    element in document order (tracked or not: an element with an empty
    directive takes up an index). *)
Theorem staggerIndex_is_rank options doc faulty s i it :
  reachable options doc faulty s → elements (this s) !! i = Some it →
  ∃ k el, doc !! k = Some el ∧ element it = Some (el_id el) ∧
    fullText it = data_typewriter el ∧ data_typewriter el ≠ [] ∧
    container el = Some (slideElement it) ∧
    staggerIndex it = length (members (slideElement it) (take k doc)).
Proof.
  intros Hr Hit.
  destruct (items_kept_lookup _ _ _ _ (reachable_kept _ _ _ _ Hr) Hit)
    as (it0 & Hit0 & He & _ & Hf & _ & Hs & Hi & _).
  apply boot_item_position in Hit0 as (k & el & Hk & Hne & Hc & Heq).
  exists k, el.
  assert (element it0 = Some (el_id el) ∧ fullText it0 = data_typewriter el ∧
          staggerIndex it0 = length (members (slideElement it0) (take k doc)))
    as (He0 & Hf0 & Hi0) by (by rewrite Heq).
  rewrite He, Hf, Hs, Hi. done.
Qed.

Lemma tracked_item_2 groups k els index el :
  (k, els) ∈ groups → els !! index = Some el → data_typewriter el ≠ [] →
  mkItem (Some (el_id el)) (data_typewriter el) (data_typewriter el)
         [] false false k index None ∈ tracked groups.
Proof.
  intros Hg Hel Hne. unfold tracked. apply list_elem_of_join.
  exists (mjoin (imap (track k) els)). split.
  - apply list_elem_of_join. exists (track k index el). split.
    + unfold track. destruct (data_typewriter el); [done|]. apply list_elem_of_singleton. done.
    + apply elem_of_lookup_imap. eauto.
  - apply list_elem_of_fmap. by exists (k, els).
Qed.

(** The items of one group carry their positions in the group. *)
Lemma track_indices k els off :
  let items := mjoin (imap (λ n, track k (off + n)) els) in
  NoDup (staggerIndex <$> items) ∧
  Forall (λ it, (off ≤ staggerIndex it)%nat ∧ slideElement it = k) items.
Proof.
  revert off. induction els as [|x els IH]; intros off; simpl.
  - split; [apply NoDup_nil_2|done].
  - rewrite (imap_ext _ (λ n, track k (S off + n))); last first.
    { intros n y _. simpl. f_equal. lia. }
    destruct (IH (S off)) as [Hnd Hall]. simpl in Hnd, Hall.
    replace (off + 0)%nat with off by lia.
    unfold track at 1 3. destruct (data_typewriter x) as [|c r]; simpl.
    + split; [done|]. eapply Forall_impl; [done|]. simpl. intros it [? ?]. split; [lia|done].
    + split.
      * apply NoDup_cons. split; [|done]. intros Hin.
        apply list_elem_of_fmap in Hin as (it & Heq & Hin).
        rewrite Forall_forall in Hall. destruct (Hall _ Hin). lia.
      * apply Forall_cons. split; [done|].
        eapply Forall_impl; [done|]. simpl. intros it [? ?]. split; [lia|done].
Qed.

Lemma tracked_places groups :
  NoDup groups.*1 →
  NoDup ((λ it, (slideElement it, staggerIndex it)) <$> tracked groups).
Proof.
  induction groups as [|[k els] groups IH]; intros Hnd; [apply NoDup_nil_2|].
  apply NoDup_cons in Hnd as [Hk Hnd].
  unfold tracked. rewrite fmap_cons. simpl. rewrite fmap_app. apply NoDup_app.
  destruct (track_indices k els 0) as [Hn Hall]. simpl in Hn, Hall.
  split_and!.
  - apply (NoDup_fmap_1 snd). rewrite <- list_fmap_compose. done.
  - intros [sl ix] Hin1 Hin2.
    apply list_elem_of_fmap in Hin1 as (it1 & [= -> ->] & Hin1).
    apply list_elem_of_fmap in Hin2 as (it2 & [= Hs ?] & Hin2).
    rewrite Forall_forall in Hall. destruct (Hall _ Hin1) as [_ Hs1].
    apply tracked_item in Hin2 as (k' & els' & index & el & Hg & _ & _ & ->).
    simpl in *. apply Hk. apply list_elem_of_fmap. exists (k', els'). split; [simpl; congruence|done].
  - by apply IH.
Qed.

Lemma boot_elements_distinct options doc faulty i j it it' :
  NoDup (el_id <$> doc) →
  elements (this (boot options doc faulty)) !! i = Some it →
  elements (this (boot options doc faulty)) !! j = Some it' →
  element it = element it' → i = j.
Proof.
  intros Hnd Hi Hj He.
  destruct (boot_item_position _ _ _ _ _ Hi) as (k & el & Hk & _ & Hc & Heq).
  destruct (boot_item_position _ _ _ _ _ Hj) as (k' & el' & Hk' & _ & Hc' & Heq').
  assert (element it = Some (el_id el)) as He1 by by rewrite Heq.
  assert (element it' = Some (el_id el')) as He2 by by rewrite Heq'.
  assert (k = k') as <-.
  { eapply (NoDup_lookup _ k k' (el_id el) Hnd).
    - by rewrite list_lookup_fmap, Hk.
    - rewrite list_lookup_fmap, Hk'. simpl. congruence. }
  replace el' with el in * by congruence.
  assert (slideElement it' = slideElement it) as Hs by congruence.
  assert (staggerIndex it = length (members (slideElement it) (take k doc))) as Hx
    by by rewrite Heq.
  assert (staggerIndex it' = length (members (slideElement it') (take k doc))) as Hx'
    by by rewrite Heq'.
  pose proof (tracked_places (slideGroups doc) (gr_keys _ _ (slideGroups_grouped doc))) as Hp.
  rewrite boot_elements in Hi, Hj.
  eapply (NoDup_lookup _ i j (slideElement it, staggerIndex it) Hp).
  - by rewrite list_lookup_fmap, Hi.
  - rewrite list_lookup_fmap, Hj. simpl. by rewrite Hx, Hx', Hs.
Qed.

Lemma reachable_elements_distinct options doc faulty s i j it it' :
  NoDup (el_id <$> doc) → reachable options doc faulty s →
  elements (this s) !! i = Some it → elements (this s) !! j = Some it' →
  element it = element it' → i = j.
Proof.
  intros Hnd Hr Hi Hj He.
  pose proof (reachable_kept _ _ _ _ Hr) as Hk.
  destruct (items_kept_lookup _ _ _ _ Hk Hi) as (a & Ha & Hea & _).
  destruct (items_kept_lookup _ _ _ _ Hk Hj) as (b & Hb & Heb & _).
  eapply boot_elements_distinct; [done..|]. congruence.
Qed.

(** X14: on a page whose matched elements are distinct, no two tracking
    objects point to the same element, and every matched element with a
    container and a non-empty directive has its tracking object. *)
Theorem tracked_once options doc faulty s :
  NoDup (el_id <$> doc) → reachable options doc faulty s →
  (∀ i j it it', elements (this s) !! i = Some it → elements (this s) !! j = Some it' →
     element it = element it' → i = j) ∧
  (∀ el, el ∈ doc → is_Some (container el) → data_typewriter el ≠ [] →
     ∃ i it, elements (this s) !! i = Some it ∧ element it = Some (el_id el) ∧
             fullText it = data_typewriter el).
Proof.
  intros Hnd Hr. split.
  - intros i j it it'. by eapply reachable_elements_distinct.
  - intros el Hel [slide Hc] Hne.
    destruct (slideGroups_grouped doc) as [_ Hm Ha].
    specialize (Ha _ _ Hel Hc).
    apply list_elem_of_fmap in Ha as ([k els] & -> & Hg).
    rewrite Forall_forall in Hm. pose proof (Hm _ Hg) as Hels. simpl in Hels, Hc.
    assert (el ∈ els) as [index Hidx]%list_elem_of_lookup.
    { rewrite Hels. unfold members. by apply list_elem_of_filter. }
    pose proof (tracked_item_2 _ _ _ _ _ Hg Hidx Hne) as [i Hi]%list_elem_of_lookup.
    rewrite <- (boot_elements options doc faulty) in Hi.
    destruct (Forall2_lookup_l _ _ _ _ _ (reachable_kept _ _ _ _ Hr) Hi)
      as (it & Hit & He & _ & Hf & _).
    exists i, it. by rewrite He, Hf.
Qed.



(** ** What a sink shows *)
Lemma distinct_kept s0 s : distinct_sinks s0 → items_kept s0 s → distinct_sinks s.
Proof.
  intros Hd Hk i j it it' Hi Hj He.
  destruct (items_kept_lookup _ _ _ _ Hk Hi) as (a & Ha & Hea & _).
  destruct (items_kept_lookup _ _ _ _ Hk Hj) as (b & Hb & Heb & _).
  eapply Hd; [done..|]. congruence.
Qed.

Lemma DInv_keep doc s s' i f :
  DInv doc s →
  elements (this s') = alter f i (elements (this s)) →
  (∀ x, element (f x) = element x ∧ currentText (f x) = currentText x) →
  sinks (host s') = sinks (host s) → broken (host s') = broken (host s) →
  cursorChar (this s') = cursorChar (this s) →
  DInv doc s'.
Proof.
  intros [HB HS] Hel Hf Hsk Hbr Hc. split.
  - intros el Hin. rewrite Hbr, Hsk. by apply HB.
  - intros j it'. rewrite Hel. unfold shows. rewrite Hsk, Hc.
    destruct (decide (j = i)) as [->|Hne].
    + rewrite list_lookup_alter_eq.
      destruct (elements (this s) !! i) as [it|] eqn:Hit; [|done]. intros [= <-].
      destruct (Hf it) as [-> ->]. by apply (HS i).
    + rewrite list_lookup_alter_ne by done. apply HS.
Qed.

Lemma DInv_same doc s s' :
  DInv doc s →
  elements (this s') = elements (this s) →
  sinks (host s') = sinks (host s) → broken (host s') = broken (host s) →
  cursorChar (this s') = cursorChar (this s) →
  DInv doc s'.
Proof.
  intros HD Hel. apply (DInv_keep doc s s' 0 id HD); [|done].
  rewrite Hel. symmetry. by apply list_alter_id.
Qed.

Lemma DInv_write doc s s' i it e f kids :
  NoDup (el_id <$> doc) → distinct_sinks s → EInv doc s → DInv doc s →
  elements (this s) !! i = Some it → element it = Some e → e ∉ broken (host s) →
  elements (this s') = alter f i (elements (this s)) →
  element (f it) = element it →
  sinks (host s') = <[e := kids]> (sinks (host s)) →
  broken (host s') = broken (host s) →
  cursorChar (this s') = cursorChar (this s) →
  (kids = text_children (currentText (f it)) ∨
   kids = text_children (currentText (f it)) ++
          [SpanNode cursor_class (cursorChar (this s))]) →
  DInv doc s'.
Proof.
  intros Hnd Hdist HE [HB HS] Hit He Hb Hel Hfe Hsk Hbr Hc Hk. split.
  - intros el Hin Hbe. rewrite Hbr in Hbe. rewrite Hsk.
    rewrite lookup_insert_ne; [by apply HB|]. intros Heq. apply Hb. by rewrite Heq.
  - intros j it'. rewrite Hel. unfold shows. rewrite Hsk, Hc.
    destruct (decide (j = i)) as [->|Hne].
    + rewrite list_lookup_alter_eq, Hit. intros [= <-].
      destruct (HE i it Hit) as (_ & _ & el & Hin & Hee & _).
      exists el. split; [done|]. rewrite Hfe. split; [done|].
      replace (el_id el) with e by congruence.
      rewrite lookup_insert_eq. right. destruct Hk as [->| ->]; auto.
    + rewrite list_lookup_alter_ne by done. intros Hj.
      destruct (HS j it' Hj) as (el & Hin & Hee & Hsh).
      exists el. split; [done|]. split; [done|].
      rewrite lookup_insert_ne; [done|]. intros Heq.
      apply Hne. eapply Hdist; [done..|]. congruence.
Qed.

Lemma DInv_broken doc s s' i it f :
  EInv doc s → DInv doc s →
  elements (this s) !! i = Some it →
  element it = None ∨ (∃ e, element it = Some e ∧ e ∈ broken (host s)) →
  elements (this s') = alter f i (elements (this s)) →
  element (f it) = element it →
  sinks (host s') = sinks (host s) → broken (host s') = broken (host s) →
  cursorChar (this s') = cursorChar (this s) →
  DInv doc s'.
Proof.
  intros HE [HB HS] Hit Hbad Hel Hfe Hsk Hbr Hc. split.
  - intros el Hin. rewrite Hbr, Hsk. by apply HB.
  - intros j it'. rewrite Hel. unfold shows. rewrite Hsk, Hc.
    destruct (decide (j = i)) as [->|Hne].
    + rewrite list_lookup_alter_eq, Hit. intros [= <-].
      destruct (HE i it Hit) as (_ & _ & el & Hin & Hee & _).
      destruct Hbad as [?|(e & He & Hb)]; [congruence|].
      exists el. split; [done|]. rewrite Hfe. split; [done|]. left.
      apply HB; [done|]. replace (el_id el) with e by congruence. done.
    + rewrite list_lookup_alter_ne by done. apply HS.
Qed.

Lemma full_when_done doc it :
  item_ok doc it → (length (fullText it) ≤ length (currentText it))%nat →
  currentText it = fullText it.
Proof.
  intros ([k Hk] & _) Hlen. rewrite Hk in Hlen. rewrite length_app in Hlen.
  destruct k; [by rewrite app_nil_r in Hk|simpl in Hlen; lia].
Qed.

Lemma typed_sink_eq i sl it e c s :
  sinks (host (typed i sl it e c s))
  = <[e := text_children (currentText it ++ [c]) ++
           [SpanNode cursor_class (cursorChar (this s))]]> (sinks (host s)).
Proof. simpl. by rewrite lookup_insert_eq, insert_insert_eq. Qed.

Lemma shown_elements i it s :
  elements (this s) !! i = Some it →
  elements (this (shown i it s)) = alter (with_isVisible true) i (elements (this s)).
Proof.
  intros Hit. unfold shown. destruct (isVisible it) eqn:Hv; simpl; [|done].
  symmetry. apply list_eq. intros j. destruct (decide (j = i)) as [->|Hne].
  - rewrite list_lookup_alter_eq, Hit. simpl. by rewrite with_isVisible_true.
  - by rewrite list_lookup_alter_ne.
Qed.

Lemma PInv_stable doc s0 :
  NoDup (el_id <$> doc) → distinct_sinks s0 → stable (PInv doc s0).
Proof.
  intros Hnd Hd0.
  pose proof (items_kept_stable s0) as HSK. pose proof (EInv_stable doc) as HSE.
  split.
  - intros i sl s s' (HK & HE & HD) Ho.
    pose proof (st_typeText _ HSK _ _ _ _ HK Ho) as HK'.
    pose proof (st_typeText _ HSE _ _ _ _ HE Ho) as HE'.
    split_and!; [done..|]. clear HK' HE'.
    pose proof (distinct_kept _ _ Hd0 HK) as Hdist.
    destruct Ho as [Hn|it Hit Hv|it e c Hit Hv He Hc Hb|it e c Hit Hv He Hc Hb
                   |it e Hit Hv He Hlen Hb Hdn|it e Hit Hv He Hlen Hb Hdn Hl
                   |it e Hit Hv He Hlen Hb].
    + by apply (DInv_same doc s).
    + done.
    + eapply (DInv_write doc s _ i it e (with_currentText (currentText it ++ [c])) _
               Hnd Hdist HE HD Hit He Hb); [done|done|apply typed_sink_eq|done|done|by right].
    + apply (DInv_broken doc s _ i it (with_currentText (currentText it ++ [c]))
               HE HD Hit); [right; eauto|done..].
    + eapply (DInv_write doc s _ i it e id _ Hnd Hdist HE HD Hit He Hb);
        [|done|done|done|done|left].
      * simpl. symmetry. by apply list_alter_id.
      * simpl. rewrite (full_when_done doc it); [done|by eapply HE|done].
    + apply (foldl_inv (DInv doc)).
      * eapply (DInv_write doc s _ i it e id _ Hnd Hdist HE HD Hit He Hb);
          [|done|done|done|done|left].
        -- simpl. symmetry. by apply list_alter_id.
        -- simpl. rewrite (full_when_done doc it); [done|by eapply HE|done].
      * intros a si Ha. by eapply (DInv_keep doc a _ si (with_loopTimeout _)).
    + by apply (DInv_same doc s).
  - intros si sl s r s' (HK & HE & HD) Ho.
    pose proof (st_loopRestart _ HSK _ _ _ _ _ HK Ho) as HK'.
    pose proof (st_loopRestart _ HSE _ _ _ _ _ HE Ho) as HE'.
    split_and!; [done..|]. clear HK' HE'.
    pose proof (distinct_kept _ _ Hd0 HK) as Hdist.
    destruct Ho as [Hn|it e Hit He Hb|it err Hit Hbad].
    + done.
    + eapply (DInv_write doc s _ si it e (with_loopTimeout None ∘ with_currentText []) _
               Hnd Hdist HE HD Hit He Hb);
        [simpl; by rewrite list_alter_alter_eq|done|done|done|done|by left].
    + by apply (DInv_broken doc s _ si it (with_currentText []) HE HD Hit).
  - intros sl i s s' (HK & HE & HD) Ho.
    pose proof (st_startItem _ HSK _ _ _ _ HK Ho) as HK'.
    pose proof (st_startItem _ HSE _ _ _ _ HE Ho) as HE'.
    split_and!; [done..|]. clear HK' HE'.
    pose proof (distinct_kept _ _ Hd0 HK) as Hdist.
    destruct Ho as [Hn|it e Hit He Hb|it Hit Hbad].
    + by apply (DInv_same doc s).
    + eapply (DInv_write doc s _ i it e (with_currentText [] ∘ with_isVisible true) _
               Hnd Hdist HE HD Hit He Hb); [|done| | | |by left].
      * unfold started. simpl. rewrite shown_elements by done.
        by rewrite list_alter_alter_eq.
      * unfold started. simpl. by rewrite shown_host.
      * unfold started. simpl. by rewrite shown_host.
      * unfold started, shown. simpl. by destruct (negb (isVisible it)).
    + apply (DInv_broken doc s _ i it (with_currentText [] ∘ with_isVisible true)
               HE HD Hit Hbad); [|done| | |].
      * simpl. rewrite shown_elements by done. by rewrite list_alter_alter_eq.
      * simpl. by rewrite shown_host.
      * simpl. by rewrite shown_host.
      * unfold shown. simpl. by destruct (negb (isVisible it)).
  - intros i s r s' (HK & HE & HD) Ho.
    pose proof (st_clearLoop _ HSK _ _ _ _ HK Ho) as HK'.
    pose proof (st_clearLoop _ HSE _ _ _ _ HE Ho) as HE'.
    split_and!; [done..|]. destruct Ho; by apply (DInv_same doc s).
  - intros l msg s (HK & HE & HD).
    split_and!; [by apply (st_log _ HSK)|by apply (st_log _ HSE)|by apply (DInv_same doc s)].
  - intros t s (HK & HE & HD).
    split_and!; [by apply (st_advance _ HSK)|by apply (st_advance _ HSE)
                |by apply (DInv_same doc s)].
  - intros id s (HK & HE & HD).
    split_and!; [by apply (st_untimed _ HSK)|by apply (st_untimed _ HSE)
                |by apply (DInv_same doc s)].
  - intros s (HK & HE & HD).
    split_and!; [by apply (st_destroyed _ HSK)|by apply (st_destroyed _ HSE)
                |by apply (DInv_same doc s)].
Qed.

Lemma boot_DInv options doc faulty :
  NoDup (el_id <$> doc) → DInv doc (boot options doc faulty).
Proof.
  intros Hnd. split.
  - intros el Hel _. by apply boot_sinks.
  - intros i it Hit. destruct (boot_EInv options doc faulty i it Hit) as (_ & _ & el & Hel & He & _).
    exists el. split; [done|]. split; [done|]. left. by apply boot_sinks.
Qed.

(** X16: on a page whose matched elements are distinct, the sink of a
    tracked element holds, in every reachable state, either the children
    the page delivered or the revealed text of its item, alone or followed
    by one cursor [span]; the revealed text is a prefix of the full
    text. *)
Theorem sink_shows_revealed_text options doc faulty s i it :
  NoDup (el_id <$> doc) → reachable options doc faulty s →
  elements (this s) !! i = Some it →
  currentText it `prefix_of` fullText it ∧
  ∃ el, el ∈ doc ∧ element it = Some (el_id el) ∧
    (sinks (host s) !! el_id el = Some (el_children el) ∨
     sinks (host s) !! el_id el = Some (text_children (currentText it)) ∨
     sinks (host s) !! el_id el
       = Some (text_children (currentText it) ++
               [SpanNode cursor_class (cursorChar (this s))])).
Proof.
  intros Hnd Hr Hit.
  assert (PInv doc (boot options doc faulty) s) as (_ & HE & [_ HS]).
  { eapply stable_reachable; [apply PInv_stable; [done|]| |done].
    - intros a b x y. by apply boot_elements_distinct.
    - split_and!; [apply items_kept_refl|apply boot_EInv|by apply boot_DInv]. }
  split; [by destruct (HE i it Hit)|]. by apply (HS i).
Qed.

Lemma staggerIndex_is_rank_witness :
  ∃ k el, EmptyDirective.doc !! k = Some el ∧ el_id el = 13%positive ∧
          length (members 1%positive (take k EmptyDirective.doc)) = 2%nat.
Proof.
  pose (it := mkItem (Some 13%positive) (js "Yo") (js "Yo") (js "Y") false true
                     1%positive 2 None).
  assert (elements (this EmptyDirective.s) !! 1%nat = Some it) as Hit
    by (vm_compute; reflexivity).
  assert (reachable Scenario.options EmptyDirective.doc ∅ EmptyDirective.s) as Hr
    by (do 3 apply reach_step; apply reach_boot).
  destruct (staggerIndex_is_rank _ _ _ _ _ _ Hr Hit) as (k & el & Hk & He & _ & _ & _ & Hi).
  exists k, el. split; [exact Hk|]. split; [by injection He|]. symmetry. exact Hi.
Defined.

Lemma tracked_once_witness :
  let s := run [Scenario.visible_at 0; EvTimer] Scenario.s0 in
  ∃ i it, elements (this s) !! i = Some it ∧ element it = Some Scenario.el1 ∧
          fullText it = js "Yo".
Proof.
  intros s.
  assert (NoDup (el_id <$> Scenario.doc)) as Hnd.
  { simpl. repeat (apply NoDup_cons; split; [set_solver|]). apply NoDup_nil_2. }
  assert (reachable Scenario.options Scenario.doc ∅ s) as Hr
    by (do 2 apply reach_step; apply reach_boot).
  destruct (tracked_once _ _ _ _ Hnd Hr) as [_ H].
  apply (H (mkDomElement Scenario.el1 (js "Yo") (Some Scenario.slide) None
                         [TextNode (js "Yo")])).
  - unfold Scenario.doc. set_solver.
  - by eexists.
  - done.
Defined.


Lemma sink_shows_revealed_text_witness :
  let s := run [Scenario.visible_at 0; EvTimer] Scenario.s0 in
  sinks (host s) !! Scenario.el0
    = Some [TextNode (js "H"); SpanNode cursor_class full_block] ∧
  ∃ el, el ∈ Scenario.doc ∧ el_id el = Scenario.el0 ∧
    (sinks (host s) !! el_id el = Some (el_children el) ∨
     sinks (host s) !! el_id el = Some (text_children (js "H")) ∨
     sinks (host s) !! el_id el
       = Some (text_children (js "H") ++ [SpanNode cursor_class (cursorChar (this s))])).
Proof.
  intros s. split; [vm_compute; reflexivity|].
  pose (it := mkItem (Some Scenario.el0) (js "Hi") (js "Hi") (js "H") false true
                     Scenario.slide 0 None).
  assert (elements (this s) !! 0%nat = Some it) as Hit by (vm_compute; reflexivity).
  assert (NoDup (el_id <$> Scenario.doc)) as Hnd.
  { simpl. repeat (apply NoDup_cons; split; [set_solver|]). apply NoDup_nil_2. }
  assert (reachable Scenario.options Scenario.doc ∅ s) as Hr
    by (do 2 apply reach_step; apply reach_boot).
  destruct (sink_shows_revealed_text _ _ _ _ _ _ Hnd Hr Hit) as (_ & el & Hel & He & Hs).
  exists el. split; [exact Hel|]. split; [by injection He|exact Hs].
Defined.

(** ** Restart timers and the handles the items remember, once more *)

(** X17: in every reachable state a pending restart timer is the one its
    item remembers in [loopTimeout] (so the observer's [clearTimeout]
    reaches it), an item has at most one of them, and the restart timers
    armed for one slide are all due at the same time. *)
Theorem restart_timers_remembered options doc faulty s id tm si sl :
  reachable options doc faulty s →
  timers (host s) !! id = Some tm → callback tm = CbLoopRestart si sl →
  (∃ it, elements (this s) !! si = Some it ∧ loopTimeout it = Some id) ∧
  (∀ id' tm' sl', timers (host s) !! id' = Some tm' →
                  callback tm' = CbLoopRestart si sl' → id' = id) ∧
  (∀ id' tm' si', timers (host s) !! id' = Some tm' →
                  callback tm' = CbLoopRestart si' sl → due tm' = due tm).
Proof.
  intros Hr Hid Hcb. destruct (reachable_LInv _ _ _ _ Hr) as [_ Htr _ Hb].
  pose proof (Htr id tm si sl Hid Hcb) as Hh.
  split_and!.
  - unfold handles in Hh. rewrite list_lookup_fmap in Hh.
    destruct (elements (this s) !! si) as [it|]; [|done].
    injection Hh as Hh. eauto.
  - intros id' tm' sl' Hid' Hcb'. pose proof (Htr id' tm' si sl' Hid' Hcb') as Hh'.
    congruence.
  - intros id' tm' si' Hid' Hcb'. by destruct (Hb id' tm' si' id tm si sl Hid' Hid Hcb' Hcb).
Qed.

Lemma restart_timers_remembered_witness :
  timers (host Reentry.armed) !! 8%positive = Some (mkTimer 120 (CbLoopRestart 1 [0; 1]%nat)) ∧
  (∃ it, elements (this Reentry.armed) !! 1%nat = Some it ∧ loopTimeout it = Some 8%positive) ∧
  (∀ id' tm' si', timers (host Reentry.armed) !! id' = Some tm' →
                  callback tm' = CbLoopRestart si' [0; 1]%nat → due tm' = 120).
Proof.
  assert (timers (host Reentry.armed) !! 8%positive
          = Some (mkTimer 120 (CbLoopRestart 1 [0; 1]%nat))) as Hid
    by (vm_compute; reflexivity).
  split; [exact Hid|].
  assert (reachable Scenario.options Scenario.doc ∅ Reentry.armed) as Hr
    by (do 7 apply reach_step; apply reach_boot).
  destruct (restart_timers_remembered _ _ _ _ 8%positive _ 1%nat [0; 1]%nat Hr Hid eq_refl)
    as (H1 & _ & H3).
  split; [exact H1|exact H3].
Defined.

(** ** The handle set, event by event *)

Lemma arm_fold_ids sl l s :
  timeoutIds (this s) ⊆ timeoutIds (this (foldl (arm_one sl) s l)).
Proof.
  revert s. induction l as [|si l IH]; intros s; simpl; [done|].
  etransitivity; [|apply IH]. simpl. set_solver.
Qed.

Lemma typeText_ids i sl s s' :
  typeText_outcome i sl s s' → timeoutIds (this s) ⊆ timeoutIds (this s').
Proof.
  destruct 1; simpl; try set_solver.
  etransitivity; [|apply arm_fold_ids]. done.
Qed.

Lemma loopRestart_ids si sl s r s' :
  loopRestart_outcome si sl s r s' → timeoutIds (this s) ⊆ timeoutIds (this s').
Proof. destruct 1; simpl; set_solver. Qed.

Lemma shown_ids i it s : timeoutIds (this (shown i it s)) = timeoutIds (this s).
Proof. unfold shown. by destruct (negb (isVisible it)). Qed.

Lemma startItem_ids sl i s s' :
  startItem_outcome sl i s s' → timeoutIds (this s) ⊆ timeoutIds (this s').
Proof.
  destruct 1; simpl; try rewrite shown_ids; set_solver.
Qed.

(** Firing a timer takes nothing out of [timeoutIds]. *)
Lemma fire_ids s : timeoutIds (this s) ⊆ timeoutIds (this (fire s)).
Proof.
  destruct (fire_cases s) as [[_ ->]|(id & tm & _ & _ & Hcb)]; [done|].
  destruct (callback tm) as [i sl|si sl].
  - by apply typeText_ids in Hcb.
  - destruct Hcb as (r & s' & Ho & ->). apply loopRestart_ids in Ho.
    by destruct r.
Qed.

Lemma startItem_handles sl i s s' :
  startItem_outcome sl i s s' → handles s' = handles s ∧ slides s' = slides s.
Proof.
  destruct 1; [done|..]; unfold handles, slides; simpl;
    rewrite !fmap_alter_same by done;
    (split; [apply shown_handles|apply shown_slides]).
Qed.

Lemma clearLoop_handles i s r s' :
  clearLoop_outcome i s r s' → handles s' = handles s ∧ slides s' = slides s.
Proof. by destruct 1. Qed.

Lemma onEntry_handles entry s :
  handles (onEntry entry s).2 = handles s ∧ slides (onEntry entry s).2 = slides s.
Proof.
  apply (onEntry_inv (λ a, handles a = handles s ∧ slides a = slides s)); [| |done].
  - intros sl i a b [Ha1 Ha2] [Hb1 Hb2]%startItem_handles. split; congruence.
  - intros i a r b [Ha1 Ha2] [Hb1 Hb2]%clearLoop_handles. split; congruence.
Qed.

Lemma handles_item s i h :
  handles s !! i = Some (Some h) ↔
  ∃ it, elements (this s) !! i = Some it ∧ loopTimeout it = Some h.
Proof.
  unfold handles. rewrite list_lookup_fmap. split.
  - destruct (elements (this s) !! i) as [it|]; [|done]. intros [= H]. eauto.
  - intros (it & -> & <-). done.
Qed.

Lemma slides_item s i target :
  slides s !! i = Some target ↔
  ∃ it, elements (this s) !! i = Some it ∧ slideElement it = target.
Proof.
  unfold slides. rewrite list_lookup_fmap. split.
  - destruct (elements (this s) !! i) as [it|]; [|done]. intros [= H]. eauto.
  - intros (it & -> & <-). done.
Qed.

(** One entry of an observer report takes out of [timeoutIds] only handles
    that items of its slide remember. *)
Lemma onEntry_removed target b s h :
  h ∈ timeoutIds (this s) → h ∉ timeoutIds (this (onEntry (target, b) s).2) →
  b = true ∧ ∃ i, handles s !! i = Some (Some h) ∧ slides s !! i = Some target.
Proof.
  intros Hin Hout. destruct b; [split; [done|]|done].
  destruct (onEntry_intersecting target s) as (s1 & s2 & Heq & Hc1 & Hc2).
  rewrite Heq in Hout. simpl in Hout.
  set (sl := slide_items target (elements (this s))) in *.
  set (Q := ∃ i, handles s !! i = Some (Some h) ∧ slides s !! i = Some target).
  assert ((handles s1 = handles s ∧ slides s1 = slides s)
          ∧ (h ∈ timeoutIds (this s1) ∨ Q)) as [_ [H1|H1]]; [|..|done].
  { eapply (chain_inv (λ a, (handles a = handles s ∧ slides a = slides s)
                             ∧ (h ∈ timeoutIds (this a) ∨ Q)) _ _ _ _ Hc1).
    - split; [done|by left].
    - intros i a b' Hi [[Ha1 Ha2] Ha] Ho. split.
      { apply clearLoop_handles in Ho as [? ?]. split; congruence. }
      destruct Ha as [Ha|Ha]; [|by right].
      inversion Ho as [| it id Hit Hl|]; subst; simpl; [| by left].
      destruct (decide (h = id)) as [->|Hne]; [|left; set_solver].
      right. exists i. split.
      + rewrite <- Ha1. apply handles_item. eauto.
      + apply slide_items_spec in Hi as (it' & Hit' & Hs).
        apply slides_item. eauto. }
  exfalso. apply Hout.
  eapply (chain_inv (λ a, h ∈ timeoutIds (this a)) _ _ _ _ Hc2); [done|].
  intros i a b' _ Ha Ho. by apply (startItem_ids _ _ _ _ Ho).
Qed.

Lemma observer_removed entries s h :
  h ∈ timeoutIds (this s) →
  h ∉ timeoutIds (this (host_run (observerCallback entries) s)) →
  remembered entries h s.
Proof.
  unfold host_run.
  pose proof (observerCallback_ok entries s) as Hok.
  destruct (observerCallback entries s) as [r s'] eqn:Heq. simpl in Hok. subst r.
  replace s' with (observerCallback entries s).2 by by rewrite Heq.
  clear Heq s'. revert s. induction entries as [|[target b] l IH]; intros s Hin Hout; [done|].
  unfold observerCallback in Hout. simpl in Hout. unfold bind in Hout.
  pose proof (onEntry_ok (target, b) s) as Hok.
  pose proof (onEntry_handles (target, b) s) as [Hh Hs].
  pose proof (onEntry_removed target b s h Hin) as Hrem.
  destruct (onEntry (target, b) s) as [r s1]. simpl in *. subst r.
  destruct (decide (h ∈ timeoutIds (this s1))) as [H1|H1].
  - destruct (IH s1 H1 Hout) as (i & it & Hit & Hl & He).
    assert (handles s !! i = Some (Some h)) as (it0 & Hit0 & Hl0)%handles_item.
    { rewrite <- Hh. apply handles_item. eauto. }
    assert (slides s !! i = Some (slideElement it)) as (it1 & Hit1 & Hs1)%slides_item.
    { rewrite <- Hs. apply slides_item. eauto. }
    exists i, it0. split; [done|]. split; [done|].
    assert (it1 = it0) as -> by congruence. rewrite Hs1. by right.
  - destruct (Hrem H1) as [-> (i & (it0 & Hit0 & Hl0)%handles_item
                                  & (it1 & Hit1 & Hs1)%slides_item)].
    exists i, it0. split; [done|]. split; [done|].
    assert (it1 = it0) as -> by congruence. rewrite Hs1. by left.
Qed.

(** A handle leaves [timeoutIds] only when the page is unloaded or when
    the observer cancels the restart an item of an intersecting slide
    remembers. *)
Lemma dispatch_removed ev s h :
  h ∈ timeoutIds (this s) → h ∉ timeoutIds (this (dispatch ev s)) →
  ev = EvUnload ∨ ∃ t entries, ev = EvIntersect t entries ∧ remembered entries h s.
Proof.
  intros Hin Hout. destruct ev as [|t entries|]; [|right|by left].
  - simpl in Hout. by apply fire_ids in Hin.
  - exists t, entries. split; [done|].
    by apply (observer_removed entries (advance t s) h).
Qed.

Lemma remembered_cancels entries h s :
  remembered entries h s → existsb (λ entry : positive * bool, entry.2) entries = true.
Proof.
  intros (i & it & _ & _ & He). apply existsb_exists.
  exists (slideElement it, true). split; [by apply list_elem_of_In|done].
Qed.

(** Along events that cancel nothing the set only grows. *)
Lemma run_ids evs s :
  forallb (λ ev, negb (cancels ev)) evs = true →
  timeoutIds (this s) ⊆ timeoutIds (this (run evs s)).
Proof.
  revert s. induction evs as [|ev evs IH]; intros s; simpl; [done|].
  intros [Hev Hevs]%andb_true_iff. etransitivity; [|by apply IH].
  intros h Hin. destruct (decide (h ∈ timeoutIds (this (dispatch ev s)))) as [|Hout]; [done|].
  destruct (dispatch_removed ev s h Hin Hout) as [->|(t & entries & -> & Hrem)]; [done|].
  simpl in Hev. by rewrite (remembered_cancels _ _ _ Hrem) in Hev.
Qed.

Lemma gone_extends h a b : extends a b → gone h a → gone h b.
Proof.
  intros [Hle He] (Hlt & Hout & Hnone). destruct (He h Hlt) as [Ht Hi].
  split; [lia|]. split; [tauto|congruence].
Qed.

Lemma gone_clearLoop h i a r b : clearLoop_outcome i a r b → gone h a → gone h b.
Proof.
  destruct 1; [done| |done]. intros (Hlt & Hout & Hnone). split; [done|]. simpl.
  split; [set_solver|]. destruct (decide (h = id)) as [->|Hne].
  - apply lookup_delete_eq.
  - by rewrite lookup_delete_ne.
Qed.

Lemma onEntry_gone h entry s : gone h s → gone h (onEntry entry s).2.
Proof.
  apply (onEntry_inv (gone h)).
  - intros sl i a b Ha Ho. eapply gone_extends; [by eapply startItem_extends|done].
  - intros i a r b Ha Ho. by eapply gone_clearLoop.
Qed.

Lemma clear_chain_gone l a b i h :
  chain (λ i a b, clearLoop_outcome i a (Ok tt) b) l a b →
  handles a !! i = Some (Some h) → (h < nextTimer (host a))%positive → i ∈ l →
  gone h b.
Proof.
  induction 1 as [a|x l a b c Ho Hch IH]; intros Hh Hlt Hi; [by apply elem_of_nil in Hi|].
  assert (handles b = handles a ∧ nextTimer (host b) = nextTimer (host a)) as [Hhb Hnb].
  { by destruct Ho. }
  destruct (decide (i ∈ l)) as [Hil|Hil]; [apply IH; [by rewrite Hhb|by rewrite Hnb|done]|].
  apply elem_of_cons in Hi as [->|Hi]; [|done].
  eapply (chain_inv (gone h) _ _ _ _ Hch).
  - apply handles_item in Hh as (it & Hit & Hl).
    inversion Ho as [|it' id Hit' Hl'|it' Hit' Hl']; subst; [|congruence].
    assert (id = h) as -> by congruence.
    split; [done|]. simpl. split; [set_solver|apply lookup_delete_eq].
  - intros j y z _ Hy Hj. by eapply gone_clearLoop.
Qed.

(** The entry of an intersecting slide cancels what its items remember. *)
Lemma onEntry_cancels target s i h :
  HInv s → handles s !! i = Some (Some h) → slides s !! i = Some target →
  gone h (onEntry (target, true) s).2.
Proof.
  intros HH Hh Hs.
  destruct (onEntry_intersecting target s) as (s1 & s2 & Heq & Hc1 & Hc2).
  rewrite Heq. simpl.
  eapply gone_extends; [by eapply start_chain_extends|].
  eapply clear_chain_gone; [done|done| |].
  - apply handles_item in Hh as (it & Hit & Hl). by eapply HH.
  - apply slide_items_spec. apply slides_item in Hs as (it' & Hit' & Hs). eauto.
Qed.

Lemma HInv_onEntry entry s : HInv s → HInv (onEntry entry s).2.
Proof.
  apply (onEntry_inv HInv).
  - intros sl i a b. apply (st_startItem HInv HInv_stable).
  - intros i a r b. apply (st_clearLoop HInv HInv_stable).
Qed.

(** Remove on cancel: after the observer has handled a report, the handle
    an item of an intersecting slide remembered is neither pending nor in
    [timeoutIds]. *)
Lemma observer_cancels entries s h :
  HInv s → remembered entries h s →
  gone h (host_run (observerCallback entries) s).
Proof.
  intros HH (i & it & Hit & Hl & He).
  assert (handles s !! i = Some (Some h)) as Hh by (apply handles_item; eauto).
  assert (slides s !! i = Some (slideElement it)) as Hs by (apply slides_item; eauto).
  clear Hit Hl. revert Hh Hs He. generalize (slideElement it). intros target. clear it.
  intros Hh Hs He.
  unfold host_run.
  pose proof (observerCallback_ok entries s) as Hok.
  destruct (observerCallback entries s) as [r s'] eqn:Heq. simpl in Hok. subst r.
  replace s' with (observerCallback entries s).2 by by rewrite Heq.
  clear Heq s'. revert s HH Hh Hs He.
  induction entries as [|entry l IH]; intros s HH Hh Hs He; [by apply elem_of_nil in He|].
  unfold observerCallback. simpl. unfold bind.
  pose proof (onEntry_ok entry s) as Hok.
  pose proof (onEntry_handles entry s) as [Hh1 Hs1].
  pose proof (HInv_onEntry entry s HH) as HH1.
  destruct (decide ((target, true) ∈ l)) as [Hl|Hl].
  - destruct (onEntry entry s) as [r s1]. simpl in *. subst r.
    apply IH; [done|by rewrite Hh1|by rewrite Hs1|done].
  - apply elem_of_cons in He as [<-|He]; [|done].
    pose proof (onEntry_cancels target s i h HH Hh Hs) as Hg.
    destruct (onEntry (target, true) s) as [r s1]. simpl in *. subst r.
    clear IH Hl HH1 Hh1 Hs1. revert s1 Hg. clear.
    induction l as [|entry l IH]; intros s1 Hg; [done|].
    simpl. unfold bind.
    pose proof (onEntry_ok entry s1) as Hok.
    pose proof (onEntry_gone h entry s1 Hg) as Hg1.
    destruct (onEntry entry s1) as [r s2]. simpl in *. subst r.
    by apply IH.
Qed.

(** [destroy] cancels every pending timer and empties the set. *)
Lemma destroy_clears s :
  TInv s →
  timers (host (dispatch EvUnload s)) = ∅ ∧ timeoutIds (this (dispatch EvUnload s)) = ∅.
Proof.
  intros [Htr _]. simpl. unfold host_run. rewrite destroy_run. split; [|done].
  simpl. apply map_empty. intros id. apply map_lookup_filter_None.
  destruct (timers (host s) !! id) as [tm|] eqn:Hid; [right|by left].
  intros tm' _ Hnot. simpl in Hnot. apply Hnot, Htr, elem_of_dom. eauto.
Qed.

Lemma UInv_track s s' :
  (nextTimer (host s) < nextTimer (host s'))%positive →
  timeoutIds (this s') = timeoutIds (this s) ∪ {[nextTimer (host s)]} →
  UInv s → UInv s'.
Proof.
  intros Hn Hi HU h. rewrite Hi. intros [Hh| ->%elem_of_singleton]%elem_of_union; [|done].
  specialize (HU h Hh). lia.
Qed.

Lemma UInv_same s s' :
  nextTimer (host s') = nextTimer (host s) → timeoutIds (this s') ⊆ timeoutIds (this s) →
  UInv s → UInv s'.
Proof. intros Hn Hi HU h Hh. rewrite Hn. by apply HU, Hi. Qed.

Lemma UInv_stable : stable UInv.
Proof.
  split.
  - intros i sl s s' HU Ho. destruct Ho; try (by apply (UInv_same s)).
    + apply (UInv_track s); [simpl; lia|done|done].
    + apply foldl_inv; [by apply (UInv_same s)|].
      intros a x Ha. apply (UInv_track a); [simpl; lia|done|done].
  - intros si sl s r s' HU Ho. destruct Ho; try (by apply (UInv_same s)).
    apply (UInv_track s); [simpl; lia|done|done].
  - intros sl i s s' HU Ho. destruct Ho; try (by apply (UInv_same s)).
    + apply (UInv_track (shown i it s)); [simpl; lia|done|].
      apply (UInv_same s); [by rewrite shown_host|by rewrite shown_ids|done].
    + apply (UInv_same s); [simpl; by rewrite shown_host|simpl; by rewrite shown_ids|done].
  - intros i s r s' HU Ho. destruct Ho; try done.
    apply (UInv_same s); [done|simpl; set_solver|done].
  - intros l msg s HU. by apply (UInv_same s).
  - intros t s HU. by apply (UInv_same s).
  - intros id s HU. by apply (UInv_same s).
  - intros s HU h Hh. simpl in Hh. set_solver.
Qed.

Lemma reachable_UInv options doc faulty s : reachable options doc faulty s → UInv s.
Proof.
  apply stable_reachable; [apply UInv_stable|].
  intros h. rewrite boot_this. simpl. set_solver.
Qed.

Lemma older_refl s : older s s.
Proof. split; [lia|done]. Qed.

Lemma older_extends s a b : extends a b → older s a → older s b.
Proof.
  intros [Hle He] [Hn Ho]. split; [lia|]. intros h tm Hh Hb.
  apply Ho; [done|]. destruct (He h) as [<- _]; [lia|done].
Qed.

Lemma older_sub s a b :
  nextTimer (host b) = nextTimer (host a) → timers (host b) ⊆ timers (host a) →
  older s a → older s b.
Proof.
  intros Hn Hs [Hle Ho]. split; [lia|]. intros h tm Hh Hb.
  apply Ho; [done|]. by eapply lookup_weaken.
Qed.

Lemma older_stable s : stable (older s).
Proof.
  split.
  - intros i sl a b Ha Ho. eapply older_extends; [by eapply typeText_extends|done].
  - intros si sl a r b Ha Ho. eapply older_extends; [by eapply loopRestart_extends|done].
  - intros sl i a b Ha Ho. eapply older_extends; [by eapply startItem_extends|done].
  - intros i a r b Ha Ho. destruct Ho; try done.
    apply (older_sub s a); [done|apply delete_subseteq|done].
  - intros l msg a Ha. by apply (older_sub s a).
  - intros t a Ha. by apply (older_sub s a).
  - intros id a Ha. apply (older_sub s a); [done|apply delete_subseteq|done].
  - intros a Ha. apply (older_sub s a); [done|apply map_filter_subseteq|done].
Qed.

(** Add on schedule: a timer that is pending after an event and was not
    before has a handle that was not in [timeoutIds] and now is. *)
Lemma dispatch_scheduled options doc faulty ev s h tm :
  reachable options doc faulty s →
  timers (host (dispatch ev s)) !! h = Some tm → timers (host s) !! h ≠ Some tm →
  (h ∉ timeoutIds (this s)) ∧ h ∈ timeoutIds (this (dispatch ev s)).
Proof.
  intros Hr Hnew Hold. split.
  - intros Hin. apply Hold.
    destruct (stable_dispatch (older s) ev s (older_stable s) (older_refl s)) as [_ Ho].
    apply Ho; [|done]. by apply (reachable_UInv _ _ _ _ Hr).
  - pose proof (reachable_TInv _ _ _ _ (reach_step _ _ _ _ ev Hr)) as [Htr _].
    apply Htr, elem_of_dom. eauto.
Qed.

(** C4 (amended): in every reachable state every pending handle is in
    [timeoutIds]; the handle of a timer an event schedules was not in the
    set before and is in it afterwards. A handle is taken out of the set
    on cancellation only: when the observer cancels
    the restart an item of an intersecting slide remembers, and when
    [destroy] cancels all timers and empties the set. Firing takes the
    handle out of the host's timer table and leaves [timeoutIds] as it
    is, so along events that cancel nothing the set only grows and the
    handles of fired timers stay in it. *)
Theorem C4_handle_bookkeeping options doc faulty s :
  reachable options doc faulty s →
  dom (timers (host s)) ⊆ timeoutIds (this s) ∧
  (∀ ev h tm, timers (host (dispatch ev s)) !! h = Some tm →
     timers (host s) !! h ≠ Some tm →
     (h ∉ timeoutIds (this s)) ∧ h ∈ timeoutIds (this (dispatch ev s))) ∧
  (∀ id tm, next_timer (timers (host s)) = Some (id, tm) →
     timers (host (fire s)) !! id = None ∧
     timeoutIds (this s) ⊆ timeoutIds (this (fire s))) ∧
  (∀ ev h, h ∈ timeoutIds (this s) → h ∉ timeoutIds (this (dispatch ev s)) →
     ev = EvUnload ∨ ∃ t entries, ev = EvIntersect t entries ∧ remembered entries h s) ∧
  (∀ evs, forallb (λ ev, negb (cancels ev)) evs = true →
     timeoutIds (this s) ⊆ timeoutIds (this (run evs s))) ∧
  (∀ t entries h, remembered entries h s →
     timers (host (dispatch (EvIntersect t entries) s)) !! h = None ∧
     h ∉ timeoutIds (this (dispatch (EvIntersect t entries) s))) ∧
  timers (host (dispatch EvUnload s)) = ∅ ∧
  timeoutIds (this (dispatch EvUnload s)) = ∅.
Proof.
  intros Hr. pose proof (reachable_TInv _ _ _ _ Hr) as HI.
  split; [apply HI|]. split.
  { intros ev h tm. by eapply dispatch_scheduled. }
  split.
  { intros id tm Hn. split; [by eapply fire_keeps_handle|apply fire_ids]. }
  split; [intros ev h; apply dispatch_removed|].
  split; [intros evs; apply run_ids|].
  split; [|by apply destroy_clears].
  intros t entries h Hrem.
  destruct (observer_cancels entries (advance t s) h) as (_ & Hout & Hnone); [| |done].
  - apply (st_advance HInv HInv_stable). by eapply reachable_HInv.
  - done.
Qed.

Lemma C4_handle_bookkeeping_witness :
  let s := run [Scenario.visible_at 0] Scenario.s0 in
  let s' := run [EvTimer; EvTimer; EvTimer; EvTimer; EvIntersect 70 [(Scenario.slide, false)]] s in
  let s6 := run [EvTimer; EvTimer; EvTimer; EvTimer; EvTimer; EvTimer] s in
  next_timer (timers (host s)) = Some (1%positive, mkTimer 0 (CbTypeText 0 [0; 1]%nat)) ∧
  timers (host (fire s)) !! 1%positive = None ∧
  timeoutIds (this s) ⊆ timeoutIds (this s') ∧
  ((3%positive ∉ timeoutIds (this s)) ∧ 3%positive ∈ timeoutIds (this (dispatch EvTimer s))) ∧
  timers (host s6) !! 8%positive = Some (mkTimer 120 (CbLoopRestart 1 [0; 1]%nat)) ∧
  timers (host (dispatch (Scenario.visible_at 50) s6)) !! 8%positive = None ∧
  8%positive ∉ timeoutIds (this (dispatch (Scenario.visible_at 50) s6)).
Proof.
  intros s s' s6.
  pose proof (C4_handle_bookkeeping Scenario.options Scenario.doc ∅ s
                (reach_step _ _ _ _ _ (reach_boot _ _ _))) as (_ & H2 & H3 & _ & H5 & _).
  assert (reachable Scenario.options Scenario.doc ∅ s6) as Hr6.
  { do 7 apply reach_step. apply reach_boot. }
  pose proof (C4_handle_bookkeeping Scenario.options Scenario.doc ∅ s6 Hr6)
    as (_ & _ & _ & _ & _ & H6 & _).
  assert (next_timer (timers (host s)) = Some (1%positive, mkTimer 0 (CbTypeText 0 [0; 1]%nat)))
    as Hn by (vm_compute; reflexivity).
  split; [exact Hn|]. split; [exact (proj1 (H3 _ _ Hn))|]. split.
  { apply (H5 [EvTimer; EvTimer; EvTimer; EvTimer; EvIntersect 70 [(Scenario.slide, false)]]).
    reflexivity. }
  split.
  { apply (H2 EvTimer 3%positive (mkTimer 10 (CbTypeText 0 [0; 1]%nat))).
    - vm_compute. reflexivity.
    - vm_compute. discriminate. }
  split; [vm_compute; reflexivity|].
  apply (H6 50 [(Scenario.slide, true)] 8%positive).
  exists 1%nat, (mkItem (Some Scenario.el1) (js "Yo") (js "Yo") (js "Yo") false true
                        Scenario.slide 1 (Some 8%positive)).
  split; [vm_compute; reflexivity|]. split; [reflexivity|]. apply list_elem_of_here.
Defined.

(** ** The revealed length, event by event *)

Lemma prefix_take (cur full : jsstring) :
  cur `prefix_of` full → cur = take (length cur) full.
Proof. intros [r ->]. by rewrite take_app_length. Qed.

Lemma reveal_take (cur full : jsstring) c :
  cur `prefix_of` full → full !! length cur = Some c →
  cur ++ [c] = take (S (length cur)) full.
Proof.
  intros Hp Hc. erewrite take_S_r by done. by rewrite <- prefix_take.
Qed.

(** A [typeText] timer, on the item it types and on the others. *)
Lemma typeText_moved doc i sl s s' j it :
  EInv doc s → typeText_outcome i sl s s' → elements (this s) !! j = Some it →
  ∃ it', elements (this s') !! j = Some it' ∧
    moved (if bool_decide (i = j) && isVisible it
              && bool_decide (length (currentText it) < length (fullText it))%nat
           then EffReveal else EffKeep) it it'.
Proof.
  intros HE Ho Hit. destruct (HE j it Hit) as (Hp & _ & el & _ & He & _).
  destruct (typeText_item i sl s s' j it Ho Hit) as (it' & Hit' & Hcase).
  exists it'. split; [done|].
  destruct (bool_decide (i = j) && isVisible it
            && bool_decide (length (currentText it) < length (fullText it))%nat) eqn:Hb.
  - apply andb_true_iff in Hb as [[Hij%bool_decide_eq_true Hv]%andb_true_iff
                                   Hlt%bool_decide_eq_true]. subst j.
    destruct (lookup_lt_is_Some_2 (fullText it) _ Hlt) as [c Hc].
    pose proof (typeText_progress i sl s s' it c Ho Hit Hv (ltac:(by rewrite He)) Hc) as Hn.
    assert (it' = with_currentText (currentText it ++ [c]) it) as -> by congruence.
    split; [done|]. simpl. by apply reveal_take.
  - destruct Hcase as [[h ->]|(-> & Hv & _ & c & Hc & ->)]; [done|].
    apply lookup_lt_Some in Hc. rewrite Hv in Hb. simpl in Hb.
    rewrite bool_decide_eq_true_2 in Hb by done. simpl in Hb.
    by rewrite bool_decide_eq_true_2 in Hb.
Qed.

Lemma loopRestart_moved si sl s r s' j it :
  loopRestart_outcome si sl s r s' → elements (this s) !! j = Some it →
  ∃ it', elements (this s') !! j = Some it' ∧
    moved (if bool_decide (si = j) then EffReset else EffKeep) it it'.
Proof.
  intros Ho Hit. destruct (decide (si = j)) as [->|Hne].
  - rewrite bool_decide_eq_true_2 by done.
    destruct Ho as [Hn|it0 e Hit0 He Hb|it0 err Hit0 Hb]; [congruence|..]; simpl.
    + rewrite !list_lookup_alter_eq, Hit. simpl. eexists. split; [done|]. done.
    + rewrite !list_lookup_alter_eq, Hit. simpl. eexists. split; [done|]. done.
  - rewrite bool_decide_eq_false_2 by done.
    destruct Ho as [Hn|it0 e Hit0 He Hb|it0 err Hit0 Hb]; simpl.
    + by exists it.
    + rewrite !list_lookup_alter_ne by done. by exists it.
    + rewrite !list_lookup_alter_ne by done. by exists it.
Qed.

Lemma startItem_moved sl i s s' j it :
  startItem_outcome sl i s s' → elements (this s) !! j = Some it →
  ∃ it', elements (this s') !! j = Some it' ∧ slideElement it' = slideElement it ∧
    moved (if bool_decide (i = j) then EffReset else EffKeep) it it'.
Proof.
  intros Ho Hit. destruct (decide (i = j)) as [->|Hne].
  - rewrite bool_decide_eq_true_2 by done.
    destruct Ho as [Hn|it0 e Hit0 He Hb|it0 Hit0 Hb]; [congruence|..]; simpl;
      assert (it0 = it) as -> by congruence;
      rewrite (shown_lookup j it s Hit); eexists; (split; [done|]);
      unfold restart_item; by destruct (isVisible it).
  - rewrite bool_decide_eq_false_2 by done.
    destruct Ho as [Hn|it0 e Hit0 He Hb|it0 Hit0 Hb]; simpl; [by exists it|..];
      rewrite (shown_lookup_ne j i it0 s) by done; by exists it.
Qed.

(** One entry of an observer report, on item [j]. *)
Lemma onEntry_moved target b s j it :
  elements (this s) !! j = Some it →
  ∃ it', elements (this (onEntry (target, b) s).2) !! j = Some it' ∧
    slideElement it' = slideElement it ∧
    moved (if bool_decide ((slideElement it, true) = (target, b)) then EffReset else EffKeep)
          it it'.
Proof.
  intros Hit. destruct b.
  2:{ exists it. rewrite bool_decide_eq_false_2 by (by intros [=]). done. }
  destruct (onEntry_intersecting target s) as (s1 & s2 & -> & Hc1 & Hc2). simpl.
  set (sl := slide_items target (elements (this s))) in *.
  assert (elements (this s1) = elements (this s)) as Hel.
  { eapply (chain_inv (λ a, elements (this a) = elements (this s)) _ _ _ _ Hc1); [done|].
    intros i a b _ Ha Ho. rewrite <- Ha. by eapply clearLoop_length. }
  rewrite <- Hel in Hit.
  assert (j ∈ sl ↔ slideElement it = target) as Hj.
  { unfold sl. rewrite slide_items_spec, <- Hel. split.
    - intros (it0 & ? & ?). congruence.
    - eauto. }
  assert (∃ it', elements (this s2) !! j = Some it' ∧ slideElement it' = slideElement it ∧
            fullText it' = fullText it ∧
            (j ∈ sl → currentText it' = []) ∧ (j ∉ sl → currentText it' = currentText it))
    as (it' & Hit' & Hs' & Hf' & Hin & Hout).
  { apply (chain_prefix_inv
             (λ done a, ∃ it', elements (this a) !! j = Some it' ∧
                slideElement it' = slideElement it ∧ fullText it' = fullText it ∧
                (j ∈ done → currentText it' = []) ∧
                (j ∉ done → currentText it' = currentText it)) _ _ _ _ Hc2).
    - exists it. split_and!; try done. by intros ?%elem_of_nil.
    - intros done i a b (it1 & Hit1 & Hs1 & Hf1 & Hin1 & Hout1) Ho.
      destruct (startItem_moved sl i a b j it1 Ho Hit1) as (it2 & Hit2 & Hs2 & Hf2 & Hc2').
      exists it2. split; [done|]. split; [congruence|]. split; [congruence|].
      destruct (decide (i = j)) as [->|Hne].
      + rewrite bool_decide_eq_true_2 in Hc2' by done. split; [done|].
        intros Hn. exfalso. apply Hn. set_solver.
      + rewrite bool_decide_eq_false_2 in Hc2' by done. rewrite Hc2'. split.
        * intros [?|?%list_elem_of_singleton]%elem_of_app; [by apply Hin1|done].
        * intros Hn. apply Hout1. set_solver. }
  exists it'. split; [done|]. split; [done|]. split; [done|].
  destruct (decide ((slideElement it, true) = (target, true))) as [Heq|Hne].
  - rewrite bool_decide_eq_true_2 by done. apply Hin, Hj. congruence.
  - rewrite bool_decide_eq_false_2 by done. apply Hout. rewrite Hj. congruence.
Qed.

Lemma observer_moved entries s j it :
  elements (this s) !! j = Some it →
  ∃ it', elements (this (host_run (observerCallback entries) s)) !! j = Some it' ∧
    moved (if bool_decide ((slideElement it, true) ∈ entries) then EffReset else EffKeep)
          it it'.
Proof.
  unfold host_run.
  pose proof (observerCallback_ok entries s) as Hok.
  destruct (observerCallback entries s) as [r s'] eqn:Heq. simpl in Hok. subst r.
  replace s' with (observerCallback entries s).2 by by rewrite Heq.
  clear Heq s'. unfold observerCallback. revert s it.
  induction entries as [|[target b] l IH]; intros s it Hit.
  { exists it. by rewrite bool_decide_eq_false_2 by apply not_elem_of_nil. }
  simpl. unfold bind.
  pose proof (onEntry_ok (target, b) s) as Hok.
  destruct (onEntry_moved target b s j it Hit) as (it1 & Hit1 & Hs1 & Hf1 & Hc1).
  destruct (onEntry (target, b) s) as [r s1]. simpl in *. subst r.
  destruct (IH s1 it1 Hit1) as (it2 & Hit2 & Hf2 & Hc2).
  exists it2. split; [done|]. split; [congruence|].
  rewrite Hs1 in Hc2.
  destruct (decide ((slideElement it, true) ∈ l)) as [Hl|Hl].
  - rewrite bool_decide_eq_true_2 in Hc2 by done.
    rewrite bool_decide_eq_true_2 by set_solver. done.
  - rewrite bool_decide_eq_false_2 in Hc2 by done. rewrite Hc2.
    destruct (decide ((slideElement it, true) = (target, b))) as [Heq|Hne].
    + rewrite bool_decide_eq_true_2 in Hc1 by done.
      rewrite bool_decide_eq_true_2 by (rewrite Heq; set_solver). done.
    + rewrite bool_decide_eq_false_2 in Hc1 by done.
      rewrite bool_decide_eq_false_2 by set_solver. done.
Qed.

(** An event moves the revealed text of an item as its effect says. *)
Lemma dispatch_moved doc ev s j it :
  EInv doc s → elements (this s) !! j = Some it →
  ∃ it', elements (this (dispatch ev s)) !! j = Some it' ∧ moved (effect ev s j) it it'.
Proof.
  intros HE Hit. destruct ev as [|t entries|]; simpl.
  - destruct (fire_cases s) as [[-> ->]|(id & tm & -> & _ & Hcb)]; [by exists it|].
    destruct (callback tm) as [i sl|si sl].
    + rewrite Hit. by eapply (typeText_moved doc i sl (taken id tm s)).
    + destruct Hcb as (r & s' & Ho & ->).
      destruct (loopRestart_moved si sl _ r s' j it Ho Hit) as (it' & Hit' & Hm).
      exists it'. split; [|done]. by destruct r.
  - rewrite Hit. by apply (observer_moved entries (advance t s)).
  - unfold host_run. rewrite destroy_run. by exists it.
Qed.

Lemma effect_reveal ev s j it :
  elements (this s) !! j = Some it → effect ev s j = EffReveal →
  (length (currentText it) < length (fullText it))%nat.
Proof.
  intros Hit. unfold effect. destruct ev as [|t entries|]; [| |done].
  - destruct (next_timer (timers (host s))) as [[id tm]|]; [|done].
    destruct (callback tm) as [i sl|si sl].
    + rewrite Hit.
      destruct (bool_decide (length (currentText it) < length (fullText it))%nat) eqn:Hlt.
      * by apply bool_decide_eq_true in Hlt.
      * by rewrite andb_false_r.
    + by destruct (bool_decide (si = j)).
  - rewrite Hit. by destruct (bool_decide _).
Qed.

Lemma dispatch_length doc ev s j it :
  EInv doc s → elements (this s) !! j = Some it →
  ∃ it', elements (this (dispatch ev s)) !! j = Some it' ∧ moved (effect ev s j) it it' ∧
    length (currentText it') = apply_effect (effect ev s j) (length (currentText it)).
Proof.
  intros HE Hit. destruct (dispatch_moved doc ev s j it HE Hit) as (it' & Hit' & Hm).
  exists it'. split; [done|]. split; [done|]. destruct Hm as [_ ->].
  pose proof (effect_reveal ev s j it Hit) as Hlt.
  destruct (effect ev s j); simpl; [|done..].
  rewrite length_take. specialize (Hlt eq_refl). lia.
Qed.

Lemma run_length doc evs s j it :
  EInv doc s → elements (this s) !! j = Some it →
  ∃ it', elements (this (run evs s)) !! j = Some it' ∧ fullText it' = fullText it ∧
    length (currentText it') = track_length evs s j (length (currentText it)) ∧
    (no_reset evs s j = true →
     length (currentText it') = (length (currentText it) + typing_steps evs s j)%nat).
Proof.
  revert s it. induction evs as [|ev evs IH]; intros s it HE Hit; simpl.
  { exists it. split_and!; try done. all: intros _; lia. }
  destruct (dispatch_length doc ev s j it HE Hit) as (it1 & Hit1 & [Hf1 _] & Hl1).
  destruct (IH (dispatch ev s) it1) as (it' & Hit' & Hf' & Hl' & Hn'); [|done|].
  { by apply stable_dispatch; [apply EInv_stable|]. }
  exists it'. split; [done|]. split; [congruence|]. split; [by rewrite Hl', Hl1|].
  intros [Hev Hevs]%andb_true_iff. rewrite (Hn' Hevs), Hl1.
  apply negb_true_iff, bool_decide_eq_false in Hev.
  destruct (effect ev s j); simpl; try done; lia.
Qed.

Lemma reachable_run_from options doc faulty evs s :
  reachable options doc faulty s → reachable options doc faulty (run evs s).
Proof.
  revert s. induction evs as [|ev evs IH]; intros s Hr; [done|].
  simpl. apply IH. by constructor.
Qed.

(** C5, the statement as written fails: the slide is reported as
    intersecting again while the chain of "Hi" is alive (its next step,
    timer 3, is pending before and after); the revealed length of "Hi"
    drops from 1 to 0. *)
Lemma C5_reset_shortens_counterexample :
  let s := run [Scenario.visible_at 0; EvTimer] Scenario.s0 in
  let s' := dispatch (Scenario.visible_at 3) s in
  reachable Scenario.options Scenario.doc ∅ s' ∧
  revealed s 0 = Some (js "H") ∧
  timers (host s) !! 3%positive = Some (mkTimer 10 (CbTypeText 0 [0; 1]%nat)) ∧
  timers (host s') !! 3%positive = Some (mkTimer 10 (CbTypeText 0 [0; 1]%nat)) ∧
  revealed s' 0 = Some [].
Proof.
  split; [apply (reachable_run _ _ _ [Scenario.visible_at 0; EvTimer; Scenario.visible_at 3])|].
  split_and!; vm_compute; reflexivity.
Qed.

(** C5 (amended): the revealed text of a tracked item is a prefix of its
    full text, so its length lies between 0 and the full length. An event
    changes it in one of two ways only: a [typeText] timer of the item,
    the item being visible and short of its full text, reveals exactly
    one more code unit of the full text; the item's loop restart and a
    report of its slide as intersecting reset it to empty, also while a
    typing timer of the item is pending. Every other event leaves it as
    it is. So the length is non-decreasing along a run without a reset of
    the item, where it grows by the number of the item's typing steps,
    and an empty item holds its full text after exactly [length fullText]
    typing steps. *)
Theorem C5_reveal_between_resets options doc faulty s j it :
  reachable options doc faulty s → elements (this s) !! j = Some it →
  (length (currentText it) ≤ length (fullText it))%nat ∧
  currentText it = take (length (currentText it)) (fullText it) ∧
  (∀ ev, ∃ it', elements (this (dispatch ev s)) !! j = Some it' ∧
     fullText it' = fullText it ∧
     currentText it' = match effect ev s j with
                       | EffReveal => take (S (length (currentText it))) (fullText it)
                       | EffReset => []
                       | EffKeep => currentText it
                       end ∧
     length (currentText it') = apply_effect (effect ev s j) (length (currentText it))) ∧
  (∀ evs, ∃ it', elements (this (run evs s)) !! j = Some it' ∧
     fullText it' = fullText it ∧
     length (currentText it') = track_length evs s j (length (currentText it)) ∧
     (no_reset evs s j = true →
      length (currentText it') = (length (currentText it) + typing_steps evs s j)%nat ∧
      currentText it'
      = take (length (currentText it) + typing_steps evs s j) (fullText it) ∧
      (currentText it = [] →
       (currentText it' = fullText it ↔ typing_steps evs s j = length (fullText it))))).
Proof.
  intros Hr Hit. pose proof (reachable_EInv _ _ _ _ Hr) as HE.
  destruct (HE j it Hit) as (Hp & _).
  split; [by apply prefix_length|]. split; [by apply prefix_take|]. split.
  - intros ev. destruct (dispatch_length doc ev s j it HE Hit) as (it' & Hit' & [Hf Hc] & Hl).
    by exists it'.
  - intros evs. destruct (run_length doc evs s j it HE Hit) as (it' & Hit' & Hf & Hl & Hn).
    exists it'. split; [done|]. split; [done|]. split; [done|].
    intros Hno. specialize (Hn Hno).
    assert (EInv doc (run evs s)) as HE'.
    { eapply reachable_EInv. by apply reachable_run_from. }
    destruct (HE' j it' Hit') as (Hp' & _).
    assert (currentText it'
            = take (length (currentText it) + typing_steps evs s j) (fullText it)) as Htk.
    { rewrite <- Hn, <- Hf. by apply prefix_take. }
    split; [done|]. split; [done|].
    intros Hnil. rewrite Hnil in *. simpl in *. split.
    + intros Heq. rewrite <- Hn. by rewrite Heq.
    + intros Heq. rewrite Htk, Heq. apply take_ge. lia.
Qed.

Lemma C5_reveal_between_resets_witness :
  let s := run [Scenario.visible_at 0] Scenario.s0 in
  let evs := [EvTimer; EvTimer; EvTimer] in
  revealed s 0 = Some [] ∧
  typing_steps evs s 0 = 2%nat ∧
  ∃ it', elements (this (run evs s)) !! 0%nat = Some it' ∧
         currentText it' = js "Hi" ∧ fullText it' = js "Hi".
Proof.
  intros s evs.
  pose (it := mkItem (Some Scenario.el0) (js "Hi") (js "Hi") [] false true Scenario.slide 0 None).
  assert (elements (this s) !! 0%nat = Some it) as Hit by (vm_compute; reflexivity).
  destruct (C5_reveal_between_resets Scenario.options Scenario.doc ∅ s 0 it
              (reach_step _ _ _ _ _ (reach_boot _ _ _)) Hit) as (_ & _ & _ & Hrun).
  destruct (Hrun evs) as (it' & Hit' & Hf & _ & Hno).
  assert (no_reset evs s 0 = true) as Hnr by (vm_compute; reflexivity).
  assert (typing_steps evs s 0 = 2%nat) as Hts by (vm_compute; reflexivity).
  destruct (Hno Hnr) as (_ & Hcur & _).
  split; [vm_compute; reflexivity|]. split; [exact Hts|].
  exists it'. split; [exact Hit'|]. split; [|exact Hf].
  etransitivity; [exact Hcur|]. rewrite Hts. reflexivity.
Defined.

(** ** The guard of a step, and a step that throws *)








(** *** A scheduled step finds its item marked visible *)







Lemma restart_item_marked it :
  isVisible (restart_item it) = true ∧ currentText (restart_item it) = [].
Proof. done. Qed.












(** ** Sink writes, by occasion *)

Lemma text_children_nonempty t : t ≠ [] → text_children t = [TextNode t].
Proof. by destruct t. Qed.

(** A timer event writes what its callback's occasion says. *)
Lemma fire_written doc s e kids :
  EInv doc s →
  sinks (host (fire s)) !! e = Some kids → sinks (host s) !! e ≠ Some kids →
  written s EvTimer e kids.
Proof.
  intros HE Hk Hchg.
  destruct (fire_cases s) as [[_ Heq]|(id & tm & Hn & _ & Hcb)].
  { by rewrite Heq in Hk. }
  set (sf := fire s) in *. clearbody sf.
  destruct (callback tm) as [i sl|si sl] eqn:Hc.
  - destruct Hcb as [| | it e0 c Hit Hv He Hc0 Hb| | it e0 Hit Hv He Hlen Hb Hd
                     | it e0 Hit Hv He Hlen Hb Hd Hl| ]; try done.
    + rewrite typed_sinks in Hk. destruct (decide (e0 = e)) as [->|Hne].
      * rewrite lookup_insert_eq in Hk. injection Hk as <-.
        by eapply (w_typing s id tm i sl it e c).
      * by rewrite lookup_insert_ne in Hk.
    + simpl in Hk. destruct (decide (e0 = e)) as [->|Hne].
      * rewrite lookup_insert_eq in Hk. injection Hk as <-.
        destruct (HE i it Hit) as (_ & Hne & _).
        rewrite text_children_nonempty by done.
        by eapply (w_final s id tm i sl it e).
      * by rewrite lookup_insert_ne in Hk.
    + destruct (arm_fold_host_frame sl sl (st_write e0 (text_children (fullText it)) (taken id tm s)))
        as [Hs _]. rewrite Hs in Hk. simpl in Hk.
      destruct (decide (e0 = e)) as [->|Hne].
      * rewrite lookup_insert_eq in Hk. injection Hk as <-.
        destruct (HE i it Hit) as (_ & Hne & _).
        rewrite text_children_nonempty by done.
        by eapply (w_final s id tm i sl it e).
      * by rewrite lookup_insert_ne in Hk.
  - destruct Hcb as (r & s' & Ho & Heq). rewrite Heq in Hk.
    assert (sinks (host (settle r s')) = sinks (host s')) as Hs by by destruct r.
    rewrite Hs in Hk. destruct Ho as [|it e0 Hit He Hb|]; [done| |done].
    simpl in Hk. destruct (decide (e0 = e)) as [->|Hne].
    + rewrite lookup_insert_eq in Hk. injection Hk as <-.
      by eapply (w_restart s id tm si sl it e).
    + by rewrite lookup_insert_ne in Hk.
Qed.

Lemma emptied_refl T s : emptied T s s.
Proof. split; [apply items_kept_refl|]. intros e kids. by left. Qed.

Lemma emptied_same T s a b :
  items_kept s b → sinks (host b) = sinks (host a) → emptied T s a → emptied T s b.
Proof. intros Hk Hs [_ H]. split; [done|]. intros e kids. rewrite Hs. apply H. Qed.

Lemma emptied_clearLoop T s i a r b :
  emptied T s a → clearLoop_outcome i a r b → emptied T s b.
Proof.
  intros Ha Ho. apply (emptied_same T s a); [|by destruct Ho|done].
  eapply (st_clearLoop _ (items_kept_stable s)); [apply Ha|done].
Qed.

Lemma emptied_startItem (T : positive → Prop) s sl i a b :
  (∀ it, elements (this s) !! i = Some it → T (slideElement it)) →
  emptied T s a → startItem_outcome sl i a b → emptied T s b.
Proof.
  intros HT Ha Ho.
  assert (items_kept s b) as Hkb.
  { eapply (st_startItem _ (items_kept_stable s)); [apply Ha|done]. }
  destruct Ha as [Hka Ha].
  destruct Ho as [Hnone|it e0 Hit He Hb|it Hit Hb].
  - by apply (emptied_same T s a).
  - split; [done|]. intros e kids. simpl. rewrite shown_host.
    destruct (decide (e0 = e)) as [->|Hne].
    + rewrite lookup_insert_eq. intros [= <-]. right. split; [done|].
      destruct (items_kept_lookup s a i it Hka Hit) as (it0 & Hit0 & Hk0).
      exists i, it0. split; [done|]. split; [|by apply HT].
      destruct Hk0 as (Hel & _). by rewrite <- Hel.
    + rewrite lookup_insert_ne by done. apply Ha.
  - split; [done|]. intros e kids. simpl. rewrite shown_host. apply Ha.
Qed.

Lemma emptied_onEntry (T : positive → Prop) s entry a :
  (entry.2 = true → T entry.1) →
  emptied T s a → emptied T s (onEntry entry a).2.
Proof.
  intros HT Ha. destruct entry as [target [|]]; [|done].
  destruct (onEntry_intersecting target a) as (s1 & s2 & -> & Hc1 & Hc2). simpl.
  set (sl := slide_items target (elements (this a))) in *.
  assert (emptied T s s1) as H1.
  { eapply (chain_inv (emptied T s) _ _ _ _ Hc1); [done|].
    intros i x y _ Hx Ho. by eapply emptied_clearLoop. }
  eapply (chain_inv (emptied T s) _ _ _ _ Hc2); [done|].
  intros i x y Hi Hx Ho. eapply (emptied_startItem T s sl i x y); [|done|done].
  intros it0 Hit0. apply slide_items_spec in Hi as (it & Hit & Hs).
  destruct (items_kept_lookup s a i it (proj1 Ha) Hit) as (it0' & Hit0' & Hk0).
  assert (it0' = it0) as -> by congruence.
  destruct Hk0 as (_ & _ & _ & _ & Hsl & _). rewrite <- Hsl, Hs. by apply HT.
Qed.

(** The observer empties sinks of items of intersecting slides and
    touches no other. *)
Lemma observer_written entries s :
  emptied (λ target, (target, true) ∈ entries) s (host_run (observerCallback entries) s).
Proof.
  unfold host_run.
  pose proof (observerCallback_ok entries s) as Hok.
  destruct (observerCallback entries s) as [r s'] eqn:Heq. simpl in Hok. subst r.
  replace s' with (observerCallback entries s).2 by by rewrite Heq.
  clear Heq s'. unfold observerCallback.
  cut (∀ l a, l ⊆ entries → emptied (λ target, (target, true) ∈ entries) s a →
              emptied (λ target, (target, true) ∈ entries) s (forEach l onEntry a).2).
  { intros H. apply H; [done|apply emptied_refl]. }
  induction l as [|entry l IH]; intros a Hl Ha; [done|].
  simpl. unfold bind.
  pose proof (onEntry_ok entry a) as Hok.
  pose proof (emptied_onEntry (λ target, (target, true) ∈ entries) s entry a) as H1.
  destruct (onEntry entry a) as [r a1]. simpl in *. subst r.
  apply IH; [set_solver|]. apply H1; [|done].
  intros Hb. destruct entry as [target b]. simpl in *. subst b. set_solver.
Qed.

(** C7 (amended): whenever an event changes what a sink holds, the new
    content is the one of the occasion. A typing step of a visible item
    short of its full text writes the revealed text, one character
    longer, as one text node followed by the cursor [span]; a step of an
    item that has all its text writes the full text as one text node with
    no cursor; a loop restart, and a visibility report for each item of a
    slide it reports as intersecting, write the empty content; unloading
    writes nothing. On a sink that takes writes the timer callbacks do
    write just that. The content is built from text nodes and the cursor
    element, never parsed. *)
Theorem C7_sink_writes_by_occasion options doc faulty s :
  reachable options doc faulty s →
  (∀ ev e kids,
     sinks (host (dispatch ev s)) !! e = Some kids → sinks (host s) !! e ≠ Some kids →
     written s ev e kids) ∧
  (∀ e kids, written s EvTimer e kids → e ∉ broken (host s) →
     sinks (host (dispatch EvTimer s)) !! e = Some kids).
Proof.
  intros Hr. pose proof (reachable_EInv _ _ _ _ Hr) as HE. split.
  - intros ev e kids Hk Hchg. destruct ev as [|t entries|]; simpl in Hk.
    + by eapply fire_written.
    + destruct (observer_written entries (advance t s)) as [_ H].
      destruct (H e kids Hk) as [?|(-> & i & it & Hit & He & Hin)]; [done|].
      by eapply w_trigger.
    + unfold host_run in Hk. by rewrite destroy_run in Hk.
  - intros e kids Hw Hb. simpl.
    destruct (fire_cases s) as [[Hnone _]|(id & tm & Hn & _ & Hcb)].
    { inversion Hw; congruence. }
    set (sf := fire s) in *. clearbody sf.
    inversion Hw as [id' tm' i sl it e' c Hn' Hc Hit Hv He Hch
                    |id' tm' i sl it e' Hn' Hc Hit Hv He Hlen
                    |id' tm' si sl it e' Hn' Hc Hit He|]; subst;
      assert (id' = id ∧ tm' = tm) as [-> ->] by (split; congruence);
      rewrite Hc in Hcb.
    + assert (broken (host (taken id tm s)) = broken (host s)) as Hbr by done.
      destruct Hcb as [Hit1| it1 Hit1 Hg|it1 e1 c1 Hit1 Hv1 He1 Hc1 Hb1
                       |it1 e1 c1 Hit1 Hv1 He1 Hc1 Hb1
                       |it1 e1 Hit1 Hv1 He1 Hl1 Hb1 Hd1|it1 e1 Hit1 Hv1 He1 Hl1 Hb1 Hd1 Hlt1
                       |it1 e1 Hit1 Hv1 He1 Hl1 Hb1];
        change (elements (this (taken id tm s))) with (elements (this s)) in Hit1;
        try (assert (it1 = it) as -> by congruence);
        try (assert (e1 = e) as -> by congruence); try congruence.
      * destruct Hg; congruence.
      * assert (c1 = c) as -> by congruence. rewrite typed_sinks. by rewrite lookup_insert_eq.
      * apply lookup_lt_Some in Hch. lia.
      * apply lookup_lt_Some in Hch. lia.
    + destruct (HE i it Hit) as (_ & Hne & _).
      assert (broken (host (taken id tm s)) = broken (host s)) as Hbr by done.
      destruct Hcb as [Hit1| it1 Hit1 Hg|it1 e1 c1 Hit1 Hv1 He1 Hc1 Hb1
                       |it1 e1 c1 Hit1 Hv1 He1 Hc1 Hb1
                       |it1 e1 Hit1 Hv1 He1 Hl1 Hb1 Hd1|it1 e1 Hit1 Hv1 He1 Hl1 Hb1 Hd1 Hlt1
                       |it1 e1 Hit1 Hv1 He1 Hl1 Hb1];
        change (elements (this (taken id tm s))) with (elements (this s)) in Hit1;
        try (assert (it1 = it) as -> by congruence);
        try (assert (e1 = e) as -> by congruence); try congruence.
      * destruct Hg; congruence.
      * apply lookup_lt_Some in Hc1. lia.
      * simpl. rewrite lookup_insert_eq. by rewrite text_children_nonempty.
      * destruct (arm_fold_host_frame sl sl
                    (st_write e (text_children (fullText it)) (taken id tm s))) as [-> _].
        simpl. rewrite lookup_insert_eq. by rewrite text_children_nonempty.
    + destruct Hcb as (r & s1 & Ho & ->).
      assert (sinks (host (settle r s1)) = sinks (host s1)) as -> by by destruct r.
      destruct Ho as [Hit1|it1 e1 Hit1 He1 Hb1|it1 err Hit1 Hb1];
        change (elements (this (taken id tm s))) with (elements (this s)) in Hit1;
        try (assert (it1 = it) as -> by congruence); try congruence.
      * assert (e1 = e) as -> by congruence. simpl. by rewrite lookup_insert_eq.
      * destruct Hb1 as [?|(e1 & ? & ?)]; [congruence|].
        assert (e1 = e) as -> by congruence. done.
Qed.

Lemma C7_sink_writes_by_occasion_witness :
  let s := run [Scenario.visible_at 0] Scenario.s0 in
  written s EvTimer Scenario.el0 [TextNode (js "H"); SpanNode cursor_class full_block] ∧
  written Scenario.s0 (Scenario.visible_at 0) Scenario.el0 [] ∧
  sinks (host (dispatch EvTimer s)) !! Scenario.el0
  = Some [TextNode (js "H"); SpanNode cursor_class full_block].
Proof.
  intros s.
  destruct (C7_sink_writes_by_occasion Scenario.options Scenario.doc ∅ s
              (reach_step _ _ _ _ _ (reach_boot _ _ _))) as [H1 H2].
  destruct (C7_sink_writes_by_occasion Scenario.options Scenario.doc ∅ Scenario.s0
              (reach_boot _ _ _)) as [H0 _].
  assert (written s EvTimer Scenario.el0
            [TextNode (js "H"); SpanNode cursor_class full_block]) as Hw.
  { apply H1; [vm_compute; reflexivity|vm_compute; discriminate]. }
  split; [exact Hw|]. split.
  - apply H0; [vm_compute; reflexivity|vm_compute; discriminate].
  - apply (H2 _ _ Hw). vm_compute. set_solver.
Defined.

(** ** The slideshow: dots and arrows *)
Section slideshow_proofs.
Import Slideshow.

Lemma active_toggle b d : active (toggle "active" b d) ↔ b = true.
Proof.
  unfold active, toggle. simpl. destruct b.
  - split; [done|intros _]. case_decide; [done|]. apply elem_of_app. right. left.
  - split; [|done]. intros [H _]%list_elem_of_filter. done.
Qed.

Lemma filter_twice {A} (P : A → Prop) `{∀ x, Decision (P x)} (l : list A) :
  filter P (filter P l) = filter P l.
Proof.
  induction l as [|x l IH]; [done|]. rewrite filter_cons.
  destruct (decide (P x)); [|done]. rewrite filter_cons, decide_True by done. by rewrite IH.
Qed.

Lemma toggle_toggle b d : toggle "active" b (toggle "active" b d) = toggle "active" b d.
Proof.
  unfold toggle. simpl. f_equal. destruct b.
  - destruct (decide ("active"%string ∈ classList d)) as [Hin|Hin].
    + by rewrite decide_True.
    + rewrite decide_True; [done|]. apply elem_of_app. right. left.
  - apply filter_twice.
Qed.

Lemma toggle_off_snoc l :
  filter (λ t : string, t ≠ "active"%string)
         (filter (λ t, t ≠ "active"%string) l ++ ["active"%string])
  = filter (λ t, t ≠ "active"%string) l.
Proof.
  rewrite filter_app, filter_twice.
  rewrite filter_cons, decide_False by (by intros H; apply H). by rewrite filter_nil, app_nil_r.
Qed.

Lemma toggle_fallback x d :
  toggle "active" x (toggle "active" false (toggle "active" x (toggle "active" false d)))
  = toggle "active" x (toggle "active" false d).
Proof.
  unfold toggle. simpl. f_equal. destruct x.
  - destruct (decide ("active"%string ∈ filter (λ t, t ≠ "active"%string) (classList d)))
      as [Hin|_].
    { apply list_elem_of_filter in Hin as [H _]. by destruct H. }
    rewrite toggle_off_snoc.
    destruct (decide ("active"%string ∈ filter (λ t, t ≠ "active"%string) (classList d)))
      as [Hin|_]; [|done].
    apply list_elem_of_filter in Hin as [H _]. by destruct H.
  - by rewrite !filter_twice.
Qed.

Lemma toggle_fields b d :
  type (toggle "active" b d) = type d ∧ ariaLabel (toggle "active" b d) = ariaLabel d ∧
  scrollsTo (toggle "active" b d) = scrollsTo d ∧
  ∀ t, t ≠ "active"%string → t ∈ classList (toggle "active" b d) ↔ t ∈ classList d.
Proof.
  split_and!; try done. intros t Ht. unfold toggle. simpl. destruct b.
  - case_decide; [done|]. rewrite elem_of_app, list_elem_of_singleton. tauto.
  - rewrite list_elem_of_filter. tauto.
Qed.

Lemma markVisible_ok lay sr sl index dots any :
  (index + length sl ≤ length dots)%nat →
  ∃ dots',
    markVisible lay sr sl index dots any
    = (Ok (any || existsb (λ s, isVisible sr (getBoundingClientRect lay s)) sl), dots') ∧
    length dots' = length dots ∧
    ∀ k, dots' !! k = marked_at lay sr sl index dots k.
Proof.
  revert index dots any. induction sl as [|slide rest IH]; intros index dots any Hlen.
  - exists dots. simpl. rewrite orb_false_r. split_and!; [done..|].
    intros k. unfold marked_at. case_decide; [|done]. by rewrite lookup_nil.
  - simpl in Hlen. simpl.
    destruct (dots !! index) as [dot|] eqn:Hdot;
      [|apply lookup_ge_None in Hdot; lia].
    set (v := isVisible sr (getBoundingClientRect lay slide)).
    destruct (IH (S index) (<[index := toggle "active" v dot]> dots) (any || v))
      as (dots' & Heq & Hl & Hk).
    { rewrite length_insert. lia. }
    exists dots'. rewrite Heq, orb_assoc. split; [done|].
    rewrite length_insert in Hl. split; [done|].
    intros k. rewrite Hk. unfold marked_at.
    destruct (decide (k = index)) as [->|Hne].
    + rewrite decide_False by lia. rewrite decide_True by lia.
      rewrite list_lookup_insert_eq by (by eapply lookup_lt_Some).
      replace (index - index)%nat with 0%nat by lia. simpl. by rewrite Hdot.
    + rewrite !list_lookup_insert_ne by done.
      destruct (decide (S index ≤ k)%nat) as [Hk1|Hk1].
      * rewrite decide_True by lia.
        replace (k - index)%nat with (S (k - S index)) by lia. done.
      * by rewrite decide_False by lia.
Qed.

Lemma markVisible_throw lay sr sl index dots any :
  (index ≤ length dots)%nat → (length dots < index + length sl)%nat →
  (markVisible lay sr sl index dots any).1 = Throw type_error.
Proof.
  revert index dots any. induction sl as [|slide rest IH]; intros index dots any H1 H2.
  - simpl in H2. lia.
  - simpl in *. destruct (dots !! index) as [dot|] eqn:Hdot; [|done].
    apply lookup_lt_Some in Hdot. apply IH; rewrite length_insert; lia.
Qed.

Lemma closest_range lay sc sl index ci sm :
  closest lay sc sl index ci sm = ci ∨
  (index ≤ closest lay sc sl index ci sm < index + length sl)%nat.
Proof.
  revert index ci sm. induction sl as [|slide rest IH]; intros index ci sm; [by left|].
  simpl. destruct (PrimFloat.ltb _ _).
  - right. destruct (IH (S index) index (distance sc (getBoundingClientRect lay slide)))
      as [->|?]; lia.
  - destruct (IH (S index) ci sm) as [->|?]; [by left|right; lia].
Qed.

Lemma markVisible_dots lay sr sl index dots any :
  length (markVisible lay sr sl index dots any).2 = length dots ∧
  ∀ k, (markVisible lay sr sl index dots any).2 !! k = marked_at lay sr sl index dots k.
Proof.
  revert index dots any. induction sl as [|slide rest IH]; intros index dots any.
  - simpl. split; [done|]. intros k. unfold marked_at. case_decide; [|done].
    by rewrite lookup_nil.
  - simpl. destruct (dots !! index) as [dot|] eqn:Hdot.
    + set (v := isVisible sr (getBoundingClientRect lay slide)).
      destruct (IH (S index) (<[index := toggle "active" v dot]> dots) (any || v))
        as [Hl Hk].
      rewrite length_insert in Hl. split; [done|].
      intros k. rewrite Hk. unfold marked_at.
      destruct (decide (k = index)) as [->|Hne].
      * rewrite decide_False by lia. rewrite decide_True by lia.
        rewrite list_lookup_insert_eq by (by eapply lookup_lt_Some).
        replace (index - index)%nat with 0%nat by lia. simpl. by rewrite Hdot.
      * rewrite !list_lookup_insert_ne by done.
        destruct (decide (S index ≤ k)%nat) as [Hk1|Hk1].
        -- rewrite decide_True by lia.
           replace (k - index)%nat with (S (k - S index)) by lia. done.
        -- by rewrite decide_False by lia.
    + simpl. split; [done|]. intros k. unfold marked_at.
      case_decide as Hk; [|done].
      assert (dots !! k = None) as ->.
      { apply lookup_ge_None. apply lookup_ge_None in Hdot. lia. }
      by destruct ((slide :: rest) !! (k - index)%nat).
Qed.

Lemma marked_twice lay sr sl index dots d1 :
  (∀ k, d1 !! k = marked_at lay sr sl index dots k) →
  ∀ k, marked_at lay sr sl index d1 k = d1 !! k.
Proof.
  intros H k. unfold marked_at. case_decide as Hk; [|done].
  destruct (sl !! (k - index)%nat) as [slide|] eqn:Hs; [|done].
  rewrite H. unfold marked_at. rewrite decide_True, Hs by done.
  destruct (dots !! k) as [d|]; [|done]. simpl. by rewrite toggle_toggle.
Qed.

Lemma existsb_false_lookup {A} (f : A → bool) (l : list A) k x :
  existsb f l = false → l !! k = Some x → f x = false.
Proof.
  revert k. induction l as [|y l IH]; intros k; [done|]. simpl.
  intros [Hy Hl]%orb_false_iff. destruct k as [|k]; simpl; [by intros [= <-]|eauto].
Qed.

Lemma existsb_true_lookup {A} (f : A → bool) (l : list A) :
  existsb f l = true → ∃ k x, l !! k = Some x ∧ f x = true.
Proof.
  induction l as [|y l IH]; [done|]. simpl. intros [Hy|Hl]%orb_true_iff.
  - by exists 0%nat, y.
  - destruct (IH Hl) as (k & x & ? & ?). by exists (S k), x.
Qed.

Lemma dotsOf_arrows c dots p :
  dotsOf c (arrows c (with_dots (dotsContainer c) dots p)) = dots.
Proof. unfold dotsOf. simpl. by rewrite lookup_insert_eq. Qed.

Lemma updateDots_ok c p :
  (length (slides c) ≤ length (dotsOf c p))%nat →
  ∃ dots2, updateDots c p = (Ok tt, arrows c (with_dots (dotsContainer c) dots2 p)) ∧
    length dots2 = length (dotsOf c p) ∧ ∀ k, dots2 !! k = final_at c p k.
Proof.
  intros Hlen. unfold updateDots.
  destruct (markVisible_ok (layout p) (getBoundingClientRect (layout p) (slider c))
              (slides c) 0 (dotsOf c p) false) as (dots1 & Heq & Hl & Hk); [done|].
  fold (dotsOf c p). rewrite Heq. simpl.
  change (existsb _ (slides c)) with (existsb (halfVisible c p) (slides c)).
  unfold final_at. destruct (existsb (halfVisible c p) (slides c)).
  - exists dots1. split; [done|]. split; [done|]. intros k. rewrite Hk.
    by destruct (marked_at _ _ _ _ _ _).
  - eexists. split; [done|]. split; [by rewrite length_imap|].
    intros k. rewrite list_lookup_imap, Hk. done.
Qed.

Lemma updateDots_short c p :
  (length (dotsOf c p) < length (slides c))%nat →
  ∃ dots1, updateDots c p = (Throw type_error, with_dots (dotsContainer c) dots1 p) ∧
    length dots1 = length (dotsOf c p) ∧
    ∀ k, dots1 !! k = marked_at (layout p) (getBoundingClientRect (layout p) (slider c))
                                (slides c) 0 (dotsOf c p) k.
Proof.
  intros Hlen. unfold updateDots. fold (dotsOf c p).
  pose proof (markVisible_throw (layout p) (getBoundingClientRect (layout p) (slider c))
                (slides c) 0 (dotsOf c p) false) as Ht.
  pose proof (markVisible_dots (layout p) (getBoundingClientRect (layout p) (slider c))
                (slides c) 0 (dotsOf c p) false) as [Hl Hk].
  destruct (markVisible _ _ _ _ _ _) as [r dots1]. simpl in *.
  rewrite Ht by lia. eauto.
Qed.

Lemma nearest_bound c p : slides c ≠ [] → (nearest c p < length (slides c))%nat.
Proof.
  intros Hne. unfold nearest. cbv zeta.
  match goal with
  | |- (closest ?l ?sc ?sl 0 0 ?sm < _)%nat =>
      destruct (closest_range l sc sl 0 0 sm) as [->|?]; [|lia]
  end.
  destruct (slides c); [done|simpl; lia].
Qed.

Lemma final_at_cases c p k d' :
  final_at c p k = Some d' →
  ∃ d, dotsOf c p !! k = Some d ∧
    d' = (if existsb (halfVisible c p) (slides c) then id
          else toggle "active" (bool_decide (k = nearest c p)))
           (match slides c !! k with
            | Some slide => toggle "active" (halfVisible c p slide) d
            | None => d
            end).
Proof.
  unfold final_at, marked_at. rewrite decide_True by lia. rewrite Nat.sub_0_r.
  destruct (dotsOf c p !! k) as [d|] eqn:Hd.
  - intros H. exists d. split; [done|].
    destruct (slides c !! k) as [slide|]; simpl in H; by injection H as <-.
  - destruct (slides c !! k); simpl; done.
Qed.

Lemma final_at_Some c p k d :
  dotsOf c p !! k = Some d → is_Some (final_at c p k).
Proof.
  intros Hd. unfold final_at, marked_at. rewrite decide_True by lia. rewrite Hd.
  destruct (slides c !! (k - 0)%nat); simpl; eauto.
Qed.

Lemma toggle_fields_2 b b' d :
  type (toggle "active" b (toggle "active" b' d)) = type d ∧
  ariaLabel (toggle "active" b (toggle "active" b' d)) = ariaLabel d ∧
  scrollsTo (toggle "active" b (toggle "active" b' d)) = scrollsTo d ∧
  ∀ t, t ≠ "active"%string →
       t ∈ classList (toggle "active" b (toggle "active" b' d)) ↔ t ∈ classList d.
Proof.
  destruct (toggle_fields b (toggle "active" b' d)) as (H1 & H2 & H3 & H4).
  destruct (toggle_fields b' d) as (G1 & G2 & G3 & G4).
  split_and!; try congruence. intros t Ht. by rewrite H4, G4.
Qed.

Lemma final_fields c p k d' :
  final_at c p k = Some d' →
  ∃ d, dotsOf c p !! k = Some d ∧ type d' = type d ∧ ariaLabel d' = ariaLabel d ∧
       scrollsTo d' = scrollsTo d ∧
       ∀ t, t ≠ "active"%string → t ∈ classList d' ↔ t ∈ classList d.
Proof.
  intros (d & Hd & ->)%final_at_cases. exists d. split; [done|].
  destruct (existsb (halfVisible c p) (slides c)), (slides c !! k); simpl.
  - apply toggle_fields.
  - done.
  - apply toggle_fields_2.
  - apply toggle_fields.
Qed.

Lemma final_active c p :
  slides c ≠ [] → (length (slides c) ≤ length (dotsOf c p))%nat →
  (∃ k d', (k < length (slides c))%nat ∧ final_at c p k = Some d' ∧ active d') ∧
  (existsb (halfVisible c p) (slides c) = true →
   ∀ k slide d', slides c !! k = Some slide → final_at c p k = Some d' →
                 (active d' ↔ halfVisible c p slide = true)) ∧
  (existsb (halfVisible c p) (slides c) = false →
   ∀ k d', final_at c p k = Some d' → (active d' ↔ k = nearest c p)).
Proof.
  intros Hne Hlen.
  assert (existsb (halfVisible c p) (slides c) = true →
          ∀ k slide d', slides c !! k = Some slide → final_at c p k = Some d' →
                        (active d' ↔ halfVisible c p slide = true)) as Hvis.
  { intros Hany k slide d' Hs (d & Hd & ->)%final_at_cases.
    rewrite Hany, Hs. simpl. apply active_toggle. }
  assert (existsb (halfVisible c p) (slides c) = false →
          ∀ k d', final_at c p k = Some d' → (active d' ↔ k = nearest c p)) as Hfb.
  { intros Hany k d' (d & Hd & ->)%final_at_cases. rewrite Hany.
    rewrite active_toggle. apply bool_decide_eq_true. }
  split; [|done].
  destruct (existsb (halfVisible c p) (slides c)) eqn:Hany.
  - destruct (existsb_true_lookup _ _ Hany) as (k & slide & Hs & Hv).
    pose proof (lookup_lt_Some _ _ _ Hs) as Hk.
    destruct (lookup_lt_is_Some_2 (dotsOf c p) k) as [d Hd]; [lia|].
    destruct (final_at_Some c p k d Hd) as [d' Hd'].
    exists k, d'. split_and!; [done..|]. by apply (Hvis eq_refl k slide d' Hs Hd').
  - pose proof (nearest_bound c p Hne) as Hk.
    destruct (lookup_lt_is_Some_2 (dotsOf c p) (nearest c p)) as [d Hd]; [lia|].
    destruct (final_at_Some c p _ d Hd) as [d' Hd'].
    exists (nearest c p), d'. split_and!; [done..|]. by apply (Hfb eq_refl _ d' Hd').
Qed.

(** X18: [updateDots] completes exactly when the container holds a dot
    for every slide; with fewer dots, [dots[index]] is [undefined] and the
    call throws. *)
Theorem updateDots_completes_iff c p :
  (updateDots c p).1 = Ok tt ↔ (length (slides c) ≤ length (dotsOf c p))%nat.
Proof.
  split.
  - intros Hok. destruct (decide (length (slides c) ≤ length (dotsOf c p))%nat); [done|].
    destruct (updateDots_short c p) as (dots1 & Heq & _); [lia|]. by rewrite Heq in Hok.
  - intros Hlen. by destruct (updateDots_ok c p Hlen) as (dots2 & -> & _).
Qed.

(** X19: with a dot for every slide, [updateDots] leaves at least one
    dot of a slide marked [active]. If some slide lies at least half inside
    the slider, the dot of a slide is marked exactly when that slide does;
    otherwise exactly one dot is marked, the one the fallback loop settles
    on. *)
Theorem updateDots_marks c p :
  slides c ≠ [] → (length (slides c) ≤ length (dotsOf c p))%nat →
  let p' := (updateDots c p).2 in
  length (dotsOf c p') = length (dotsOf c p) ∧
  (∃ k d', (k < length (slides c))%nat ∧ dotsOf c p' !! k = Some d' ∧ active d') ∧
  (existsb (halfVisible c p) (slides c) = true →
   ∀ k slide d', slides c !! k = Some slide → dotsOf c p' !! k = Some d' →
                 (active d' ↔ halfVisible c p slide = true)) ∧
  (existsb (halfVisible c p) (slides c) = false →
   ∃ n, (n < length (slides c))%nat ∧
        ∀ k d', dotsOf c p' !! k = Some d' → (active d' ↔ k = n)).
Proof.
  intros Hne Hlen p'. subst p'.
  destruct (updateDots_ok c p Hlen) as (dots2 & -> & Hl & Hk). simpl.
  rewrite dotsOf_arrows.
  destruct (final_active c p Hne Hlen) as ((k & d' & Hkl & Hd' & Hact) & Hvis & Hfb).
  split_and!.
  - done.
  - exists k, d'. by rewrite Hk.
  - intros Hany j slide d. rewrite Hk. by apply Hvis.
  - intros Hany. exists (nearest c p). split; [by apply nearest_bound|].
    intros j d. rewrite Hk. by apply Hfb.
Qed.

Lemma arrows_again c dots p :
  arrows c (with_dots (dotsContainer c) dots (arrows c (with_dots (dotsContainer c) dots p)))
  = arrows c (with_dots (dotsContainer c) dots p).
Proof.
  unfold arrows, set_disabled, with_dots. simpl. f_equal.
  - by rewrite insert_insert_eq.
  - apply map_eq. intros i. rewrite !lookup_insert. repeat case_decide; done.
Qed.

Lemma final_at_again c p dots2 k :
  (∀ j, dots2 !! j = final_at c p j) →
  final_at c (arrows c (with_dots (dotsContainer c) dots2 p)) k = dots2 !! k.
Proof.
  intros Hk. unfold final_at at 1. rewrite dotsOf_arrows.
  change (layout (arrows c (with_dots (dotsContainer c) dots2 p))) with (layout p).
  change (existsb (halfVisible c (arrows c (with_dots (dotsContainer c) dots2 p))) (slides c))
    with (existsb (halfVisible c p) (slides c)).
  change (nearest c (arrows c (with_dots (dotsContainer c) dots2 p))) with (nearest c p).
  unfold marked_at. rewrite decide_True by lia. rewrite Nat.sub_0_r.
  rewrite !Hk. unfold final_at, marked_at. rewrite decide_True by lia. rewrite Nat.sub_0_r.
  change (isVisible (getBoundingClientRect (layout p) (slider c))
                    (getBoundingClientRect (layout p) ?s)) with (halfVisible c p s).
  destruct (existsb (halfVisible c p) (slides c)) eqn:Hany.
  - destruct (slides c !! k) as [slide|] eqn:Hs; [|by destruct (dotsOf c p !! k)].
    destruct (dotsOf c p !! k) as [d|]; [|done]. simpl. f_equal. apply toggle_toggle.
  - destruct (slides c !! k) as [slide|] eqn:Hs.
    + change (isVisible _ _) with (halfVisible c p slide).
      rewrite (existsb_false_lookup _ _ _ _ Hany Hs).
      destruct (dotsOf c p !! k) as [d|]; [|done]. simpl. f_equal. apply toggle_fallback.
    + destruct (dotsOf c p !! k) as [d|]; [|done]. simpl. f_equal. apply toggle_toggle.
Qed.

(** X20: running [updateDots] again while layout reports the same
    changes nothing: outcome and page are those of the first run, also
    when the run throws. *)
Theorem updateDots_idempotent c p :
  updateDots c (updateDots c p).2 = updateDots c p.
Proof.
  destruct (decide (length (slides c) ≤ length (dotsOf c p))%nat) as [Hlen|Hlen].
  - destruct (updateDots_ok c p Hlen) as (dots2 & -> & Hl & Hk). simpl.
    destruct (updateDots_ok c (arrows c (with_dots (dotsContainer c) dots2 p)))
      as (dots3 & -> & Hl3 & Hk3).
    { rewrite dotsOf_arrows. lia. }
    assert (dots3 = dots2) as ->.
    { apply list_eq. intros k. rewrite Hk3. by apply final_at_again. }
    by rewrite arrows_again.
  - destruct (updateDots_short c p) as (dots1 & -> & Hl & Hk); [lia|]. simpl.
    assert (dotsOf c (with_dots (dotsContainer c) dots1 p) = dots1) as Hd.
    { unfold dotsOf. simpl. by rewrite lookup_insert_eq. }
    destruct (updateDots_short c (with_dots (dotsContainer c) dots1 p))
      as (dots1' & -> & Hl' & Hk').
    { rewrite Hd. lia. }
    assert (dots1' = dots1) as ->.
    { apply list_eq. intros k. rewrite Hk', Hd. simpl.
      by apply (marked_twice _ _ _ _ (dotsOf c p)). }
    unfold with_dots. simpl. by rewrite insert_insert_eq.
Qed.

(** X21: [initSlideshow] never throws. If one of the four elements is
    missing or the slider has no slide, the page stays as it is (the dots
    container is not emptied). Otherwise the four listeners are added and
    the container holds one button per slide, in order, whatever it held
    before: type [button], class [slideshow__dot], the label with the
    slide's number, a click listener for its slide; and at least one dot
    is marked. *)
Theorem initSlideshow_result ids p :
  ∃ p', initSlideshow ids p = (Ok tt, p') ∧
    (((¬ ∃ c, resolves ids p c) ∧ p' = p) ∨
     ∃ c, resolves ids p c ∧
       listeners p' = listeners p ++ wiring c ∧
       length (dotsOf c p') = length (slides c) ∧
       (∀ k slide, slides c !! k = Some slide →
          ∃ d, dotsOf c p' !! k = Some d ∧ type d = "button"%string ∧
               "slideshow__dot"%string ∈ classList d ∧
               ariaLabel d = label k ∧ scrollsTo d = slide) ∧
       (∃ k d, dotsOf c p' !! k = Some d ∧ active d)).
Proof.
  unfold initSlideshow.
  destruct (byId p !! sliderId ids) as [sl|] eqn:H1;
    [|exists p; split; [done|left; split; [|done]; intros (c & ? & _); congruence]].
  destruct (byId p !! dotsId ids) as [dc|] eqn:H2;
    [|exists p; split; [done|left; split; [|done]; intros (c & ? & ? & _); congruence]].
  destruct (byId p !! prevId ids) as [pr|] eqn:H3;
    [|exists p; split; [done|left; split; [|done]; intros (c & ? & ? & ? & _); congruence]].
  destruct (byId p !! nextId ids) as [nx|] eqn:H4;
    [|exists p; split; [done|left; split; [|done];
                        intros (c & ? & ? & ? & ? & _); congruence]].
  destruct (default [] (slidesIn p !! sl)) as [|s0 rest] eqn:Hs.
  { exists p. split; [done|]. left. split; [|done].
    intros (c & Hc & _ & _ & _ & Hsl & Hne). apply Hne. rewrite Hsl.
    replace (slider c) with sl by congruence. done. }
  set (c := mkClosure sl dc pr nx (s0 :: rest)).
  set (p0 := add_listeners (wiring c) (with_dots dc (imap newDot (s0 :: rest)) p)).
  assert (dotsOf c p0 = imap newDot (s0 :: rest)) as Hd0.
  { unfold dotsOf. simpl. by rewrite lookup_insert_eq. }
  assert (length (slides c) ≤ length (dotsOf c p0))%nat as Hlen.
  { rewrite Hd0, length_imap. done. }
  destruct (updateDots_ok c p0 Hlen) as (dots2 & -> & Hl & Hk).
  eexists. split; [done|]. right. exists c.
  rewrite dotsOf_arrows. split_and!.
  - unfold resolves. simpl. by rewrite Hs.
  - done.
  - by rewrite Hl, Hd0, length_imap.
  - intros k slide Hslide.
    destruct (lookup_lt_is_Some_2 (dotsOf c p0) k) as [d0 Hd0k].
    { rewrite Hd0, length_imap. by eapply lookup_lt_Some. }
    destruct (final_at_Some c p0 k d0 Hd0k) as [d Hd].
    destruct (final_fields c p0 k d Hd) as (d0' & Hd0' & Ht & Ha & Hsc & Hcl).
    replace d0' with d0 in * by congruence.
    rewrite Hd0, list_lookup_imap in Hd0k. simpl in Hslide. rewrite Hslide in Hd0k.
    injection Hd0k as <-.
    exists d. rewrite Hk. split_and!; try done. apply Hcl; [done|]. simpl. left.
  - destruct (final_active c p0) as ((k & d' & _ & Hd' & Hact) & _); [done..|].
    exists k, d'. by rewrite Hk.
Qed.

Lemma updateDots_marks_witness :
  let c := deck_closure in
  let p := (initSlideshow kernwerk narrow_deck).2 in
  let p' := (updateDots c p).2 in
  existsb (halfVisible c p) (slides c) = false ∧
  ∃ n, (n < 3)%nat ∧ ∀ k d', dotsOf c p' !! k = Some d' → (active d' ↔ k = n).
Proof.
  intros c p p'.
  assert (existsb (halfVisible c p) (slides c) = false) as Hany
    by (vm_compute; reflexivity).
  split; [exact Hany|].
  assert (slides c ≠ []) as Hne by done.
  assert (length (slides c) ≤ length (dotsOf c p))%nat as Hlen.
  { assert (length (dotsOf c p) = 3%nat) as -> by (vm_compute; reflexivity). simpl. lia. }
  destruct (updateDots_marks c p Hne Hlen) as (_ & _ & _ & Hfb).
  exact (Hfb Hany).
Defined.

Lemma updateDots_intact c q :
  slides c ≠ [] → listeners q = wiring c → Forall (λ c', c' = c) (frames q) →
  length (dotsOf c q) = length (slides c) →
  (∀ k slide, slides c !! k = Some slide →
     ∃ d, dotsOf c q !! k = Some d ∧ type d = "button"%string ∧
          "slideshow__dot"%string ∈ classList d ∧
          ariaLabel d = label k ∧ scrollsTo d = slide) →
  intact c (updateDots c q).2.
Proof.
  intros Hne Hl Hf Hlen Hd.
  destruct (updateDots_ok c q) as (dots2 & -> & Hl2 & Hk); [lia|]. simpl.
  split; rewrite ?dotsOf_arrows; try done.
  - lia.
  - intros k slide Hs. destruct (Hd k slide Hs) as (d0 & Hd0 & Ht & Hc & Hal & Hsc).
    destruct (final_at_Some c q k d0 Hd0) as [d Hdk].
    destruct (final_fields c q k d Hdk) as (d0' & Hd0' & Ht' & Ha' & Hs' & Hcl).
    replace d0' with d0 in * by congruence.
    exists d. rewrite Hk. split_and!; try congruence. by apply Hcl.
  - destruct (final_active c q) as ((k & d' & _ & Hd' & Hact) & _); [done|lia|].
    exists k, d'. by rewrite Hk.
Qed.

Lemma intact_updateDots c q : slides c ≠ [] → intact c q → intact c (updateDots c q).2.
Proof. intros Hne [Hl Hf Hlen Hd _]. by apply updateDots_intact. Qed.

Lemma intact_same c q q' :
  listeners q' = listeners q → Forall (λ c', c' = c) (frames q') →
  dotsIn q' = dotsIn q → intact c q → intact c q'.
Proof.
  intros Hl Hf Hd [Hl0 _ Hlen Hdots Ha].
  split; unfold dotsOf in *; rewrite ?Hl, ?Hd; done.
Qed.

Lemma intact_handler c q h :
  slides c ≠ [] → h ∈ handler <$> wiring c → intact c q → intact c (run_handler h q).2.
Proof.
  intros Hne Hh Hq. unfold wiring in Hh. simpl in Hh.
  repeat (apply elem_of_cons in Hh as [->|Hh]); [..|by apply elem_of_nil in Hh]; simpl.
  - apply (intact_same c q); [done| |done|done]. apply Hq.
  - apply (intact_same c q); [done| |done|done]. apply Hq.
  - apply (intact_same c q); [done| |done|done]. simpl.
    apply Forall_app. split; [apply Hq|by apply Forall_singleton].
  - by apply intact_updateDots.
Qed.

Lemma intact_deliver c q tg ev :
  slides c ≠ [] → intact c q → intact c (deliver tg ev q).
Proof.
  intros Hne Hq. unfold deliver.
  assert (Forall (λ l, handler l ∈ handler <$> wiring c)
            (filter (λ l, target l = tg ∧ event l = ev) (listeners q))) as Hall.
  { apply Forall_forall. intros l [_ Hl]%list_elem_of_filter.
    rewrite (in_listeners c q Hq) in Hl. apply list_elem_of_fmap. eauto. }
  revert Hall. generalize (filter (λ l, target l = tg ∧ event l = ev) (listeners q)).
  intros ls. revert q Hq. induction ls as [|l ls IH]; intros q Hq Hall; [done|].
  apply Forall_cons in Hall as [Hl Hall]. simpl. apply IH; [|done].
  by apply intact_handler.
Qed.

Lemma intact_handle c q ev : slides c ≠ [] → intact c q → intact c (handle ev q).
Proof.
  intros Hne Hq. destruct ev as [el|container index|el| | |lay]; simpl.
  - by apply intact_deliver.
  - destruct (dotsIn q !! container ≫= _); [|done].
    apply (intact_same c q); [done| |done|done]. apply Hq.
  - by apply intact_deliver.
  - by apply intact_deliver.
  - pose proof (in_frames c q Hq) as Hf.
    assert (intact c (clear_frames q)) as Hq0.
    { apply (intact_same c q); [done| |done|done]. simpl. done. }
    revert Hf Hq0. generalize (clear_frames q). generalize (frames q).
    intros fs. induction fs as [|c' fs IH]; intros q0 Hf Hq0; [done|].
    apply Forall_cons in Hf as [-> Hf]. simpl. apply IH; [done|].
    by apply intact_updateDots.
  - apply (intact_same c q); [done| |done|done]. apply Hq.
Qed.

Lemma intact_init ids p c :
  resolves ids p c → listeners p = [] → frames p = [] →
  intact c (initSlideshow ids p).2.
Proof.
  intros (H1 & H2 & H3 & H4 & Hs & Hne) Hl Hf. unfold initSlideshow.
  rewrite H1, H2, H3, H4, <- Hs.
  destruct (slides c) as [|s0 rest] eqn:Hsl; [done|]. rewrite <- Hsl.
  replace (mkClosure (slider c) (dotsContainer c) (prevBtn c) (nextBtn c) (slides c))
    with c by by destruct c.
  assert (dotsOf c (add_listeners (wiring c)
                      (with_dots (dotsContainer c) (imap newDot (slides c)) p))
          = imap newDot (slides c)) as Hd.
  { unfold dotsOf. simpl. by rewrite lookup_insert_eq. }
  apply updateDots_intact; rewrite ?Hd.
  - by rewrite Hsl.
  - simpl. by rewrite Hl.
  - simpl. by rewrite Hf.
  - by rewrite length_imap.
  - intros k slide Hk. exists (newDot k slide). rewrite list_lookup_imap, Hk. simpl.
    split_and!; try done. left.
Qed.

(** X22: on a page without other listeners, once [initSlideshow] has
    wired a slideshow up, no sequence of clicks, scroll and resize events,
    animation frames and layout changes breaks it: the listeners are the
    four of [initSlideshow], the container holds one button per slide with
    the attributes it was created with, and at least one dot is marked. *)
Theorem slideshow_stays_intact ids p c evs :
  resolves ids p c → listeners p = [] → frames p = [] →
  intact c (foldl (λ q ev, handle ev q) (initSlideshow ids p).2 evs).
Proof.
  intros Hr Hl Hf. pose proof (intact_init ids p c Hr Hl Hf) as Hq.
  assert (slides c ≠ []) as Hne by apply Hr.
  revert Hq. generalize ((initSlideshow ids p).2). clear Hr Hl Hf.
  induction evs as [|ev evs IH]; intros q Hq; [done|].
  simpl. apply IH. by apply intact_handle.
Qed.

Lemma slideshow_stays_intact_witness :
  let q := foldl (λ q ev, handle ev q) (initSlideshow kernwerk wide_deck).2
                 [Click 4; Relayout scrolled_layout; Scroll 1; Frame; Resize; ClickDot 2 2] in
  length (dotsOf deck_closure q) = 3%nat ∧
  ∃ k d, dotsOf deck_closure q !! k = Some d ∧ active d.
Proof.
  intros q.
  assert (resolves kernwerk wide_deck deck_closure) as Hr.
  { unfold resolves. split_and!; try (vm_compute; reflexivity). done. }
  destruct (slideshow_stays_intact kernwerk wide_deck deck_closure
              [Click 4; Relayout scrolled_layout; Scroll 1; Frame; Resize; ClickDot 2 2]
              Hr eq_refl eq_refl) as [_ _ Hlen _ Ha].
  split; [exact Hlen|exact Ha].
Defined.

End slideshow_proofs.
